(** * Shallow embedding of retro's analytic track hypothesis
    ([retro/hypo_fast.py]) and of the table-lookup photon expectation
    ([retro/tables/pexp_5d.py]).

    Real numbers stand for the float64 values of the source.  Where the
    source can produce an IEEE special value (an explicit [np.inf], a
    division by zero on numpy floats, the logarithm of zero, a NaN hit time)
    the value lives in [F], reals extended with +inf, -inf and NaN, with the
    IEEE rules for arithmetic and comparisons. *)

From Stdlib Require Import Reals Lra Lia List ZArith Bool.
Import ListNotations.

Open Scope R_scope.

(** ** Decidable comparisons on reals, as the booleans of the source *)

Definition Rltb (a b : R) : bool := if Rlt_dec a b then true else false.
Definition Rleb (a b : R) : bool := if Rle_dec a b then true else false.
Definition Reqb (a b : R) : bool := if Req_dec_T a b then true else false.

(** ** IEEE-style extended values *)

Inductive F : Type :=
| Fin (r : R)
| PInf
| NInf
| NaN.

Definition fneg (x : F) : F :=
  match x with
  | Fin a => Fin (- a)
  | PInf => NInf
  | NInf => PInf
  | NaN => NaN
  end.

Definition fadd (x y : F) : F :=
  match x, y with
  | NaN, _ | _, NaN => NaN
  | PInf, NInf | NInf, PInf => NaN
  | PInf, _ | _, PInf => PInf
  | NInf, _ | _, NInf => NInf
  | Fin a, Fin b => Fin (a + b)
  end.

Definition fsub (x y : F) : F := fadd x (fneg y).

(** The infinity [s] (PInf or NInf) multiplied by a finite [a]. *)
Definition inf_times (s : F) (a : R) : F :=
  if Rltb 0 a then s else if Rltb a 0 then fneg s else NaN.

Definition fmul (x y : F) : F :=
  match x, y with
  | NaN, _ | _, NaN => NaN
  | Fin a, Fin b => Fin (a * b)
  | Fin a, s | s, Fin a => inf_times s a
  | PInf, PInf | NInf, NInf => PInf
  | _, _ => NInf
  end.

Definition fdiv (x y : F) : F :=
  match x, y with
  | NaN, _ | _, NaN => NaN
  | Fin a, Fin b =>
      if Reqb b 0 then
        (if Rltb 0 a then PInf else if Rltb a 0 then NInf else NaN)
      else Fin (a / b)
  | Fin _, _ => Fin 0
  | s, Fin b => if Rltb b 0 then fneg s else s
  | _, _ => NaN
  end.

(** Ordered comparisons are false as soon as one side is NaN. *)
Definition flt (x y : F) : bool :=
  match x, y with
  | NaN, _ | _, NaN => false
  | Fin a, Fin b => Rltb a b
  | NInf, NInf | PInf, _ => false
  | NInf, _ => true
  | Fin _, PInf => true
  | Fin _, NInf => false
  end.

Definition fle (x y : F) : bool :=
  match x, y with
  | NaN, _ | _, NaN => false
  | Fin a, Fin b => Rleb a b
  | NInf, _ | _, PInf => true
  | PInf, _ => false
  | Fin _, NInf => false
  end.

Definition fgt (x y : F) : bool := flt y x.
Definition fge (x y : F) : bool := fle y x.

Definition isinf (x : F) : bool :=
  match x with PInf | NInf => true | _ => false end.

(** [math.log] as lowered by numba: log of zero is -inf, of a negative
    number NaN. *)
Definition flog (x : F) : F :=
  match x with
  | Fin a => if Rltb 0 a then Fin (ln a) else if Reqb a 0 then NInf else NaN
  | PInf => PInf
  | NInf | NaN => NaN
  end.

(** Python's [max(a, b, c)] and [min(a, b, c)]: the running extremum is
    replaced only when the next item compares strictly greater (smaller). *)
Definition pymax3 (a b c : F) : F :=
  let m := if fgt b a then b else a in if fgt c m then c else m.
Definition pymin3 (a b c : F) : F :=
  let m := if flt b a then b else a in if flt c m then c else m.

(** Python's [sorted([a, b])] on two items. *)
Definition sorted2F (p : F * F) : F * F :=
  let (a, b) := p in if flt b a then (b, a) else (a, b).
Definition sorted2R (p : R * R) : R * R :=
  let (a, b) := p in if Rltb b a then (b, a) else (a, b).

(** Python's [int(x)] on a float: truncation towards zero. *)
Definition pyint (x : R) : Z :=
  if Rle_dec 0 x then Int_part x else (- Int_part (- x))%Z.

(** [int(x)] in numba on a value that may be NaN or infinite: the x86
    conversion yields the "integer indefinite" value [-2^63]. *)
Definition pyintF (x : F) : Z :=
  match x with Fin a => pyint a | _ => (- 2 ^ 63)%Z end.

(** Consecutive bin-edge pairs [(edges[i], edges[i+1])], as iterated by
    [for i in range(len(bin_edges) - 1)]. *)
Fixpoint pairs (l : list R) : list (R * R) :=
  match l with
  | a :: ((b :: _) as l') => (a, b) :: pairs l'
  | _ => []
  end.

(** [for i, x in enumerate(l)] threading an accumulator. *)
Fixpoint fold_idx {A B : Type} (f : nat -> A -> B -> B) (i : nat)
  (l : list A) (acc : B) : B :=
  match l with
  | [] => acc
  | a :: l' => fold_idx f (S i) l' (f i a acc)
  end.

(** * retro/hypo_fast.py *)
Module HypoFast.

(** Package constants imported by [hypo_fast.py] from [retro]; they are
    defined outside the source files at hand.  [SPEED_OF_LIGHT_M_PER_NS] is
    the speed of light in m/ns its name gives; [TRACK_M_PER_GEV] is retro's
    track length per GeV, [15 / 3.3]. *)
Definition SPEED_OF_LIGHT_M_PER_NS : R := 299792458 / 1000000000.
Definition TRACK_M_PER_GEV : R := 15 / (33 / 10).
Definition PI_BY_TWO : R := PI / 2.
Definition TWO_PI : R := 2 * PI.

(** [TrackParams] and [TimeSpaceCoord] namedtuples. *)
Record TrackParams := {
  tp_t : R; tp_x : R; tp_y : R; tp_z : R;
  tp_zenith : R; tp_azimuth : R; tp_energy : R }.

Record TimeSpaceCoord := { c_t : R; c_x : R; c_y : R; c_z : R }.

(** The attributes of a [Track] object. *)
Record Track := {
  params : TrackParams;
  length : R;
  dt : R;
  sinphi : R; cosphi : R; tanphi : R;
  sintheta : R; costheta : R;
  origin : TimeSpaceCoord;
  t0 : R; x0 : R; y0 : R; z0 : R }.

(** [Track.set_origin]: relative coordinates of the track start.  (The early
    return when [coord == self.origin] leaves the very same attributes.) *)
Definition set_origin (tr : Track) (coord : TimeSpaceCoord) : Track :=
  let p := params tr in
  {| params := p; length := length tr; dt := dt tr;
     sinphi := sinphi tr; cosphi := cosphi tr; tanphi := tanphi tr;
     sintheta := sintheta tr; costheta := costheta tr;
     origin := coord;
     t0 := tp_t p - c_t coord; x0 := tp_x p - c_x coord;
     y0 := tp_y p - c_y coord; z0 := tp_z p - c_z coord |}.

(** [Track.__init__(params, origin)]. *)
Definition mk_track (p : TrackParams) (coord : TimeSpaceCoord) : Track :=
  let len := tp_energy p * TRACK_M_PER_GEV in
  set_origin
    {| params := p; length := len; dt := len / SPEED_OF_LIGHT_M_PER_NS;
       sinphi := sin (tp_azimuth p); cosphi := cos (tp_azimuth p);
       tanphi := tan (tp_azimuth p);
       sintheta := sin (tp_zenith p); costheta := cos (tp_zenith p);
       origin := coord; t0 := 0; x0 := 0; y0 := 0; z0 := 0 |} coord.

Definition origin0 : TimeSpaceCoord := {| c_t := 0; c_x := 0; c_y := 0; c_z := 0 |}.

Section TrackMethods.
Variable tr : Track.

(** [Track.point]; [None] is the failing [assert]. *)
Definition point (t : R) : option (R * R * R) :=
  if Rleb (t0 tr) t && Rleb t (t0 tr + dt tr) then
    let dt' := t - t0 tr in
    let dr := SPEED_OF_LIGHT_M_PER_NS * dt' in
    Some (x0 tr + dr * sintheta tr * cosphi tr,
          y0 tr + dr * sintheta tr * sinphi tr,
          z0 tr + dr * costheta tr)
  else None.

(** [Track.extent]; [None] is "no overlap". *)
Definition extent (t_low t_high : R) : option (R * R) :=
  if Rleb t_low (t0 tr + dt tr) && Rleb (t0 tr) t_high then
    Some (Rmax t_low (t0 tr), Rmin t_high (t0 tr + dt tr))
  else None.

(** [Track.tb], with the source's parenthesisation. *)
Definition tb : R :=
  (t0 tr - (x0 tr * sintheta tr * cosphi tr
            + y0 tr * sintheta tr * sinphi tr
            + z0 tr * costheta tr)) / SPEED_OF_LIGHT_M_PER_NS.

(** [Track.ts]; the quotient is an IEEE division. *)
Definition ts : F :=
  if (Reqb (x0 tr) 0 && Reqb (y0 tr) 0 && Reqb (z0 tr) 0)
     || Reqb (tp_zenith (params tr)) 0 || Reqb (tp_zenith (params tr)) PI
  then Fin (t0 tr)
  else
    let rho :=
      fdiv (Fin (- costheta tr * (x0 tr * x0 tr + y0 tr * y0 tr)
                 + sintheta tr * z0 tr * (x0 tr * cosphi tr + y0 tr * sinphi tr)))
           (Fin (sintheta tr * costheta tr * (x0 tr * cosphi tr + y0 tr * sinphi tr)
                 - z0 tr * sintheta tr * sintheta tr)) in
    fadd (Fin (t0 tr)) (fdiv rho (Fin SPEED_OF_LIGHT_M_PER_NS)).

Definition rho_of_t (t : R) : R :=
  if Rltb t (t0 tr) || Rltb (t0 tr + dt tr) t then -1
  else (t - t0 tr) * SPEED_OF_LIGHT_M_PER_NS.

(** [Track.rho_of_phi]: numpy division, so a zero denominator gives inf or
    NaN. *)
Definition rho_of_phi (phi : R) : F :=
  let s := sin phi in
  let c := cos phi in
  fdiv (Fin (s * x0 tr - c * y0 tr))
       (Fin (c * sinphi tr * sintheta tr - s * cosphi tr * sintheta tr)).

Definition get_M (T : R) : R :=
  let S := - x0 tr * x0 tr * sintheta tr * sintheta tr * sinphi tr * sinphi tr
           - y0 tr * y0 tr * cosphi tr * cosphi tr * sintheta tr * sintheta tr
           + 2 * x0 tr * y0 tr * sinphi tr * sintheta tr * sintheta tr * cosphi tr
           + (tan T) ^ 2 * ( (x0 tr * x0 tr + y0 tr * y0 tr) * costheta tr * costheta tr
                            + z0 tr * z0 tr * sintheta tr * sintheta tr
                            - 2 * z0 tr * sintheta tr * costheta tr
                                * (x0 tr * cosphi tr + y0 tr * sinphi tr)) in
  if Rltb S 0 then 0 else sqrt S.

Definition rho_of_theta_neg (T : R) : F :=
  let M := get_M T in
  let d := - sintheta tr * sintheta tr + costheta tr * costheta tr * (tan T) ^ 2 in
  if Reqb d 0 then PInf
  else Fin (( x0 tr * sintheta tr * cosphi tr
            + y0 tr * sinphi tr * sintheta tr
            - z0 tr * costheta tr * (tan T) ^ 2
            + M) / d).

Definition rho_of_theta_pos (T : R) : F :=
  let M := get_M T in
  let d := - sintheta tr * sintheta tr + costheta tr * costheta tr * (tan T) ^ 2 in
  if Reqb d 0 then PInf
  else Fin (( x0 tr * sintheta tr * cosphi tr
            + y0 tr * sinphi tr * sintheta tr
            - z0 tr * costheta tr * (tan T) ^ 2
            - M) / d).

Definition get_A (Rr : R) : R :=
  let S := Rr * Rr
           + x0 tr * x0 tr * (cosphi tr * cosphi tr * sintheta tr * sintheta tr - 1)
           + y0 tr * y0 tr * (sinphi tr * sinphi tr * sintheta tr * sintheta tr - 1)
           + z0 tr * z0 tr * (costheta tr * costheta tr - 1)
           + 2 * x0 tr * y0 tr * sinphi tr * sintheta tr * sintheta tr * cosphi tr
           + 2 * x0 tr * z0 tr * cosphi tr * sintheta tr * costheta tr
           + 2 * y0 tr * z0 tr * sinphi tr * sintheta tr * costheta tr in
  if Rltb S 0 then 0 else sqrt S.

Definition rho_of_r_pos (Rr : R) : R :=
  get_A Rr - x0 tr * sintheta tr * cosphi tr - y0 tr * sinphi tr * sintheta tr
  - z0 tr * costheta tr.

Definition rho_of_r_neg (Rr : R) : R :=
  - get_A Rr - x0 tr * sintheta tr * cosphi tr - y0 tr * sinphi tr * sintheta tr
  - z0 tr * costheta tr.

End TrackMethods.

(** [np.arctan2] (signed zeros aside). *)
Definition arctan2 (y x : R) : R :=
  if Rltb 0 x then atan (y / x)
  else if Rltb x 0 then
    (if Rleb 0 y then atan (y / x) + PI else atan (y / x) - PI)
  else if Rltb 0 y then PI / 2
  else if Rltb y 0 then - (PI / 2)
  else 0.

(** [Hypo.cr], [Hypo.cphi], [Hypo.ctheta]. *)
Definition cr (p : R * R * R) : R :=
  let '(x, y, z) := p in sqrt (x * x + y * y + z * z).

Definition cphi (p : R * R * R) : R :=
  let '(x, y, z) := p in
  let v := arctan2 y x in if Rltb v 0 then v + TWO_PI else v.

Definition ctheta (p : R * R * R) : R :=
  let '(x, y, z) := p in
  if Reqb x 0 && Reqb y 0 && Reqb z 0 then 0
  else acos (z / sqrt (x * x + y * y + z * z)).

(** [Hypo.get_bin]: linear scan, [None] outside the binning. *)
Fixpoint get_bin_from (k : nat) (val : R) (edges : list R) : option nat :=
  match edges with
  | a :: ((b :: _) as l') =>
      if Rleb a val && Rltb val b then Some k else get_bin_from (S k) val l'
  | _ => None
  end.

Definition get_bin (val : R) (edges : list R) : option nat := get_bin_from 0 val edges.

(** [HYPO_PARAMS_T] namedtuple. *)
Record HypoParams := {
  hp_t : R; hp_x : R; hp_y : R; hp_z : R;
  hp_track_zenith : R; hp_track_azimuth : R;
  hp_track_energy : R; hp_cascade_energy : R }.

(** Modelled from the spec: [hypo_to_track_params] (defined in the [retro]
    package, outside the source files) extracts the track part of a
    hypothesis: the track starts at the hypothesis vertex and time, with the
    hypothesis' direction and track energy. *)
Definition hypo_to_track_params (p : HypoParams) : TrackParams :=
  {| tp_t := hp_t p; tp_x := hp_x p; tp_y := hp_y p; tp_z := hp_z p;
     tp_zenith := hp_track_zenith p; tp_azimuth := hp_track_azimuth p;
     tp_energy := hp_track_energy p |}.

(** The attributes of a [Hypo] object after [__init__]. *)
Record Hypo := {
  hparams : HypoParams;
  track : Track;
  photons_per_meter : R;
  cascade_photons : R;
  track_photons : R;
  tot_photons : R }.

Definition mk_hypo (p : HypoParams) (cascade_e_scale track_e_scale : R) : Hypo :=
  let tr := mk_track (hypo_to_track_params p) origin0 in
  let ppm := 24514544553 / 10000000 * track_e_scale in
  let photons_per_gev_cascade := 128053383311 / 10000000 * cascade_e_scale in
  let cp := hp_cascade_energy p * photons_per_gev_cascade in
  {| hparams := p; track := tr; photons_per_meter := ppm;
     cascade_photons := cp; track_photons := length tr * ppm;
     tot_photons := cp + length tr * ppm |}.

(** [BinningCoords] of bin edges, as given to [Hypo.set_binning]. *)
Record Binning := { b_t : list R; b_r : list R; b_theta : list R; b_phi : list R }.

Definition bin_centers (edges : list R) : list R :=
  map (fun b => (fst b + snd b) / 2) (pairs edges).

(** ** Axis correlators *)

Definition interval := (F * F)%type.
Definition sentinel : interval := (Fin (-1), Fin (-1)).
Definition liftR (p : R * R) : interval := (Fin (fst p), Fin (snd p)).

(** [Hypo.correlate_theta]; [t] is [None] for the source's [t is None]. *)
Definition correlate_theta (tr : Track) (edges : list R) (t : option (R * R))
  (rho_extent : R * R) : list interval :=
  map (fun b : R * R =>
    let (b0, b1) := b in
    match t with
    | None => sentinel
    | Some (ta, tz) =>
      if Rltb (Rabs (ta - tz)) (1 / 10000000) && Rleb b0 ta && Rleb ta b1 then
        liftR rho_extent
      else if Rleb b0 tz && Rleb ta b1 && Rltb ta tz then
        let val_high := Rmin b1 tz in
        let val_low := Rmax b0 ta in
        if Rltb b0 PI_BY_TWO
        then sorted2F (rho_of_theta_pos tr val_low, rho_of_theta_pos tr val_high)
        else sorted2F (rho_of_theta_neg tr val_low, rho_of_theta_neg tr val_high)
      else if Rleb b0 ta && Rleb tz b1 && Rltb tz ta then
        let val_high := Rmin b1 ta in
        let val_low := Rmax b0 tz in
        if Rltb b0 PI_BY_TWO
        then sorted2F (rho_of_theta_neg tr val_low, rho_of_theta_neg tr val_high)
        else sorted2F (rho_of_theta_pos tr val_low, rho_of_theta_pos tr val_high)
      else sentinel
    end) (pairs edges).

(** [Hypo.correlate_phi]. *)
Definition correlate_phi (tr : Track) (edges : list R) (t : R * R)
  (rho_extent : R * R) : list interval :=
  let (ta, tz) := t in
  map (fun b : R * R =>
    let (b0, b1) := b in
    if Rltb (Rabs (ta - tz)) (1 / 100000000000000) && Rleb b0 ta && Rltb ta b1 then
      liftR rho_extent
    else if Rleb ta tz && Rleb b0 tz && Rltb ta b1 then
      let phi_high := Rmin b1 tz in
      let phi_low := Rmax b0 ta in
      sorted2F (rho_of_phi tr phi_low, rho_of_phi tr phi_high)
    else if Rltb tz ta then
      (* crossing the 0/2pi point *)
      if Rleb 0 b1 && Rleb b0 tz then
        sorted2F (rho_of_phi tr (Rmax b0 0), rho_of_phi tr (Rmin b1 tz))
      else if Rltb b0 TWO_PI && Rleb ta b1 then
        sorted2F (rho_of_phi tr (Rmax b0 ta), rho_of_phi tr (Rmin b1 TWO_PI))
      else if Rleb b0 tz && Rleb ta tz then
        sorted2F (rho_of_phi tr (Rmax b0 ta), rho_of_phi tr (Rmin b1 tz))
      else sentinel
    else sentinel) (pairs edges).

(** [Hypo.correlate_r]. *)
Definition correlate_r (tr : Track) (edges : list R) (t : R * R) (pos : bool)
  : list interval :=
  let (ta, tz) := t in
  map (fun b : R * R =>
    let (b0, b1) := b in
    if Rleb b0 tz && Rleb ta b1 then
      let val_high := Rmin b1 tz in
      let val_low := Rmax b0 ta in
      if (Rleb val_high val_low && negb pos) || (Rleb val_low val_high && pos)
      then sorted2F (Fin (rho_of_r_neg tr val_low), Fin (rho_of_r_neg tr val_high))
      else sorted2F (Fin (rho_of_r_pos tr val_low), Fin (rho_of_r_pos tr val_high))
    else sentinel) (pairs edges).

(** ** Sparse 4D accumulator *)

Definition key := (nat * nat * nat * nat)%type.

Definition key_eqb (a b : key) : bool :=
  let '(a1, a2, a3, a4) := a in
  let '(b1, b2, b3, b4) := b in
  Nat.eqb a1 b1 && Nat.eqb a2 b2 && Nat.eqb a3 b3 && Nat.eqb a4 b4.

(** Modelled from the spec: the [Sparse] class (imported from [sparse],
    outside the source files) is a mapping keyed by 4D bin index with default
    value 0, in-place add, and iteration over the populated cells only.  It
    is an association list in insertion order. *)
Definition Sparse := list (key * F).

Definition sparse_get (z : Sparse) (k : key) : F :=
  match find (fun e => key_eqb (fst e) k) z with
  | Some (_, v) => v
  | None => Fin 0
  end.

Fixpoint sparse_set (z : Sparse) (k : key) (v : F) : Sparse :=
  match z with
  | [] => [(k, v)]
  | (k', v') :: z' => if key_eqb k' k then (k', v) :: z' else (k', v') :: sparse_set z' k v
  end.

(** [z[k] += v]. *)
Definition sparse_add (z : Sparse) (k : key) (v : F) : Sparse :=
  sparse_set z k (fadd (sparse_get z k) v).

(** Sum of the values of all populated cells. *)
Definition sparse_total (z : Sparse) : F :=
  fold_left (fun acc e => fadd acc (snd e)) z (Fin 0).

(** ** [inner_loop] *)

(** [phi[0] < 0 and phi[1] < 0]: the "no overlap" test. *)
Definition no_overlap (iv : interval) : bool :=
  flt (fst iv) (Fin 0) && flt (snd iv) (Fin 0).

(** The body of the innermost loops: intersect and deposit. *)
Definition deposit (z : Sparse) (kk : key) (r theta phi : interval)
  (photons_per_meter : R) : Sparse :=
  let A := pymax3 (fst r) (fst theta) (fst phi) in
  let B := pymin3 (snd r) (snd theta) (snd phi) in
  if fle A B then sparse_add z kk (fmul (fsub B A) (Fin photons_per_meter)) else z.

Definition inner_loop (z : Sparse) (k : nat) (phi_inter theta_inter_neg
  theta_inter_pos r_inter_neg r_inter_pos : list interval)
  (photons_per_meter : R) : Sparse :=
  let r_loop (i m : nat) (phi theta : interval) (r_inter : list interval) (z : Sparse) :=
    fold_idx (fun j r z =>
      if no_overlap r then z else deposit z (k, j, m, i) r theta phi photons_per_meter)
      0 r_inter z in
  let theta_loop (i : nat) (phi : interval) (theta_inter : list interval) (z : Sparse) :=
    fold_idx (fun m theta z =>
      if no_overlap theta then z
      else r_loop i m phi theta r_inter_pos (r_loop i m phi theta r_inter_neg z))
      0 theta_inter z in
  fold_idx (fun i phi z =>
    if no_overlap phi then z
    else theta_loop i phi theta_inter_pos (theta_loop i phi theta_inter_neg z))
    0 phi_inter z.

(** ** [Hypo.compute_matrices] *)

Definition sentinelR : R * R := (-1, -1).

(** One iteration [k] of the loop over time bins.  [tbv] and [tsv] are
    [self.track.tb] and [self.track.ts]; [r_infl] and [theta_infl] are the
    locals [r_inflection_point] and [theta_inflection_point], [None] when
    they were never assigned (reading them then raises). *)
Definition time_step (h : Hypo) (b : Binning) (tr : Track) (tbv : R)
  (r_infl : option R) (tsv : F) (theta_infl : option R)
  (k : nat) (tbin : R * R) (z : Sparse) : option Sparse :=
  let (t_low, t_high) := tbin in
  match extent tr t_low t_high with
  | None => Some z
  | Some (e0, e1) =>
    match point tr e0, point tr e1 with
    | Some p0, Some p1 =>
      let rho_extent := (rho_of_t tr e0, rho_of_t tr e1) in
      (* Radius: (neg, pos) extents *)
      let r_ext :=
        if Rleb tbv e0 then Some (sorted2R (cr p0, cr p1), sentinelR)
        else if Rltb e1 tbv then Some (sentinelR, sorted2R (cr p0, cr p1))
        else match r_infl with
             | Some ri => Some (sorted2R (ri, cr p1), sorted2R (cr p0, ri))
             | None => None
             end in
      (* theta: (neg, pos) extents *)
      let th_ext :=
        if fle tsv (Fin e0) then Some ((ctheta p0, ctheta p1), sentinelR)
        else if fge tsv (Fin e1) then Some (sentinelR, (ctheta p0, ctheta p1))
        else match theta_infl with
             | Some ti => Some ((ctheta p0, ti), (ti, ctheta p1))
             | None => None
             end in
      match r_ext, th_ext with
      | Some (r_neg, r_pos), Some (th_neg, th_pos) =>
        let (pa, pz) := sorted2R (cphi p0, cphi p1) in
        let phi_ext := if Rltb PI (Rabs (pz - pa)) then (pz, pa) else (pa, pz) in
        let theta_inter_neg := correlate_theta tr (b_theta b) (Some th_neg) rho_extent in
        let theta_inter_pos := correlate_theta tr (b_theta b) (Some th_pos) rho_extent in
        let phi_inter := correlate_phi tr (b_phi b) phi_ext rho_extent in
        let r_inter_neg := correlate_r tr (b_r b) r_neg false in
        let r_inter_pos := correlate_r tr (b_r b) r_pos true in
        Some (inner_loop z k phi_inter theta_inter_neg theta_inter_pos
                         r_inter_neg r_inter_pos (photons_per_meter h))
      | _, _ => None
      end
    | _, _ => None
    end
  end.

(** The track part: origin set to the hit DOM, inflection points, and the
    loop over the time bins.  [None] is a raised exception. *)
Definition track_loop (h : Hypo) (b : Binning) (hit_dom_coord : TimeSpaceCoord)
  : option Sparse :=
  let tr := set_origin (track h) hit_dom_coord in
  let tbv := tb tr in
  let r_infl :=
    if Rleb (t0 tr) tbv && Rltb tbv (t0 tr + dt tr)
    then option_map cr (point tr tbv) else None in
  let tsv := ts tr in
  let theta_infl :=
    match tsv with
    | Fin s => if Rleb (t0 tr) s && Rltb s (t0 tr + dt tr)
               then option_map ctheta (point tr s) else None
    | _ => None
    end in
  fold_idx (fun k tbin acc =>
    match acc with
    | Some z => time_step h b tr tbv r_infl tsv theta_infl k tbin z
    | None => None
    end) 0 (pairs (b_t b)) (Some []).

(** "add angles": for every populated cell, directionality of track
    photons. *)
Definition add_angles (h : Hypo) (b : Binning) (counts : Sparse)
  : Sparse * Sparse * Sparse :=
  let zen := tp_zenith (params (track h)) in
  let az := tp_azimuth (params (track h)) in
  fold_left (fun acc e =>
    let '(ct, cp, cl) := acc in
    let '((_, _, _, iphi) as idx) := fst e in
    let phi := nth iphi (bin_centers (b_phi b)) 0 in
    let delta := Rabs (phi - az) in
    let delta_phi := if Rleb delta PI then delta else TWO_PI - delta in
    (sparse_set ct idx (Fin zen), sparse_set cp idx (Fin delta_phi),
     sparse_set cl idx (Fin 1))) counts ([], [], []).

(** The four bin lookups of the cascade point (the track start). *)
Definition cascade_bins (tr : Track) (b : Binning) : option key :=
  let p := (x0 tr, y0 tr, z0 tr) in
  match get_bin (t0 tr) (b_t b), get_bin (cr p) (b_r b),
        get_bin (ctheta p) (b_theta b), get_bin (cphi p) (b_phi b) with
  | Some it, Some ir, Some ith, Some iph => Some (it, ir, ith, iph)
  | _, _, _, _ => None
  end.

(** "add cascade as point"; [np.average] raises [ZeroDivisionError] when
    its weights sum to zero. *)
Definition add_cascade (h : Hypo) (tr : Track) (b : Binning)
  (counts corr_len : Sparse) : option (Sparse * Sparse) :=
  match cascade_bins tr b with
  | None => Some (counts, corr_len)
  | Some cell =>
    let w0 := sparse_get counts cell in
    let w1 := Fin (cascade_photons h) in
    let scl := fadd w0 w1 in
    let zero_weights := match scl with Fin s => Reqb s 0 | _ => false end in
    if zero_weights then None
    else
      let avg := fdiv (fadd (fmul (sparse_get corr_len cell) w0) (fmul (Fin (1 / 2)) w1)) scl in
      Some (sparse_add counts cell w1, sparse_set corr_len cell avg)
  end.

Record Matrices := {
  photon_counts : Sparse; photon_corr_theta : Sparse;
  photon_corr_phi : Sparse; photon_corr_len : Sparse }.

Definition compute_matrices (h : Hypo) (b : Binning) (hit_dom_coord : TimeSpaceCoord)
  : option Matrices :=
  let tr := set_origin (track h) hit_dom_coord in
  match track_loop h b hit_dom_coord with
  | None => None
  | Some counts =>
    let '(ct, cp, cl) := add_angles h b counts in
    match add_cascade h tr b counts cl with
    | None => None
    | Some (counts', cl') =>
      Some {| photon_counts := counts'; photon_corr_theta := ct;
              photon_corr_phi := cp; photon_corr_len := cl' |}
    end
  end.

End HypoFast.

(** * retro/tables/pexp_5d.py *)
Module Pexp5d.

Definition MACHINE_EPS : R := / 10 ^ 16.

(** Python's [x ** a] for [x >= 0] and [a > 0]. *)
Definition rpow (x a : R) : R := if Reqb x 0 then 0 else Rpower x a.

Inductive TableKind := raw_uncompr | raw_templ_compr | ckv_uncompr | ckv_templ_compr.

(** The binning metadata of a table read by [generate_pexp_5d_function]:
    the extremes and counts of its edge arrays, and the radial power
    ([infer_power], outside the source files).  The minimum radius and
    time are [0] (asserted there). *)
Record TableBinning := {
  tb_r_max : R; tb_r_power : R; tb_n_r_bins : Z;
  tb_n_costheta_bins : Z;
  tb_t_max : R; tb_n_t_bins : Z;
  tb_n_costhetadir_bins : Z; tb_n_deltaphidir_bins : Z }.

(** The constants [generate_pexp_5d_function] closes [pexp_5d] over. *)
Record Config := {
  tbl_is_raw : bool; tbl_is_ckv : bool; tbl_is_templ_compr : bool;
  compute_t_indep_exp : bool;
  num_phi_samples : Z; ckv_sigma_deg : R;
  rsquared_max : R; inv_r_power : R; table_dr_pwr : R; n_r_bins : Z;
  n_costheta_bins : Z; table_dcostheta : R;
  t_max : R; table_dt : R;
  n_costhetadir_bins : Z; table_dcosthetadir : R; last_costhetadir_bin_idx : Z;
  n_deltaphidir_bins : Z; table_dphidir : R; last_deltaphidir_bin_idx : Z }.

Definition generate_config (kind : TableKind) (tbl : TableBinning)
  (compute_t_indep : bool) (nphi : Z) (sigma : R) : Config :=
  let r_min := 0 in
  let t_min := 0 in
  let inv := 1 / tb_r_power tbl in
  {| tbl_is_raw := match kind with raw_uncompr | raw_templ_compr => true | _ => false end;
     tbl_is_ckv := match kind with ckv_uncompr | ckv_templ_compr => true | _ => false end;
     tbl_is_templ_compr :=
       match kind with raw_templ_compr | ckv_templ_compr => true | _ => false end;
     compute_t_indep_exp := compute_t_indep;
     num_phi_samples := nphi; ckv_sigma_deg := sigma;
     rsquared_max := tb_r_max tbl * tb_r_max tbl;
     inv_r_power := inv;
     table_dr_pwr := rpow (tb_r_max tbl - r_min) inv / IZR (tb_n_r_bins tbl);
     n_r_bins := tb_n_r_bins tbl;
     n_costheta_bins := tb_n_costheta_bins tbl;
     table_dcostheta := 2 / IZR (tb_n_costheta_bins tbl);
     t_max := tb_t_max tbl;
     table_dt := (tb_t_max tbl - t_min) / IZR (tb_n_t_bins tbl);
     n_costhetadir_bins := tb_n_costhetadir_bins tbl;
     table_dcosthetadir := 2 / IZR (tb_n_costhetadir_bins tbl);
     last_costhetadir_bin_idx := (tb_n_costhetadir_bins tbl - 1)%Z;
     n_deltaphidir_bins := tb_n_deltaphidir_bins tbl;
     table_dphidir := PI / IZR (tb_n_deltaphidir_bins tbl);
     last_deltaphidir_bin_idx := (tb_n_deltaphidir_bins tbl - 1)%Z |}.

(** Source kinds of [SRC_DTYPE]; any other code is [SRC_OTHER]. *)
Inductive SrcKind := SRC_OMNI | SRC_CKV_BETA1 | SRC_OTHER (code : Z).

Record Source := {
  s_x : R; s_y : R; s_z : R; s_t : R; s_photons : R; s_kind : SrcKind;
  dir_costheta : R; dir_sintheta : R; dir_cosphi : R; dir_sinphi : R;
  ckv_theta : R; ckv_costheta : R; ckv_sintheta : R }.

Record DomInfo := {
  operational : bool; d_x : R; d_y : R; d_z : R;
  quantum_efficiency : R; noise_rate_per_ns : R }.

(** The time-dependent table: uncompressed 5D cells, or template-compressed
    cells [(index, weight)] into the template library. *)
Inductive TableCells :=
| Uncompr (cells : Z -> Z -> Z -> Z -> Z -> F)
| TemplCompr (cells : Z -> Z -> Z -> Z * F).

Record TableData := {
  table : TableCells;
  table_norm : Z -> Z -> F;
  t_indep_table : Z -> Z -> Z -> Z -> F;
  t_indep_table_norm : Z -> F }.

Inductive exn := ValueError | NotImplementedError | ZeroDivisionError | UnboundLocalError.

Inductive result (A : Type) := Ok (a : A) | Err (e : exn).
Arguments Ok {A} a.
Arguments Err {A} e.

Definition zrange (n : Z) : list Z := map Z.of_nat (seq 0 (Z.to_nat n)).

(** [np.mean] of a 2D slice [n1 x n2]. *)
Definition mean2 (n1 n2 : Z) (f : Z -> Z -> F) : F :=
  fdiv (fold_left (fun acc i => fold_left (fun acc j => fadd acc (f i j)) (zrange n2) acc)
                  (zrange n1) (Fin 0))
       (Fin (IZR (n1 * n2))).

Section Pexp.
Variable cfg : Config.
(** [template_library], shape [(n_templates, n_costhetadir, n_deltaphidir)]. *)
Variable template_library : Z -> Z -> Z -> F.
(** [survival_prob_from_cone] and [survival_prob_from_smeared_cone] of
    [retro.utils.ckv] (outside the source files), first result only. *)
Variable survival_prob_from_cone :
  R -> R -> Z -> R -> R -> R -> R -> (Z -> Z -> F) -> Z -> Z -> F.
Variable survival_prob_from_smeared_cone :
  R -> Z -> R -> R -> R -> R -> (Z -> Z -> F) -> Z -> Z -> F.

Definition table_lookup_mean (tab : TableCells) (r c t : Z) : F :=
  match tab with
  | TemplCompr cells =>
      let '(_, w) := cells r c t in
      fdiv w (Fin (IZR (n_costhetadir_bins cfg * n_deltaphidir_bins cfg)))
  | Uncompr cells => mean2 (n_costhetadir_bins cfg) (n_deltaphidir_bins cfg) (cells r c t)
  end.

Definition table_lookup (tab : TableCells) (r c t cd dp : Z) : F :=
  match tab with
  | TemplCompr cells => let '(idx, w) := cells r c t in fmul w (template_library idx cd dp)
  | Uncompr cells => cells r c t cd dp
  end.

(** Radial rejection: [None] is the [continue]; otherwise
    [(dx, dy, dz, rhosquared, r)]. *)
Definition geometry (dom : DomInfo) (s : Source) : option (R * R * R * R * R) :=
  let dx := d_x dom - s_x s in
  let dy := d_y dom - s_y s in
  let dz := d_z dom - s_z s in
  let rhosquared := dx * dx + dy * dy in
  let rsquared := rhosquared + dz * dz in
  if Rleb (rsquared_max cfg) rsquared then None
  else Some (dx, dy, dz, rhosquared, sqrt rsquared).

Definition r_bin_index (r : R) : Z := pyint (rpow r (inv_r_power cfg) / table_dr_pwr cfg).

Definition costheta_bin_index (dz r : R) : Z := pyint ((1 - dz / r) / table_dcostheta cfg).

(** Cherenkov-table direction bins, upper edges made inclusive. *)
Definition costhetadir_bin_index (pdir_costheta : R) : Z :=
  let i := pyint ((pdir_costheta + 1) / table_dcosthetadir cfg) in
  if (last_costhetadir_bin_idx cfg <? i)%Z then last_costhetadir_bin_idx cfg else i.

Definition deltaphidir_bin_index (pdir_cosdeltaphi : R) : Z :=
  let pdir_deltaphi := Rabs (acos pdir_cosdeltaphi) in
  let i := pyint (pdir_deltaphi / table_dphidir cfg) in
  if (last_deltaphidir_bin_idx cfg <? i)%Z then last_deltaphidir_bin_idx cfg else i.

Definition feq0 (x : F) : bool := match x with Fin a => Reqb a 0 | _ => false end.

(** The branch on the source kind: the time-integrated survival probability
    (when assigned) and the direction bins (assigned on Cherenkov tables). *)
Definition kind_branch (tabs : TableData) (s : Source) (dx dy rhosquared : R)
  (r_bin_idx costheta_bin_idx : Z) : result (option F * option (Z * Z)) :=
  match s_kind s with
  | SRC_OMNI =>
    if compute_t_indep_exp cfg then
      Ok (Some (mean2 (n_costhetadir_bins cfg) (n_deltaphidir_bins cfg)
                      (t_indep_table tabs r_bin_idx costheta_bin_idx)), None)
    else Err NotImplementedError
  | SRC_CKV_BETA1 =>
    let pdir_costheta := dir_costheta s in
    let rho := sqrt rhosquared in
    let '(pdir_cosdeltaphi, pdir_sindeltaphi) :=
      if Rleb rho MACHINE_EPS then (1, 0)
      else
        let c := dir_cosphi s * dx / rho + dir_sinphi s * dy / rho in
        let c := Rmin 1 (Rmax (-1) c) in
        (c, sqrt (1 - c * c)) in
    if tbl_is_raw cfg then
      let slice := t_indep_table tabs r_bin_idx costheta_bin_idx in
      if negb (compute_t_indep_exp cfg) then Ok (None, None)
      else if Rltb 0 (ckv_sigma_deg cfg) then
        Ok (Some (survival_prob_from_smeared_cone (ckv_theta s) (num_phi_samples cfg)
                   pdir_costheta (dir_sintheta s) pdir_cosdeltaphi pdir_sindeltaphi slice
                   (n_costhetadir_bins cfg) (n_deltaphidir_bins cfg)), None)
      else
        Ok (Some (survival_prob_from_cone (ckv_costheta s) (ckv_sintheta s)
                   (num_phi_samples cfg) pdir_costheta (dir_sintheta s)
                   pdir_cosdeltaphi pdir_sindeltaphi slice
                   (n_costhetadir_bins cfg) (n_deltaphidir_bins cfg)), None)
    else
      let cd := costhetadir_bin_index pdir_costheta in
      let dp := deltaphidir_bin_index pdir_cosdeltaphi in
      let p := t_indep_table tabs r_bin_idx costheta_bin_idx cd dp in
      if feq0 p then Err ValueError else Ok (Some p, Some (cd, dp))
  | SRC_OTHER _ => Err NotImplementedError
  end.

(** One iteration of the loop over the hit times. *)
Definition hit_step (tabs : TableData) (s : Source) (r_bin_idx costheta_bin_idx : Z)
  (dirbins : option (Z * Z)) (hit : F * F) (e : F) : result F :=
  let hit_time := fst hit in
  let source_t := Fin (s_t s) in
  if negb (fle source_t hit_time) then Ok e
  else
    let dtv := fsub hit_time source_t in
    if fge dtv (Fin (t_max cfg)) then Ok e
    else
      let t_bin_idx := pyintF (fdiv dtv (Fin (table_dt cfg))) in
      let r_t_bin_norm := table_norm tabs r_bin_idx t_bin_idx in
      let contrib p := Ok (fadd e (fmul (fmul (Fin (s_photons s)) r_t_bin_norm) p)) in
      match s_kind s with
      | SRC_OMNI => contrib (table_lookup_mean (table tabs) r_bin_idx costheta_bin_idx t_bin_idx)
      | SRC_CKV_BETA1 =>
        match dirbins with
        | Some (cd, dp) =>
            contrib (table_lookup (table tabs) r_bin_idx costheta_bin_idx t_bin_idx cd dp)
        | None => Err UnboundLocalError
        end
      | SRC_OTHER _ => Err NotImplementedError
      end.

Fixpoint hits_loop (tabs : TableData) (s : Source) (r_bin_idx costheta_bin_idx : Z)
  (dirbins : option (Z * Z)) (hits : list (F * F)) (acc : list F) : result (list F) :=
  match hits, acc with
  | h :: hs, e :: es =>
    match hit_step tabs s r_bin_idx costheta_bin_idx dirbins h e with
    | Err x => Err x
    | Ok e' =>
      match hits_loop tabs s r_bin_idx costheta_bin_idx dirbins hs es with
      | Err x => Err x
      | Ok es' => Ok (e' :: es')
      end
    end
  | _, _ => Ok acc
  end.

(** The body of [for source in sources]. *)
Definition source_step (tabs : TableData) (dom : DomInfo) (hits : list (F * F))
  (s : Source) (acc : F * list F) : result (F * list F) :=
  let (exp_p_at_all_times, exp_p_at_hit_times) := acc in
  match geometry dom s with
  | None => Ok acc
  | Some (dx, dy, dz, rhosquared, r) =>
    let r_bin_idx := r_bin_index r in
    if Reqb r 0 then Err ZeroDivisionError
    else
    let costheta_bin_idx := costheta_bin_index dz r in
    match kind_branch tabs s dx dy rhosquared r_bin_idx costheta_bin_idx with
    | Err x => Err x
    | Ok (t_indep_surv_prob, dirbins) =>
      let source_photons := s_photons s in
      let all' :=
        if compute_t_indep_exp cfg then
          let ti_norm := t_indep_table_norm tabs r_bin_idx in
          if negb (fgt ti_norm (Fin 0)) then Err ValueError
          else
            match t_indep_surv_prob with
            | Some p => Ok (fadd exp_p_at_all_times (fmul (fmul (Fin source_photons) ti_norm) p))
            | None => Err UnboundLocalError
            end
        else Ok exp_p_at_all_times in
      match all' with
      | Err x => Err x
      | Ok a =>
        match hits_loop tabs s r_bin_idx costheta_bin_idx dirbins hits exp_p_at_hit_times with
        | Err x => Err x
        | Ok hs => Ok (a, hs)
        end
      end
    end
  end.

Fixpoint sources_loop (tabs : TableData) (dom : DomInfo) (hits : list (F * F))
  (sources : list Source) (acc : F * list F) : result (F * list F) :=
  match sources with
  | [] => Ok acc
  | s :: ss =>
    match source_step tabs dom hits s acc with
    | Err x => Err x
    | Ok acc' => sources_loop tabs dom hits ss acc'
    end
  end.

(** [sum_log_at_hit_times]. *)
Definition sum_log (dom : DomInfo) (exp_p_at_hit_times : list F) (hits : list (F * F)) : F :=
  fold_left (fun acc p =>
    let '(ep_at_ht, hit) := p in
    fadd acc (fmul (snd hit)
                   (flog (fadd (fmul (Fin (quantum_efficiency dom)) ep_at_ht)
                               (Fin (noise_rate_per_ns dom))))))
    (combine exp_p_at_hit_times hits) (Fin 0).

(** [pexp_5d(sources, hits, dom_info, time_window, table, table_norm,
    t_indep_table, t_indep_table_norm)]; [hits] lists the columns
    [(hits[0, i], hits[1, i])]. *)
Definition pexp_5d (sources : list Source) (hits : list (F * F)) (dom : DomInfo)
  (time_window : R) (tabs : TableData) : result (F * F) :=
  if negb (operational dom) then Ok (Fin 0, Fin 0)
  else
    match sources_loop tabs dom hits sources (Fin 0, repeat (Fin 0) (List.length hits)) with
    | Err x => Err x
    | Ok (exp_p_at_all_times, exp_p_at_hit_times) =>
      let s := sum_log dom exp_p_at_hit_times hits in
      let all := fadd (fmul exp_p_at_all_times (Fin (quantum_efficiency dom)))
                      (Fin (noise_rate_per_ns dom * time_window)) in
      if isinf s then Err ValueError else Ok (all, s)
    end.

End Pexp.

End Pexp5d.

(** * Auxiliary definitions for the statements *)

Module HypoFastSpec.
Import HypoFast.

(** Strictly increasing bin edges. *)
Fixpoint increasing (l : list R) : Prop :=
  match l with
  | a :: ((b :: _) as l') => a < b /\ increasing l'
  | _ => True
  end.

Fixpoint enum_from {A : Type} (i : nat) (l : list A) : list (nat * A) :=
  match l with
  | [] => []
  | a :: l' => (i, a) :: enum_from (S i) l'
  end.

(** The (cell, r, theta, phi) combinations [inner_loop] intersects, in its
    loop order: the azimuth bins, then the theta bins of the "neg" and the
    "pos" branch, then the radius bins of the "neg" and the "pos" branch;
    an interval passing the [no_overlap] test is skipped with all the
    combinations below it. *)
Definition combos (k : nat) (phi_inter theta_inter_neg theta_inter_pos
  r_inter_neg r_inter_pos : list interval) : list (key * interval * interval * interval) :=
  let rs i m phi theta (r_inter : list interval) :=
    flat_map (fun jr : nat * interval =>
      if no_overlap (snd jr) then [] else [((k, fst jr, m, i), snd jr, theta, phi)])
      (enum_from 0 r_inter) in
  let ths i phi (theta_inter : list interval) :=
    flat_map (fun mt : nat * interval =>
      if no_overlap (snd mt) then []
      else rs i (fst mt) phi (snd mt) r_inter_neg ++ rs i (fst mt) phi (snd mt) r_inter_pos)
      (enum_from 0 theta_inter) in
  flat_map (fun ip : nat * interval =>
    if no_overlap (snd ip) then []
    else ths (fst ip) (snd ip) theta_inter_neg ++ ths (fst ip) (snd ip) theta_inter_pos)
    (enum_from 0 phi_inter).

(** A track of length 2 along +x through the point (-1, 0, 0), so that its
    horizontal projection passes through the vertical axis of the DOM at the
    origin. *)
Definition axis_crossing_params : TrackParams :=
  {| tp_t := 0; tp_x := -1; tp_y := 0; tp_z := 0;
     tp_zenith := PI_BY_TWO; tp_azimuth := 0; tp_energy := 2 / TRACK_M_PER_GEV |}.

Definition axis_crossing_track : Track := mk_track axis_crossing_params origin0.

(** A track-only hypothesis: a 1 m track (11/50 GeV) starting at t = 1 ns
    at the DOM position, heading straight up, no cascade energy. *)
Definition upgoing_params : HypoParams :=
  {| hp_t := 1; hp_x := 0; hp_y := 0; hp_z := 0;
     hp_track_zenith := 0; hp_track_azimuth := 0;
     hp_track_energy := 11 / 50; hp_cascade_energy := 0 |}.

Definition upgoing_hypo : Hypo := mk_hypo upgoing_params 1 1.

(** One bin per axis, covering the track: t in [0, 10], r in [0, 2],
    theta in [0, pi], phi in [0, 2 pi]. *)
Definition single_bins : Binning :=
  {| b_t := [0; 10]; b_r := [0; 2]; b_theta := [0; PI]; b_phi := [0; TWO_PI] |}.

(** The track of [upgoing_hypo] with its origin at the DOM (at the origin). *)
Definition upgoing_track : Track :=
  {| params := hypo_to_track_params upgoing_params;
     length := 1; dt := 1 / SPEED_OF_LIGHT_M_PER_NS;
     sinphi := 0; cosphi := 1; tanphi := 0; sintheta := 0; costheta := 1;
     origin := origin0; t0 := 1; x0 := 0; y0 := 0; z0 := 0 |}.

End HypoFastSpec.

Module Pexp5dSpec.
Import Pexp5d.

(** A Cherenkov table with radii [0, 10] in ten linear bins, two cos(theta)
    bins, times [0, 10] in ten bins and two bins on each direction axis. *)
Definition small_binning : TableBinning :=
  {| tb_r_max := 10; tb_r_power := 1; tb_n_r_bins := 10;
     tb_n_costheta_bins := 2; tb_t_max := 10; tb_n_t_bins := 10;
     tb_n_costhetadir_bins := 2; tb_n_deltaphidir_bins := 2 |}.

Definition small_cfg : Config := generate_config ckv_uncompr small_binning false 1 0.

Definition dom_at_origin : DomInfo :=
  {| operational := true; d_x := 0; d_y := 0; d_z := 0;
     quantum_efficiency := 1; noise_rate_per_ns := 0 |}.

(** A Cherenkov source one metre straight above the DOM: [dz / r = -1]. *)
Definition source_above : Source :=
  {| s_x := 0; s_y := 0; s_z := 1; s_t := 0; s_photons := 1; s_kind := SRC_CKV_BETA1;
     dir_costheta := 1; dir_sintheta := 0; dir_cosphi := 1; dir_sinphi := 0;
     ckv_theta := 0; ckv_costheta := 1; ckv_sintheta := 0 |}.

(** Tables whose every entry is 1, and placeholders for the functions
    [pexp_5d] closes over that the examples below never reach. *)
Definition ones_tables : TableData :=
  {| table := Uncompr (fun _ _ _ _ _ => Fin 1); table_norm := fun _ _ => Fin 1;
     t_indep_table := fun _ _ _ _ => Fin 1; t_indep_table_norm := fun _ => Fin 1 |}.

Definition no_templates : Z -> Z -> Z -> F := fun _ _ _ => Fin 0.
Definition no_cone : R -> R -> Z -> R -> R -> R -> R -> (Z -> Z -> F) -> Z -> Z -> F :=
  fun _ _ _ _ _ _ _ _ _ _ => Fin 0.
Definition no_smeared_cone : R -> Z -> R -> R -> R -> R -> (Z -> Z -> F) -> Z -> Z -> F :=
  fun _ _ _ _ _ _ _ _ _ => Fin 0.

(** The hit-loop [continue]s: the source is emitted after the hit time
    (also when the hit time is NaN), or the elapsed time is at least the
    table's time coverage. *)
Definition hit_skipped (cfg : Config) (s : Source) (hit : F * F) : Prop :=
  negb (fle (Fin (s_t s)) (fst hit)) = true
  \/ fge (fsub (fst hit) (Fin (s_t s))) (Fin (t_max cfg)) = true.

(** [small_cfg] with the time-independent expectation switched on, and
    tables whose time-independent normalisation is 0 everywhere. *)
Definition small_cfg_t_indep : Config := generate_config ckv_uncompr small_binning true 1 0.

Definition zero_norm_tables : TableData :=
  {| table := Uncompr (fun _ _ _ _ _ => Fin 1); table_norm := fun _ _ => Fin 1;
     t_indep_table := fun _ _ _ _ => Fin 1; t_indep_table_norm := fun _ => Fin 0 |}.

End Pexp5dSpec.

Module HypoFastExtraSpec.
Import HypoFast.

(** The position on the track's line at track parameter [rho] (distance
    from the start along the direction), in the DOM-relative frame. *)
Definition at_rho (tr : Track) (rho : R) : R * R * R :=
  (x0 tr + rho * sintheta tr * cosphi tr,
   y0 tr + rho * sintheta tr * sinphi tr,
   z0 tr + rho * costheta tr).

(** A track of [Hypo]: built by [Track.__init__], then displaced by
    [set_origin]. *)
Definition hypo_track (p : TrackParams) (c0 c : TimeSpaceCoord) : Track :=
  set_origin (mk_track p c0) c.

(** A 4D cell index [(t, r, theta, phi)] within [Hypo.shape], the number
    of bins along each axis of the binning. *)
Definition in_shape (b : Binning) (kk : key) : Prop :=
  let '(k, j, m, i) := kk in
  (S k < List.length (b_t b))%nat /\ (S j < List.length (b_r b))%nat /\
  (S m < List.length (b_theta b))%nat /\ (S i < List.length (b_phi b))%nat.

(** Every populated cell of a sparse matrix lies within the binning. *)
Definition cells_in_shape (b : Binning) (z : Sparse) : Prop :=
  Forall (fun e => in_shape b (fst e)) z.

(** [x0 sin(theta) cos(phi) + y0 sin(phi) sin(theta) + z0 cos(theta)]: the
    parameter of the start's projection on the direction, negated. *)
Definition proj0 (tr : Track) : R :=
  x0 tr * sintheta tr * cosphi tr + y0 tr * sinphi tr * sintheta tr + z0 tr * costheta tr.

End HypoFastExtraSpec.

Module Pexp5dExtraSpec.
Import Pexp5d.

(** Table metadata for which the bin widths of [generate_pexp_5d_function]
    are positive: positive maximum radius, radial power and time coverage,
    and at least one radius and one time bin. *)
Definition sane_binning (tbl : TableBinning) : Prop :=
  0 < tb_r_max tbl /\ 0 < tb_r_power tbl /\ (1 <= tb_n_r_bins tbl)%Z /\
  0 < tb_t_max tbl /\ (1 <= tb_n_t_bins tbl)%Z.

(** Two sets of tables with the same time-dependent and time-independent
    tables, whose normalisations [table_norm] (shape [(n_r, n_t)]) and
    [t_indep_table_norm] (shape [(n_r,)]) agree on every in-range index. *)
Definition norms_agree_in_range (tbl : TableBinning) (tabs tabs' : TableData) : Prop :=
  table tabs = table tabs' /\ t_indep_table tabs = t_indep_table tabs' /\
  (forall i, (0 <= i <= tb_n_r_bins tbl - 1)%Z ->
     t_indep_table_norm tabs i = t_indep_table_norm tabs' i) /\
  (forall i j, (0 <= i <= tb_n_r_bins tbl - 1)%Z -> (0 <= j <= tb_n_t_bins tbl - 1)%Z ->
     table_norm tabs i j = table_norm tabs' i j).

(** Whether a source passes the radial test of [pexp_5d]
    ([rsquared < rsquared_max]). *)
Definition in_radial_range (cfg : Config) (dom : DomInfo) (s : Source) : bool :=
  match geometry cfg dom s with Some _ => true | None => false end.

(** [ones_tables] with NaN normalisations outside the radius and time bins
    of [small_binning]. *)
Definition ones_tables_nan_outside : TableData :=
  {| table := Uncompr (fun _ _ _ _ _ => Fin 1);
     table_norm := fun i j =>
       if (0 <=? i)%Z && (i <=? 9)%Z && (0 <=? j)%Z && (j <=? 9)%Z then Fin 1 else NaN;
     t_indep_table := fun _ _ _ _ => Fin 1;
     t_indep_table_norm := fun i => if (0 <=? i)%Z && (i <=? 9)%Z then Fin 1 else NaN |}.

(** A DOM at the origin with noise rate 1/2 per ns. *)
Definition noisy_dom : DomInfo :=
  {| operational := true; d_x := 0; d_y := 0; d_z := 0;
     quantum_efficiency := 1; noise_rate_per_ns := 1 / 2 |}.

(** A source 100 m from the DOM, of an unknown kind. *)
Definition far_source : Source :=
  {| s_x := 100; s_y := 0; s_z := 0; s_t := 0; s_photons := 1; s_kind := SRC_OTHER 7;
     dir_costheta := 1; dir_sintheta := 0; dir_cosphi := 1; dir_sinphi := 0;
     ckv_theta := 0; ckv_costheta := 1; ckv_sintheta := 0 |}.

(** [source_above] with an unknown source kind. *)
Definition other_source_above : Source :=
  {| s_x := 0; s_y := 0; s_z := 1; s_t := 0; s_photons := 1; s_kind := SRC_OTHER 7;
     dir_costheta := 1; dir_sintheta := 0; dir_cosphi := 1; dir_sinphi := 0;
     ckv_theta := 0; ckv_costheta := 1; ckv_sintheta := 0 |}.

(** A one-cell template-compressed table: weight 3 on template 0. *)
Definition weight3_cells : Z -> Z -> Z -> Z * F := fun _ _ _ => (0%Z, Fin 3).

(** A library whose templates are uniform over 2 x 2 direction bins. *)
Definition uniform_templates : Z -> Z -> Z -> F := fun _ _ _ => Fin (1 / 4).

End Pexp5dExtraSpec.

(** * Proofs *)

(** ** Reasoning about the decidable comparisons *)

Ltac rdec :=
  repeat match goal with
  | |- context [Rlt_dec ?a ?b] => destruct (Rlt_dec a b)
  | |- context [Rle_dec ?a ?b] => destruct (Rle_dec a b)
  | |- context [Req_dec_T ?a ?b] => destruct (Req_dec_T a b)
  end.

Lemma Rltb_true (a b : R) : a < b -> Rltb a b = true.
Proof. unfold Rltb; rdec; auto; lra. Qed.
Lemma Rltb_false (a b : R) : b <= a -> Rltb a b = false.
Proof. unfold Rltb; rdec; auto; lra. Qed.
Lemma Rleb_true (a b : R) : a <= b -> Rleb a b = true.
Proof. unfold Rleb; rdec; auto; lra. Qed.
Lemma Rleb_false (a b : R) : b < a -> Rleb a b = false.
Proof. unfold Rleb; rdec; auto; lra. Qed.
Lemma Reqb_true (a b : R) : a = b -> Reqb a b = true.
Proof. unfold Reqb; rdec; auto; lra. Qed.
Lemma Reqb_false (a b : R) : a <> b -> Reqb a b = false.
Proof. unfold Reqb; rdec; auto; lra. Qed.

Lemma Rltb_iff (a b : R) : Rltb a b = true <-> a < b.
Proof. unfold Rltb; rdec; split; intros; auto; try lra; discriminate. Qed.
Lemma Rleb_iff (a b : R) : Rleb a b = true <-> a <= b.
Proof. unfold Rleb; rdec; split; intros; auto; try lra; discriminate. Qed.
Lemma Rltb_false_inv (a b : R) : Rltb a b = false -> b <= a.
Proof. unfold Rltb; rdec; intros; [discriminate | lra]. Qed.

Lemma Rleb_false_inv (a b : R) : Rleb a b = false -> b < a.
Proof. unfold Rleb; rdec; intros; [discriminate | lra]. Qed.

Module HypoFastProofs.
Import HypoFast HypoFastSpec.

(** ** Track.extent and Track.point *)

(** Claim C8: [Track.extent(t_low, t_high)] is the overlap
    [(max(t_low, t0), min(t_high, t0 + dt))] exactly when
    [t0 + dt >= t_low] and [t_high >= t0], and "no overlap" otherwise. *)
Theorem extent_overlap (tr : Track) (t_low t_high : R) :
  (forall a b, extent tr t_low t_high = Some (a, b) <->
     (t_low <= t0 tr + dt tr /\ t0 tr <= t_high /\
      a = Rmax t_low (t0 tr) /\ b = Rmin t_high (t0 tr + dt tr)))
  /\ (extent tr t_low t_high = None <-> ~ (t_low <= t0 tr + dt tr /\ t0 tr <= t_high)).
Proof.
  unfold extent, Rleb; split.
  - intros a b; rdec; simpl; split; intros H.
    all: try (inversion H; subst; repeat split; auto; lra).
    all: try discriminate.
    all: try (destruct H as (? & ? & ? & ?); subst; auto).
    all: lra.
  - rdec; simpl; split; intros H; try discriminate; try reflexivity; try lra.
    all: exfalso; apply H; split; auto.
Qed.

(** Claim C9: [Track.point(t)] fails its assertion exactly when [t] lies
    outside [[t0, t0 + dt]]; inside, it is the start displaced by the speed
    of light times [t - t0] along the track direction. *)
Theorem point_domain (tr : Track) (t : R) :
  (point tr t = None <-> (t < t0 tr \/ t0 tr + dt tr < t))
  /\ (forall p, point tr t = Some p <->
       (t0 tr <= t <= t0 tr + dt tr /\
        p = (x0 tr + SPEED_OF_LIGHT_M_PER_NS * (t - t0 tr) * sintheta tr * cosphi tr,
             y0 tr + SPEED_OF_LIGHT_M_PER_NS * (t - t0 tr) * sintheta tr * sinphi tr,
             z0 tr + SPEED_OF_LIGHT_M_PER_NS * (t - t0 tr) * costheta tr))).
Proof.
  unfold point, Rleb; split.
  - rdec; simpl; split; intros H; try discriminate; try reflexivity; lra.
  - intros p; rdec; simpl; split; intros H; try discriminate.
    all: try (inversion H; subst; split; [lra | reflexivity]).
    all: try (destruct H as [? ->]; reflexivity).
    all: lra.
Qed.

(** ** Hypo.get_bin *)


Lemma increasing_tail (a : R) (l : list R) : increasing (a :: l) -> increasing l.
Proof. destruct l as [|b l]; simpl; tauto. Qed.

Lemma increasing_nth_ge (l : list R) :
  increasing l -> forall i, (i < List.length l)%nat -> nth 0 l 0 <= nth i l 0.
Proof.
  induction l as [|a l IH]; intros Hinc i Hi; simpl in *; [lia|].
  destruct i as [|i]; [lra|].
  destruct l as [|b l]; simpl in *; [lia|].
  destruct Hinc as [Hab Hinc].
  specialize (IH Hinc i ltac:(lia)); simpl in IH; lra.
Qed.

Lemma increasing_last_ge (a : R) (l : list R) : increasing (a :: l) -> a <= last (a :: l) 0.
Proof.
  revert a; induction l as [|b l IH]; intros a Hinc; simpl; [lra|].
  destruct Hinc as [Hab Hinc]; specialize (IH b Hinc); simpl in IH.
  destruct l; lra.
Qed.

Lemma get_bin_from_some (l : list R) (k0 k : nat) (val : R) :
  increasing l ->
  (get_bin_from k0 val l = Some k <->
   (k0 <= k)%nat /\ (S (k - k0) < List.length l)%nat /\
   nth (k - k0) l 0 <= val < nth (S (k - k0)) l 0).
Proof.
  revert k0; induction l as [|a l IH]; intros k0 Hinc.
  - simpl; split; [discriminate | lia].
  - destruct l as [|b l'].
    + simpl; split; [discriminate | lia].
    + cbn [get_bin_from]. destruct Hinc as [Hab Hinc].
      destruct (Rleb a val && Rltb val b) eqn:E.
      * apply andb_true_iff in E as [E1 E2].
        apply Rleb_iff in E1; apply Rltb_iff in E2.
        split.
        -- intros H; inversion H; subst. rewrite Nat.sub_diag; simpl; repeat split; auto; lia.
        -- intros (Hk & Hlen & Hlo & Hhi). destruct (k - k0)%nat as [|d] eqn:Ed.
           ++ f_equal; lia.
           ++ exfalso. pose proof (increasing_nth_ge (b :: l') Hinc d) as Hg.
              simpl in Hlen, Hlo, Hg. specialize (Hg ltac:(lia)). lra.
      * rewrite (IH (S k0) Hinc). split.
        -- intros (Hk & Hlen & Hlo & Hhi).
           replace (k - k0)%nat with (S (k - S k0)) by lia. simpl in *.
           repeat split; auto; lia.
        -- intros (Hk & Hlen & Hlo & Hhi). destruct (k - k0)%nat as [|d] eqn:Ed.
           ++ simpl in Hlo, Hhi. rewrite (proj2 (Rleb_iff a val) Hlo), (proj2 (Rltb_iff val b) Hhi) in E.
              discriminate.
           ++ replace (k - S k0)%nat with d by lia. simpl in *. repeat split; auto; lia.
Qed.

Lemma get_bin_from_none (l : list R) (k0 : nat) (val : R) :
  increasing l ->
  (get_bin_from k0 val l = None <-> (l = [] \/ val < hd 0 l \/ last l 0 <= val)).
Proof.
  revert k0; induction l as [|a l IH]; intros k0 Hinc.
  - simpl; split; auto.
  - destruct l as [|b l'].
    + simpl; split; intros _; [|reflexivity]. destruct (Rlt_dec val a); [auto | right; right; lra].
    + cbn [get_bin_from hd]. pose proof (increasing_last_ge b l' (increasing_tail _ _ Hinc)) as Hlast.
      destruct Hinc as [Hab Hinc].
      replace (last (a :: b :: l') 0) with (last (b :: l') 0) by reflexivity.
      destruct (Rleb a val && Rltb val b) eqn:E.
      * apply andb_true_iff in E as [E1 E2].
        apply Rleb_iff in E1; apply Rltb_iff in E2.
        split; [discriminate|]. intros [H|[H|H]]; [discriminate | lra | lra].
      * rewrite (IH (S k0) Hinc). simpl.
        assert (Hn : ~ (a <= val /\ val < b)).
        { intros [H1 H2]. rewrite (proj2 (Rleb_iff _ _) H1), (proj2 (Rltb_iff _ _) H2) in E.
          discriminate. }
        split.
        -- intros [H|[H|H]]; [discriminate | | auto].
           destruct (Rlt_dec val a); [auto|]. exfalso; apply Hn; lra.
        -- intros [H|[H|H]]; [discriminate | right; left; lra | auto].
Qed.

(** Claim C7: on strictly increasing edges, [get_bin] returns [k] exactly
    when [edges[k] <= val < edges[k+1]], and "outside" exactly when [val] is
    below the first edge or at or above the last one; when one of the four
    lookups of the cascade point is outside, the cascade adds no photon
    count: the counts of [compute_matrices] are those of the track loop. *)
Theorem get_bin_spec (edges : list R) (val : R) (Hinc : increasing edges) :
  (forall k, get_bin val edges = Some k <->
     (S k < List.length edges)%nat /\ nth k edges 0 <= val < nth (S k) edges 0)
  /\ (get_bin val edges = None <-> (edges = [] \/ val < hd 0 edges \/ last edges 0 <= val))
  /\ (forall h b coord,
        let tr := set_origin (track h) coord in
        let p := (x0 tr, y0 tr, z0 tr) in
        get_bin (t0 tr) (b_t b) = None \/ get_bin (cr p) (b_r b) = None \/
        get_bin (ctheta p) (b_theta b) = None \/ get_bin (cphi p) (b_phi b) = None ->
        option_map photon_counts (compute_matrices h b coord) = track_loop h b coord).
Proof.
  split; [|split].
  - intros k. unfold get_bin. rewrite get_bin_from_some by exact Hinc.
    rewrite Nat.sub_0_r. split; [tauto|]. intros [H1 H2]; split; [lia | split; auto].
  - unfold get_bin. apply get_bin_from_none; exact Hinc.
  - intros h b coord tr p Hnone.
    assert (Hc : cascade_bins tr b = None).
    { unfold cascade_bins. fold p.
      destruct Hnone as [H|[H|[H|H]]]; rewrite H;
        repeat match goal with |- context [match ?x with _ => _ end] => destruct x end;
        reflexivity. }
    unfold compute_matrices. fold tr.
    destruct (track_loop h b coord) as [counts|]; [|reflexivity].
    destruct (add_angles h b counts) as [[ct cp] cl].
    unfold add_cascade. rewrite Hc. reflexivity.
Qed.

Lemma get_bin_spec_witness :
  increasing [0; 1; 2] /\
  get_bin (1 / 2) [0; 1; 2] = Some 0%nat.
Proof.
  assert (Hinc : increasing [0; 1; 2]) by (simpl; repeat split; lra).
  split; [exact Hinc|].
  apply (proj1 (get_bin_spec [0; 1; 2] (1 / 2) Hinc) 0%nat).
  simpl; split; [lia | lra].
Defined.

(** ** inner_loop *)


Lemma fold_idx_enum {A B : Type} (f : nat -> A -> B -> B) (i : nat) (l : list A) (z : B) :
  fold_idx f i l z = fold_left (fun z p => f (fst p) (snd p) z) (enum_from i l) z.
Proof. revert i z; induction l as [|a l IH]; intros i z; simpl; auto. Qed.

Lemma fold_left_ext_mem {A B : Type} (f g : B -> A -> B) (l : list A) (z : B) :
  (forall a, In a l -> forall y, f y a = g y a) -> fold_left f l z = fold_left g l z.
Proof.
  revert z; induction l as [|a l IH]; intros z H; simpl; auto.
  rewrite H by (left; reflexivity). apply IH. intros; apply H; right; auto.
Qed.

Lemma fold_left_ext_acc {A B : Type} (f g : B -> A -> B) (l : list A) (z z' : B) :
  (forall a y, In a l -> f y a = g y a) -> z = z' -> fold_left f l z = fold_left g l z'.
Proof. intros H <-. apply fold_left_ext_mem. intros; apply H; auto. Qed.

Lemma fold_left_flat_map {A B C : Type} (g : C -> B -> C) (h : A -> list B) (l : list A) (z : C) :
  fold_left g (flat_map h l) z = fold_left (fun z x => fold_left g (h x) z) l z.
Proof. revert z; induction l as [|a l IH]; intros z; simpl; auto. rewrite fold_left_app; auto. Qed.


Lemma inner_loop_combos (z : Sparse) (k : nat) (phis thn thp rn rp : list interval) (ppm : R) :
  inner_loop z k phis thn thp rn rp ppm =
  fold_left (fun z c => let '(kk, r, theta, phi) := c in deposit z kk r theta phi ppm)
            (combos k phis thn thp rn rp) z.
Proof.
  unfold inner_loop, combos. rewrite fold_idx_enum, fold_left_flat_map.
  apply fold_left_ext_acc; [|reflexivity]. intros [i ph] z1 _; simpl.
  destruct (no_overlap ph); [reflexivity|].
  rewrite fold_left_app, !fold_idx_enum, !fold_left_flat_map.
  apply fold_left_ext_acc; [intros [m th] z2 _; simpl|apply fold_left_ext_acc; [intros [m th] z2 _; simpl|reflexivity]];
  (destruct (no_overlap th); [reflexivity|]);
  rewrite fold_left_app, !fold_idx_enum, !fold_left_flat_map;
  (apply fold_left_ext_acc; [intros [j r] z3 _; simpl; destruct (no_overlap r); reflexivity|]);
  (apply fold_left_ext_acc; [intros [j r] z3 _; simpl; destruct (no_overlap r); reflexivity|reflexivity]).
Qed.

Lemma pymax3_fin (a b c : R) : pymax3 (Fin a) (Fin b) (Fin c) = Fin (Rmax (Rmax a b) c).
Proof.
  unfold pymax3, fgt, flt, Rltb, Rmax; rdec; try reflexivity;
  repeat match goal with H : context [Rle_dec ?x ?y] |- _ => destruct (Rle_dec x y) end;
  first [exfalso; lra | f_equal; lra].
Qed.

Lemma pymin3_fin (a b c : R) : pymin3 (Fin a) (Fin b) (Fin c) = Fin (Rmin (Rmin a b) c).
Proof.
  unfold pymin3, flt, Rltb, Rmin; rdec; try reflexivity;
  repeat match goal with H : context [Rle_dec ?x ?y] |- _ => destruct (Rle_dec x y) end;
  first [exfalso; lra | f_equal; lra].
Qed.

Lemma deposit_fin z kk a1 b1 a2 b2 a3 b3 ppm :
  deposit z kk (Fin a1, Fin b1) (Fin a2, Fin b2) (Fin a3, Fin b3) ppm =
  if Rleb (Rmax (Rmax a1 a2) a3) (Rmin (Rmin b1 b2) b3)
  then sparse_add z kk (Fin ((Rmin (Rmin b1 b2) b3 - Rmax (Rmax a1 a2) a3) * ppm)) else z.
Proof. unfold deposit; simpl. rewrite pymax3_fin, pymin3_fin. reflexivity. Qed.

Lemma triple_intersection (a1 b1 a2 b2 a3 b3 : R) :
  Rmax (Rmax a1 a2) a3 <= Rmin (Rmin b1 b2) b3 <->
  exists x, a1 <= x <= b1 /\ a2 <= x <= b2 /\ a3 <= x <= b3.
Proof.
  split.
  - intros H. exists (Rmax (Rmax a1 a2) a3).
    pose proof (Rmax_l (Rmax a1 a2) a3); pose proof (Rmax_r (Rmax a1 a2) a3);
    pose proof (Rmax_l a1 a2); pose proof (Rmax_r a1 a2);
    pose proof (Rmin_l (Rmin b1 b2) b3); pose proof (Rmin_r (Rmin b1 b2) b3);
    pose proof (Rmin_l b1 b2); pose proof (Rmin_r b1 b2).
    repeat split; lra.
  - intros (x & H1 & H2 & H3).
    apply Rle_trans with x.
    + apply Rmax_lub; [apply Rmax_lub|]; lra.
    + apply Rmin_glb; [apply Rmin_glb|]; lra.
Qed.

(** Claim C2 (as amended): for three finite intervals, [A = max] of the
    lower ends is [<= B = min] of the upper ends iff the intervals have a
    common point; [inner_loop] performs exactly one [deposit] per
    (azimuth, theta-branch, radius-branch) combination none of whose three
    intervals has both ends negative (the "no overlap" test), in loop order;
    and such a deposit adds [(B - A) * photons_per_meter] to the combination's
    cell when [A <= B] and nothing otherwise. *)
Theorem inner_loop_intersection :
  (forall a1 b1 a2 b2 a3 b3 : R,
     fle (pymax3 (Fin a1) (Fin a2) (Fin a3)) (pymin3 (Fin b1) (Fin b2) (Fin b3)) = true <->
     exists x, a1 <= x <= b1 /\ a2 <= x <= b2 /\ a3 <= x <= b3)
  /\ (forall z k phis thn thp rn rp ppm,
        inner_loop z k phis thn thp rn rp ppm =
        fold_left (fun z c => let '(kk, r, theta, phi) := c in deposit z kk r theta phi ppm)
                  (combos k phis thn thp rn rp) z)
  /\ (forall k phis thn thp rn rp c, In c (combos k phis thn thp rn rp) ->
        let '(_, r, theta, phi) := c in
        no_overlap r = false /\ no_overlap theta = false /\ no_overlap phi = false)
  /\ (forall z kk a1 b1 a2 b2 a3 b3 ppm,
        let A := Rmax (Rmax a1 a2) a3 in
        let B := Rmin (Rmin b1 b2) b3 in
        deposit z kk (Fin a1, Fin b1) (Fin a2, Fin b2) (Fin a3, Fin b3) ppm =
        if Rleb A B then sparse_add z kk (Fin ((B - A) * ppm)) else z).
Proof.
  split; [|split; [|split]].
  - intros. rewrite pymax3_fin, pymin3_fin. simpl. rewrite Rleb_iff. apply triple_intersection.
  - apply inner_loop_combos.
  - intros k phis thn thp rn rp c Hc. unfold combos in Hc.
    apply in_flat_map in Hc as [[i ph] [_ Hc]]; simpl in Hc.
    destruct (no_overlap ph) eqn:Eph; [contradiction|].
    assert (Hr : forall i m th (rl : list interval),
      no_overlap th = false ->
      In c (flat_map (fun jr : nat * interval =>
        if no_overlap (snd jr) then [] else [((k, fst jr, m, i), snd jr, th, ph)])
        (enum_from 0 rl)) ->
      let '(_, r, theta, phi) := c in
      no_overlap r = false /\ no_overlap theta = false /\ no_overlap phi = false).
    { intros i0 m th rl Eth Hin. apply in_flat_map in Hin as [[j r] [_ Hin]]; simpl in Hin.
      destruct (no_overlap r) eqn:Er; [contradiction|].
      destruct Hin as [<-|[]]; auto. }
    apply in_app_or in Hc as [Hc|Hc];
      apply in_flat_map in Hc as [[m th] [_ Hc]]; simpl in Hc;
      (destruct (no_overlap th) eqn:Eth; [contradiction|]);
      apply in_app_or in Hc as [Hc|Hc]; eapply Hr; eauto.
  - intros. apply deposit_fin.
Qed.

(** Claim C2, counterexample: the three intervals (-2, -1) have the common
    point -1.5 and [A = -2 <= B = -1], yet [inner_loop] deposits nothing in
    their cell, since an interval with both ends negative is skipped as the
    "no overlap" sentinel before any intersection is taken. *)
Lemma inner_loop_negative_intervals_cex :
  let iv := (Fin (-2), Fin (-1)) in
  fle (pymax3 (fst iv) (fst iv) (fst iv)) (pymin3 (snd iv) (snd iv) (snd iv)) = true
  /\ (exists x, -2 <= x <= -1)
  /\ inner_loop [] 0 [iv] [iv] [] [iv] [] 1 = []
  /\ sparse_get (inner_loop [] 0 [iv] [iv] [] [iv] [] 1) (0, 0, 0, 0)%nat
     <> Fin ((-1 - -2) * 1).
Proof.
  simpl. rewrite pymax3_fin, pymin3_fin.
  assert (E : inner_loop [] 0 [(Fin (-2), Fin (-1))] [(Fin (-2), Fin (-1))] []
                [(Fin (-2), Fin (-1))] [] 1 = []).
  { unfold inner_loop, no_overlap; simpl.
    rewrite (Rltb_true (-2) 0), (Rltb_true (-1) 0) by lra. reflexivity. }
  rewrite E. simpl.
  split; [apply Rleb_true; unfold Rmax, Rmin; rdec; lra|].
  split; [exists (-1); lra|].
  split; [reflexivity|].
  unfold sparse_get; simpl. intros H; injection H; lra.
Qed.

(** ** Axis correlators *)

Lemma pairs_length (l : list R) : List.length (pairs l) = (List.length l - 1)%nat.
Proof.
  induction l as [|a l IH]; [reflexivity|].
  destruct l as [|b l]; [reflexivity|].
  change (pairs (a :: b :: l)) with ((a, b) :: pairs (b :: l)).
  cbn [List.length]. rewrite IH. cbn [List.length]. lia.
Qed.

Lemma axis_crossing_rho_of_phi (phi : R) :
  sin phi = 0 -> rho_of_phi axis_crossing_track phi = NaN.
Proof.
  intros Hs. unfold rho_of_phi, axis_crossing_track, mk_track, set_origin; simpl.
  rewrite Hs, sin_0, cos_0. rewrite Reqb_true by ring.
  rewrite Rltb_false by (apply Req_le; ring).
  rewrite Rltb_false by (apply Req_le; ring).
  reflexivity.
Qed.

(** Claim C3 (code bug): the correlators do return one interval per bin, but
    an interval need not be ordered nor the sentinel.  For the track
    [axis_crossing_track], whose horizontal projection passes through the
    DOM's vertical axis, [rho_of_phi] divides 0 by 0 at the azimuths 0 and
    pi, and [correlate_phi] on the single bin [0, 2 pi] with the track's
    azimuth extent (0, pi) returns the interval (NaN, NaN): its ends are not
    ordered ([<=] is false on NaN) and they are not the negative sentinel. *)
Theorem correlate_phi_nan_interval :
  (forall tr edges t rho_extent,
     List.length (correlate_theta tr edges t rho_extent) = (List.length edges - 1)%nat)
  /\ (forall tr edges t rho_extent,
     List.length (correlate_phi tr edges t rho_extent) = (List.length edges - 1)%nat)
  /\ (forall tr edges t pos,
     List.length (correlate_r tr edges t pos) = (List.length edges - 1)%nat)
  /\ correlate_phi axis_crossing_track [0; TWO_PI] (0, PI) (0, 2) = [(NaN, NaN)]
  /\ fle NaN NaN = false
  /\ flt NaN (Fin 0) = false.
Proof.
  split; [intros; unfold correlate_theta; rewrite length_map; apply pairs_length|].
  split; [intros tr edges [ta tz] rho; unfold correlate_phi; rewrite length_map; apply pairs_length|].
  split; [intros tr edges [ta tz] pos; unfold correlate_r; rewrite length_map; apply pairs_length|].
  split; [|split; reflexivity].
  unfold correlate_phi, TWO_PI; simpl pairs. cbn [map].
  pose proof PI_RGT_0 as Hpi. pose proof PI_4 as Hpi4.
  rewrite (Rltb_false (Rabs (0 - PI))).
  2: { rewrite Rabs_minus_sym, Rminus_0_r, Rabs_right by lra.
       assert (3 < PI) by (pose proof PI2_3_2; lra). lra. }
  rewrite andb_false_l.
  rewrite (Rleb_true 0 PI), (Rltb_true 0 (2 * PI)) by lra. simpl andb.
  cbv iota.
  rewrite !axis_crossing_rho_of_phi.
  - reflexivity.
  - unfold Rmin; rdec; [lra|apply sin_PI].
  - unfold Rmax; rdec; apply sin_0.
Qed.

(** ** Photon conservation *)

Lemma c_bounds : 1/4 < SPEED_OF_LIGHT_M_PER_NS < 1/3.
Proof. unfold SPEED_OF_LIGHT_M_PER_NS; lra. Qed.

Lemma upgoing_track_eq : set_origin (track upgoing_hypo) origin0 = upgoing_track.
Proof.
  unfold upgoing_hypo, mk_hypo, mk_track, set_origin, upgoing_track; simpl.
  rewrite sin_0, cos_0, tan_0.
  assert (E : 11 / 50 * TRACK_M_PER_GEV = 1) by (unfold TRACK_M_PER_GEV; field).
  rewrite E. f_equal; ring.
Qed.

Lemma upgoing_tb : tb upgoing_track = 1 / SPEED_OF_LIGHT_M_PER_NS.
Proof. unfold tb; simpl. field. unfold SPEED_OF_LIGHT_M_PER_NS; lra. Qed.

Lemma upgoing_ts : ts upgoing_track = Fin 1.
Proof. unfold ts; simpl. rewrite (Reqb_true 0 0) by reflexivity. reflexivity. Qed.

Lemma upgoing_point (t : R) : 1 <= t <= 1 + 1 / SPEED_OF_LIGHT_M_PER_NS ->
  point upgoing_track t = Some (0, 0, SPEED_OF_LIGHT_M_PER_NS * (t - 1)).
Proof.
  intros [H1 H2]. unfold point; simpl.
  rewrite (Rleb_true 1 t), (Rleb_true t (1 + 1 / SPEED_OF_LIGHT_M_PER_NS)) by lra. simpl.
  f_equal. f_equal; [f_equal|]; ring.
Qed.

Lemma cr_up (z : R) : 0 <= z -> cr (0, 0, z) = z.
Proof.
  intros H. unfold cr. replace (0 * 0 + 0 * 0 + z * z) with (Rsqr z) by (unfold Rsqr; ring).
  apply sqrt_Rsqr; exact H.
Qed.

Lemma ctheta_origin : ctheta (0, 0, 0) = 0.
Proof. unfold ctheta. rewrite (Reqb_true 0 0) by reflexivity. reflexivity. Qed.

Lemma ctheta_up (z : R) : 0 < z -> ctheta (0, 0, z) = 0.
Proof.
  intros H. unfold ctheta. rewrite (Reqb_true 0 0), (Reqb_false z 0) by lra. simpl.
  replace (0 * 0 + 0 * 0 + z * z) with (Rsqr z) by (unfold Rsqr; ring).
  rewrite sqrt_Rsqr by lra. replace (z / z) with 1 by (field; lra). apply acos_1.
Qed.

Lemma cphi_axis (z : R) : cphi (0, 0, z) = 0.
Proof.
  unfold cphi, arctan2. rewrite (Rltb_false 0 0) by lra. simpl.
  rewrite (Rltb_false 0 0) by lra. reflexivity.
Qed.

Lemma upgoing_r_infl :
  (if Rleb (t0 upgoing_track) (1 / SPEED_OF_LIGHT_M_PER_NS) && Rltb (1 / SPEED_OF_LIGHT_M_PER_NS) (t0 upgoing_track + dt upgoing_track)
   then option_map cr (point upgoing_track (1 / SPEED_OF_LIGHT_M_PER_NS)) else None) = Some (1 - SPEED_OF_LIGHT_M_PER_NS).
Proof.
  pose proof c_bounds. simpl.
  assert (1 < 1 / SPEED_OF_LIGHT_M_PER_NS) by (apply (Rmult_lt_reg_r SPEED_OF_LIGHT_M_PER_NS); [lra|]; field_simplify; lra).
  rewrite (Rleb_true 1 (1 / SPEED_OF_LIGHT_M_PER_NS)), (Rltb_true (1 / SPEED_OF_LIGHT_M_PER_NS) (1 + 1 / SPEED_OF_LIGHT_M_PER_NS)) by lra. simpl.
  rewrite upgoing_point by lra. cbn [option_map]. rewrite cr_up.
  - f_equal. field. lra.
  - replace (SPEED_OF_LIGHT_M_PER_NS * (1 / SPEED_OF_LIGHT_M_PER_NS - 1)) with (1 - SPEED_OF_LIGHT_M_PER_NS) by (field; lra). lra.
Qed.

Lemma upgoing_theta_infl :
  match ts upgoing_track with
  | Fin s => if Rleb (t0 upgoing_track) s && Rltb s (t0 upgoing_track + dt upgoing_track)
             then option_map ctheta (point upgoing_track s) else None
  | _ => None
  end = Some 0.
Proof.
  pose proof c_bounds. rewrite upgoing_ts. simpl.
  assert (0 < 1 / SPEED_OF_LIGHT_M_PER_NS) by (apply Rdiv_lt_0_compat; lra).
  rewrite (Rleb_true 1 1), (Rltb_true 1 (1 + 1 / SPEED_OF_LIGHT_M_PER_NS)) by lra. simpl.
  rewrite upgoing_point by lra. cbn [option_map].
  replace (SPEED_OF_LIGHT_M_PER_NS * (1 - 1)) with 0 by ring. f_equal. apply ctheta_origin.
Qed.

Lemma upgoing_extent : extent upgoing_track 0 10 = Some (1, 1 + 1 / SPEED_OF_LIGHT_M_PER_NS).
Proof.
  pose proof c_bounds. unfold extent; simpl.
  assert (0 < 1 / SPEED_OF_LIGHT_M_PER_NS < 5) by (split; [apply Rdiv_lt_0_compat; lra|];
    apply (Rmult_lt_reg_r SPEED_OF_LIGHT_M_PER_NS); [lra|]; field_simplify; lra).
  rewrite (Rleb_true 0 (1 + 1 / SPEED_OF_LIGHT_M_PER_NS)), (Rleb_true 1 10) by lra. simpl.
  f_equal. f_equal.
  - unfold Rmax; rdec; lra.
  - unfold Rmin; rdec; lra.
Qed.

Lemma upgoing_rho_of_t (t : R) : 1 <= t <= 1 + 1 / SPEED_OF_LIGHT_M_PER_NS -> rho_of_t upgoing_track t = (t - 1) * SPEED_OF_LIGHT_M_PER_NS.
Proof.
  intros [H1 H2]. unfold rho_of_t; simpl.
  rewrite (Rltb_false t 1), (Rltb_false (1 + 1 / SPEED_OF_LIGHT_M_PER_NS) t) by lra. reflexivity.
Qed.

Lemma upgoing_get_A (r : R) : 0 <= r -> get_A upgoing_track r = r.
Proof.
  intros H. unfold get_A; simpl.
  replace (r * r + 0 * 0 * (1 * 1 * 0 * 0 - 1) + 0 * 0 * (0 * 0 * 0 * 0 - 1) + 0 * 0 * (1 * 1 - 1)
           + 2 * 0 * 0 * 0 * 0 * 0 * 1 + 2 * 0 * 0 * 1 * 0 * 1 + 2 * 0 * 0 * 0 * 0 * 1)
    with (Rsqr r) by (unfold Rsqr; ring).
  rewrite (Rltb_false (Rsqr r) 0) by (apply Rle_0_sqr).
  apply sqrt_Rsqr; exact H.
Qed.

Lemma upgoing_rho_of_r_pos (r : R) : 0 <= r -> rho_of_r_pos upgoing_track r = r.
Proof. intros H. unfold rho_of_r_pos. rewrite upgoing_get_A by exact H. simpl. ring. Qed.

Lemma upgoing_rho_of_r_neg (r : R) : 0 <= r -> rho_of_r_neg upgoing_track r = - r.
Proof. intros H. unfold rho_of_r_neg. rewrite upgoing_get_A by exact H. simpl. ring. Qed.

Lemma PI_gt_3 : 3 < PI.
Proof. pose proof PI2_3_2. lra. Qed.

Lemma upgoing_corr_theta_neg :
  correlate_theta upgoing_track [0; PI] (Some (0, 0)) (0, 1) = [(Fin 0, Fin 1)].
Proof.
  pose proof PI_gt_3. unfold correlate_theta; simpl.
  replace (Rabs (0 - 0)) with 0 by (rewrite Rminus_0_r, Rabs_R0; reflexivity).
  rewrite (Rltb_true 0 (1 / 10000000)), (Rleb_true 0 0), (Rleb_true 0 PI) by lra.
  reflexivity.
Qed.

Lemma upgoing_corr_theta_pos :
  correlate_theta upgoing_track [0; PI] (Some sentinelR) (0, 1) = [sentinel].
Proof.
  unfold correlate_theta, sentinelR; simpl.
  rewrite (Rleb_false 0 (-1)) by lra. rewrite !andb_false_r. simpl.
  reflexivity.
Qed.

Lemma upgoing_corr_phi :
  correlate_phi upgoing_track [0; TWO_PI] (0, 0) (0, 1) = [(Fin 0, Fin 1)].
Proof.
  pose proof PI_gt_3. unfold correlate_phi, TWO_PI; simpl.
  replace (Rabs (0 - 0)) with 0 by (rewrite Rminus_0_r, Rabs_R0; reflexivity).
  rewrite (Rltb_true 0 (1 / 100000000000000)), (Rleb_true 0 0), (Rltb_true 0 (2 * PI)) by lra.
  reflexivity.
Qed.

Lemma upgoing_corr_r_neg :
  correlate_r upgoing_track [0; 2] (1 - SPEED_OF_LIGHT_M_PER_NS, 1) false = [(Fin (1 - SPEED_OF_LIGHT_M_PER_NS), Fin 1)].
Proof.
  pose proof c_bounds. unfold correlate_r; simpl.
  rewrite (Rleb_true 0 1), (Rleb_true (1 - SPEED_OF_LIGHT_M_PER_NS) 2) by lra. simpl.
  replace (Rmin 2 1) with 1 by (unfold Rmin; rdec; lra).
  replace (Rmax 0 (1 - SPEED_OF_LIGHT_M_PER_NS)) with (1 - SPEED_OF_LIGHT_M_PER_NS) by (unfold Rmax; rdec; lra).
  rewrite (Rleb_false 1 (1 - SPEED_OF_LIGHT_M_PER_NS)) by lra. simpl.
  rewrite !upgoing_rho_of_r_pos by lra.
  unfold sorted2F, flt. rewrite (Rltb_false 1 (1 - SPEED_OF_LIGHT_M_PER_NS)) by lra. rewrite andb_false_r. reflexivity.
Qed.

Lemma upgoing_corr_r_pos :
  correlate_r upgoing_track [0; 2] (0, 1 - SPEED_OF_LIGHT_M_PER_NS) true = [(Fin (- (1 - SPEED_OF_LIGHT_M_PER_NS)), Fin 0)].
Proof.
  pose proof c_bounds. unfold correlate_r; simpl.
  rewrite (Rleb_true 0 (1 - SPEED_OF_LIGHT_M_PER_NS)), (Rleb_true 0 2) by lra. simpl.
  replace (Rmin 2 (1 - SPEED_OF_LIGHT_M_PER_NS)) with (1 - SPEED_OF_LIGHT_M_PER_NS) by (unfold Rmin; rdec; lra).
  replace (Rmax 0 0) with 0 by (unfold Rmax; rdec; lra).
  rewrite (Rleb_true 0 (1 - SPEED_OF_LIGHT_M_PER_NS)) by lra. rewrite orb_true_r.
  rewrite !upgoing_rho_of_r_neg by lra.
  unfold sorted2F, flt. rewrite (Rltb_true (- (1 - SPEED_OF_LIGHT_M_PER_NS)) (- 0)) by lra.
  f_equal. f_equal. f_equal. ring.
Qed.


Lemma no_overlap_fin (a b : R) : 0 <= b -> no_overlap (Fin a, Fin b) = false.
Proof. intros H. unfold no_overlap; simpl. rewrite (Rltb_false b 0) by lra. apply andb_false_r. Qed.

Lemma upgoing_inner_loop (ppm : R) :
  inner_loop [] 0 [(Fin 0, Fin 1)] [(Fin 0, Fin 1)] [sentinel]
    [(Fin (1 - SPEED_OF_LIGHT_M_PER_NS), Fin 1)] [(Fin (- (1 - SPEED_OF_LIGHT_M_PER_NS)), Fin 0)] ppm = [((0, 0, 0, 0)%nat, Fin (SPEED_OF_LIGHT_M_PER_NS * ppm))].
Proof.
  pose proof c_bounds. unfold inner_loop; simpl.
  rewrite !no_overlap_fin by lra.
  assert (Hs : no_overlap sentinel = true).
  { unfold no_overlap, sentinel; simpl. rewrite (Rltb_true (-1) 0) by lra. reflexivity. }
  rewrite Hs.
  rewrite !deposit_fin.
  rewrite (Rmax_left (1 - SPEED_OF_LIGHT_M_PER_NS) 0), (Rmax_left (1 - SPEED_OF_LIGHT_M_PER_NS) 0), (Rmin_left 1 1), (Rmin_left 1 1),
    (Rmax_right (- (1 - SPEED_OF_LIGHT_M_PER_NS)) 0), (Rmax_left 0 0), (Rmin_left 0 1), (Rmin_left 0 1) by lra.
  rewrite (Rleb_true (1 - SPEED_OF_LIGHT_M_PER_NS) 1), (Rleb_true 0 0) by lra.
  unfold sparse_add, sparse_get; simpl.
  f_equal. f_equal. f_equal. ring.
Qed.

Lemma upgoing_time_step :
  time_step upgoing_hypo single_bins upgoing_track (1 / SPEED_OF_LIGHT_M_PER_NS) (Some (1 - SPEED_OF_LIGHT_M_PER_NS)) (Fin 1) (Some 0)
    0 (0, 10) [] = Some [((0, 0, 0, 0)%nat, Fin (SPEED_OF_LIGHT_M_PER_NS * photons_per_meter upgoing_hypo))].
Proof.
  pose proof c_bounds.
  assert (Hc1 : 1 < 1 / SPEED_OF_LIGHT_M_PER_NS) by (apply (Rmult_lt_reg_r SPEED_OF_LIGHT_M_PER_NS); [lra|]; field_simplify; lra).
  unfold time_step. rewrite upgoing_extent.
  rewrite (upgoing_point 1), (upgoing_point (1 + 1 / SPEED_OF_LIGHT_M_PER_NS)) by lra.
  replace (SPEED_OF_LIGHT_M_PER_NS * (1 - 1)) with 0 by ring.
  replace (SPEED_OF_LIGHT_M_PER_NS * (1 + 1 / SPEED_OF_LIGHT_M_PER_NS - 1)) with 1 by (field; lra).
  rewrite (upgoing_rho_of_t 1), (upgoing_rho_of_t (1 + 1 / SPEED_OF_LIGHT_M_PER_NS)) by lra.
  replace ((1 - 1) * SPEED_OF_LIGHT_M_PER_NS) with 0 by ring.
  replace ((1 + 1 / SPEED_OF_LIGHT_M_PER_NS - 1) * SPEED_OF_LIGHT_M_PER_NS) with 1 by (field; lra).
  rewrite (cr_up 0), (cr_up 1), ctheta_origin, (ctheta_up 1), !cphi_axis by lra.
  rewrite (Rleb_false (1 / SPEED_OF_LIGHT_M_PER_NS) 1), (Rltb_false (1 + 1 / SPEED_OF_LIGHT_M_PER_NS) (1 / SPEED_OF_LIGHT_M_PER_NS)) by lra.
  unfold sorted2R. rewrite (Rltb_false 1 (1 - SPEED_OF_LIGHT_M_PER_NS)), (Rltb_false (1 - SPEED_OF_LIGHT_M_PER_NS) 0), (Rltb_false 0 0) by lra.
  unfold fle. rewrite (Rleb_true 1 1) by lra.
  replace (Rabs (0 - 0)) with 0 by (rewrite Rminus_0_r, Rabs_R0; reflexivity).
  pose proof PI_gt_3.
  rewrite (Rltb_false PI 0) by lra.
  cbv iota beta.
  change (b_phi single_bins) with [0; TWO_PI].
  change (b_theta single_bins) with [0; PI].
  change (b_r single_bins) with [0; 2].
  rewrite upgoing_corr_phi, upgoing_corr_theta_neg, upgoing_corr_theta_pos,
    upgoing_corr_r_neg, upgoing_corr_r_pos, upgoing_inner_loop.
  reflexivity.
Qed.

Lemma upgoing_track_loop :
  track_loop upgoing_hypo single_bins origin0
  = Some [((0, 0, 0, 0)%nat, Fin (SPEED_OF_LIGHT_M_PER_NS * photons_per_meter upgoing_hypo))].
Proof.
  unfold track_loop. rewrite upgoing_track_eq. cbv zeta.
  rewrite upgoing_tb, upgoing_r_infl, upgoing_theta_infl, upgoing_ts.
  change (pairs (b_t single_bins)) with [(0, 10)]. cbn [fold_idx].
  apply upgoing_time_step.
Qed.

Lemma upgoing_ppm : photons_per_meter upgoing_hypo = 24514544553 / 10000000 * 1.
Proof. reflexivity. Qed.

Lemma upgoing_cascade_bins : cascade_bins upgoing_track single_bins = Some (0, 0, 0, 0)%nat.
Proof.
  pose proof PI_gt_3.
  unfold cascade_bins. cbn [x0 y0 z0 t0 upgoing_track b_t b_r b_theta b_phi single_bins].
  rewrite (cr_up 0), ctheta_origin, cphi_axis by lra.
  unfold get_bin, TWO_PI; simpl.
  rewrite (Rleb_true 0 1), (Rltb_true 1 10), (Rleb_true 0 0), (Rltb_true 0 2),
    (Rltb_true 0 PI), (Rltb_true 0 (2 * PI)) by lra.
  reflexivity.
Qed.

Lemma upgoing_compute_matrices :
  exists m, compute_matrices upgoing_hypo single_bins origin0 = Some m
  /\ sparse_total (photon_counts m) = Fin (SPEED_OF_LIGHT_M_PER_NS * photons_per_meter upgoing_hypo).
Proof.
  pose proof c_bounds.
  unfold compute_matrices. rewrite upgoing_track_loop, upgoing_track_eq.
  destruct (add_angles upgoing_hypo single_bins _) as [[ct cp] cl].
  unfold add_cascade. rewrite upgoing_cascade_bins.
  unfold sparse_get; simpl.
  rewrite Reqb_false by lra.
  eexists. split; [reflexivity|].
  unfold sparse_total, sparse_add, sparse_get; simpl.
  f_equal. ring.
Qed.

Lemma ctheta_axis (z : R) : 0 <= z -> ctheta (0, 0, z) = 0.
Proof.
  intros H. destruct (Req_dec z 0) as [->|Hz]; [apply ctheta_origin|apply ctheta_up; lra].
Qed.

(** Claim C1 (code bug): photon conservation fails.  [upgoing_hypo] is a
    track-only hypothesis (no cascade energy) whose 1 m track starts at the
    DOM at t = 1 ns and heads straight up; [single_bins] covers its whole
    time range and every point of it.  The track is closest to the DOM at
    its start [t0] (the point there is the DOM itself), but [Track.tb]
    divides [t0] as well by the speed of light, [tb = t0 / c] (about 3.3 ns,
    inside the track's time range), so the radial extent is split at a
    wrong inflection point: [compute_matrices] succeeds and its photon
    counts sum to [c * photons_per_meter] (about 0.3 of it) instead of
    [length * photons_per_meter]. *)
Theorem track_only_total_mismatch :
  let tr := set_origin (track upgoing_hypo) origin0 in
  hp_cascade_energy (hparams upgoing_hypo) = 0
  /\ (0 <= t0 tr /\ t0 tr + dt tr < 10)
  /\ (forall t, t0 tr <= t <= t0 tr + dt tr ->
        exists p, point tr t = Some p
                  /\ 0 <= cr p < 2 /\ 0 <= ctheta p < PI /\ 0 <= cphi p < TWO_PI)
  /\ point tr (t0 tr) = Some (0, 0, 0)
  /\ tb tr = t0 tr / SPEED_OF_LIGHT_M_PER_NS
  /\ exists m, compute_matrices upgoing_hypo single_bins origin0 = Some m
     /\ sparse_total (photon_counts m)
        = Fin (SPEED_OF_LIGHT_M_PER_NS * photons_per_meter upgoing_hypo)
     /\ SPEED_OF_LIGHT_M_PER_NS * photons_per_meter upgoing_hypo
        <> length (track upgoing_hypo) * photons_per_meter upgoing_hypo.
Proof.
  intros tr. subst tr. rewrite upgoing_track_eq.
  pose proof c_bounds. pose proof PI_gt_3.
  assert (Hc1 : 0 < 1 / SPEED_OF_LIGHT_M_PER_NS < 5) by (split; [apply Rdiv_lt_0_compat; lra|];
    apply (Rmult_lt_reg_r SPEED_OF_LIGHT_M_PER_NS); [lra|]; field_simplify; lra).
  split; [reflexivity|].
  split; [simpl; lra|].
  split.
  { intros t Ht. simpl in Ht. rewrite upgoing_point by lra.
    eexists; split; [reflexivity|].
    assert (0 <= SPEED_OF_LIGHT_M_PER_NS * (t - 1) <= 1).
    { split; [apply Rmult_le_pos; lra|].
      apply (Rmult_le_reg_r (/ SPEED_OF_LIGHT_M_PER_NS)); [apply Rinv_0_lt_compat; lra|].
      field_simplify; lra. }
    rewrite cr_up, ctheta_axis, cphi_axis by lra. unfold TWO_PI. lra. }
  split.
  { simpl. rewrite upgoing_point by lra. replace (SPEED_OF_LIGHT_M_PER_NS * (1 - 1)) with 0 by ring. reflexivity. }
  split; [rewrite upgoing_tb; reflexivity|].
  destruct upgoing_compute_matrices as [m [Hm Ht]].
  exists m. split; [exact Hm|]. split; [exact Ht|].
  rewrite upgoing_ppm. unfold upgoing_hypo, mk_hypo, mk_track, set_origin; simpl.
  unfold TRACK_M_PER_GEV. intros E.
  assert (SPEED_OF_LIGHT_M_PER_NS = 11 / 50 * (15 / (33 / 10))) by (apply (Rmult_eq_reg_r (24514544553 / 10000000 * 1)); [lra|lra]).
  unfold SPEED_OF_LIGHT_M_PER_NS in *. lra.
Qed.

End HypoFastProofs.

Module Pexp5dProofs.
Import Pexp5d Pexp5dSpec.

(** ** Integer truncation *)

Lemma Int_part_IZR (n : Z) : Int_part (IZR n) = n.
Proof.
  unfold Int_part. rewrite <- (tech_up (IZR n) (n + 1)); [lia| |];
  rewrite plus_IZR; lra.
Qed.

Lemma pyint_IZR (n : Z) : (0 <= n)%Z -> pyint (IZR n) = n.
Proof.
  intros Hn. unfold pyint. destruct (Rle_dec 0 (IZR n)) as [_|H].
  - apply Int_part_IZR.
  - exfalso. apply H. apply IZR_le in Hn. exact Hn.
Qed.

Lemma pyint_nonneg (x : R) : 0 <= x -> (0 <= pyint x)%Z.
Proof.
  intros Hx. unfold pyint. destruct (Rle_dec 0 x) as [_|H]; [|contradiction].
  unfold Int_part. destruct (archimed x) as [H1 _].
  assert (0 < up x)%Z by (apply lt_IZR; lra). lia.
Qed.

(** ** Direction bins of Cherenkov tables *)

Lemma acos_minus_one : acos (-1) = PI.
Proof.
  pose proof (acos_opp 1) as H. rewrite acos_1, Rminus_0_r in H. exact H.
Qed.

(** Claim C6: with [n] cos(theta) direction bins and [m] delta-phi direction
    bins ([n, m >= 1]), the direction [pdir_costheta = 1] falls in the last
    cos(theta) bin [n - 1], the direction [delta phi = pi] (its cosine is -1)
    in the last delta-phi bin [m - 1], and every computed index is clamped
    to at most the last bin; for in-range directions both are at least 0. *)
Theorem direction_bins_upper_edge (kind : TableKind) (tbl : TableBinning)
  (cti : bool) (nphi : Z) (sigma : R) :
  (1 <= tb_n_costhetadir_bins tbl)%Z -> (1 <= tb_n_deltaphidir_bins tbl)%Z ->
  let cfg := generate_config kind tbl cti nphi sigma in
  costhetadir_bin_index cfg 1 = (tb_n_costhetadir_bins tbl - 1)%Z
  /\ deltaphidir_bin_index cfg (-1) = (tb_n_deltaphidir_bins tbl - 1)%Z
  /\ (forall c, (costhetadir_bin_index cfg c <= last_costhetadir_bin_idx cfg)%Z
               /\ (-1 <= c -> (0 <= costhetadir_bin_index cfg c)%Z))
  /\ (forall c, (deltaphidir_bin_index cfg c <= last_deltaphidir_bin_idx cfg)%Z
               /\ (0 <= deltaphidir_bin_index cfg c)%Z).
Proof.
  intros Hn Hm cfg.
  set (n := tb_n_costhetadir_bins tbl) in *.
  set (m := tb_n_deltaphidir_bins tbl) in *.
  assert (Rn : 1 <= IZR n) by (apply IZR_le in Hn; exact Hn).
  assert (Rm : 1 <= IZR m) by (apply IZR_le in Hm; exact Hm).
  pose proof PI_RGT_0 as Hpi.
  split; [|split; [|split]].
  - unfold costhetadir_bin_index; simpl; fold n m.
    replace ((1 + 1) / (2 / IZR n)) with (IZR n) by (field; lra).
    rewrite pyint_IZR by lia.
    replace (n - 1 <? n)%Z with true by (symmetry; apply Z.ltb_lt; lia). reflexivity.
  - unfold deltaphidir_bin_index; simpl; fold n m.
    rewrite acos_minus_one, Rabs_right by lra.
    replace (PI / (PI / IZR m)) with (IZR m) by (field; lra).
    rewrite pyint_IZR by lia.
    replace (m - 1 <? m)%Z with true by (symmetry; apply Z.ltb_lt; lia). reflexivity.
  - intros c. unfold costhetadir_bin_index; simpl; fold n m.
    destruct (n - 1 <? _)%Z eqn:E.
    + split; [lia|intros; lia].
    + apply Z.ltb_ge in E. split; [exact E|].
      intros Hc. apply pyint_nonneg.
      apply Rmult_le_pos; [lra|]. apply Rlt_le, Rinv_0_lt_compat.
      apply Rdiv_lt_0_compat; lra.
  - intros c. unfold deltaphidir_bin_index; simpl; fold n m.
    destruct (m - 1 <? _)%Z eqn:E.
    + split; lia.
    + apply Z.ltb_ge in E. split; [exact E|].
      apply pyint_nonneg.
      apply Rmult_le_pos; [apply Rabs_pos|]. apply Rlt_le, Rinv_0_lt_compat.
      apply Rdiv_lt_0_compat; lra.
Qed.

Lemma direction_bins_upper_edge_witness :
  (1 <= tb_n_costhetadir_bins small_binning)%Z /\ (1 <= tb_n_deltaphidir_bins small_binning)%Z
  /\ costhetadir_bin_index small_cfg 1 = 1%Z /\ deltaphidir_bin_index small_cfg (-1) = 1%Z.
Proof.
  split; [simpl; lia|]. split; [simpl; lia|].
  destruct (direction_bins_upper_edge ckv_uncompr small_binning false 1 0
              ltac:(simpl; lia) ltac:(simpl; lia)) as [H1 [H2 _]].
  split; [exact H1|exact H2].
Defined.

(** ** Radial and polar bins *)

Lemma small_cfg_geometry (cti : bool) :
  geometry (generate_config ckv_uncompr small_binning cti 1 0) dom_at_origin source_above
  = Some (0, 0, -1, 0, 1).
Proof.
  unfold geometry; simpl.
  rewrite Rleb_false by lra.
  replace ((0 - 0) * (0 - 0) + (0 - 0) * (0 - 0) + (0 - 1) * (0 - 1)) with 1 by ring.
  rewrite sqrt_1. repeat f_equal; ring.
Qed.

(** Claim C10 (code bug): the polar bin index is not clamped.  On a table
    with radii up to 10 in ten linear bins and two cos(theta) bins, a source
    1 m straight above the DOM ([dz = -1], [r = 1]) passes the radial test
    ([r^2 = 1 < 100]) and gets the radial bin 1, within [0, 9], but the
    polar bin index [int((1 - dz/r) / (2/2)) = 2], equal to the number of
    cos(theta) bins, one past the last valid index. *)
Theorem costheta_bin_index_overflow :
  geometry small_cfg dom_at_origin source_above = Some (0, 0, -1, 0, 1)
  /\ r_bin_index small_cfg 1 = 1%Z
  /\ (0 <= r_bin_index small_cfg 1 <= n_r_bins small_cfg - 1)%Z
  /\ costheta_bin_index small_cfg (-1) 1 = n_costheta_bins small_cfg.
Proof.
  assert (Hr : r_bin_index small_cfg 1 = 1%Z).
  { unfold r_bin_index; simpl; unfold rpow.
    rewrite (Reqb_false 1 0), (Reqb_false (10 - 0) 0) by lra.
    replace (1 / 1) with 1 by field. replace (10 - 0) with 10 by ring.
    rewrite !Rpower_1 by lra.
    replace (1 / (10 / 10)) with (IZR 1) by field.
    apply pyint_IZR; lia. }
  split; [exact (small_cfg_geometry false)|].
  split; [exact Hr|]. split; [rewrite Hr; simpl; lia|].
  unfold costheta_bin_index; simpl.
  replace ((1 - -1 / 1) / (2 / 2)) with (IZR 2) by field.
  apply pyint_IZR; lia.
Qed.

(** ** Causality and time coverage of the hit loop *)

Lemma hit_step_skipped cfg tl tabs s rb cb db hit e :
  hit_skipped cfg s hit -> hit_step cfg tl tabs s rb cb db hit e = Ok e.
Proof.
  unfold hit_step. intros [H|H].
  - rewrite H. reflexivity.
  - destruct (negb _); [reflexivity|]. rewrite H. reflexivity.
Qed.

Lemma hits_loop_skipped cfg tl tabs s rb cb db hits :
  forall acc acc' i hit,
  hits_loop cfg tl tabs s rb cb db hits acc = Ok acc' ->
  nth_error hits i = Some hit -> hit_skipped cfg s hit ->
  nth_error acc' i = nth_error acc i.
Proof.
  induction hits as [|h hs IH]; intros acc acc' i hit Hl Hn Hs.
  - destruct i; discriminate.
  - destruct acc as [|e es]; simpl in Hl; [injection Hl as <-; reflexivity|].
    destruct (hit_step cfg tl tabs s rb cb db h e) as [e'|x] eqn:Eh; [|discriminate].
    destruct (hits_loop cfg tl tabs s rb cb db hs es) as [es'|x] eqn:El; [|discriminate].
    injection Hl as <-.
    destruct i as [|i]; simpl in Hn |- *.
    + injection Hn as ->. rewrite hit_step_skipped in Eh by exact Hs.
      injection Eh as ->. reflexivity.
    + eapply IH; eauto.
Qed.

(** Claim C4: whenever the processing of a source completes, every hit
    whose time precedes the source's emission time (or is NaN), or lies at
    least [t_max] after it, keeps its entry of the per-hit expected-count
    accumulator unchanged: the source contributes nothing to it. *)
Theorem source_skips_acausal_hits cfg tl spc spsc tabs dom hits s
  (all : F) (acc : list F) (all' : F) (acc' : list F) (i : nat) (hit : F * F) :
  source_step cfg tl spc spsc tabs dom hits s (all, acc) = Ok (all', acc') ->
  nth_error hits i = Some hit ->
  hit_skipped cfg s hit ->
  nth_error acc' i = nth_error acc i.
Proof.
  unfold source_step. intros Hs Hn Hk.
  destruct (geometry cfg dom s) as [[[[[dx dy] dz] rho] r]|].
  2: { injection Hs as _ <-. reflexivity. }
  destruct (Reqb r 0); [discriminate|].
  destruct (kind_branch _ _ _ _ _ _ _ _ _ _) as [[tisp dirbins]|x]; [|discriminate].
  destruct (if compute_t_indep_exp cfg then _ else _) as [a|x]; [|discriminate].
  destruct (hits_loop _ _ _ _ _ _ _ _ _) as [hs|x] eqn:El; [|discriminate].
  injection Hs as _ <-.
  eapply hits_loop_skipped; eauto.
Qed.

Lemma source_skips_acausal_hits_witness :
  source_step small_cfg no_templates no_cone no_smeared_cone ones_tables dom_at_origin
    [(NaN, Fin 1)] source_above (Fin 0, [Fin 0]) = Ok (Fin 0, [Fin 0])
  /\ nth_error [(NaN, Fin 1)] 0 = Some (NaN, Fin 1)
  /\ hit_skipped small_cfg source_above (NaN, Fin 1)
  /\ nth_error [Fin 0] 0 = nth_error [Fin 0] 0.
Proof.
  assert (Hs : source_step small_cfg no_templates no_cone no_smeared_cone ones_tables
                 dom_at_origin [(NaN, Fin 1)] source_above (Fin 0, [Fin 0])
               = Ok (Fin 0, [Fin 0])).
  { unfold source_step.
    rewrite (small_cfg_geometry false : geometry small_cfg dom_at_origin source_above = _).
    rewrite (Reqb_false 1 0) by lra.
    unfold kind_branch; simpl.
    destruct (Rleb (sqrt 0) MACHINE_EPS); simpl;
      rewrite (Reqb_false 1 0) by lra; reflexivity. }
  assert (Hk : hit_skipped small_cfg source_above (NaN, Fin 1)) by (left; reflexivity).
  split; [exact Hs|]. split; [reflexivity|]. split; [exact Hk|].
  exact (source_skips_acausal_hits small_cfg no_templates no_cone no_smeared_cone ones_tables
           dom_at_origin [(NaN, Fin 1)] source_above (Fin 0) [Fin 0] (Fin 0) [Fin 0] 0
           (NaN, Fin 1) Hs eq_refl Hk).
Defined.

(** ** Hard failures *)

Lemma source_step_zero_norm cfg tl spc spsc tabs dom hits s acc dx dy dz rho r :
  compute_t_indep_exp cfg = true ->
  geometry cfg dom s = Some (dx, dy, dz, rho, r) ->
  fgt (t_indep_table_norm tabs (r_bin_index cfg r)) (Fin 0) = false ->
  exists e, source_step cfg tl spc spsc tabs dom hits s acc = Err e.
Proof.
  intros Hc Hg Hn. destruct acc as [a hs]. unfold source_step. rewrite Hg.
  destruct (Reqb r 0); [eexists; reflexivity|].
  destruct (kind_branch _ _ _ _ _ _ _ _ _ _) as [[tisp dirbins]|x]; [|eexists; reflexivity].
  rewrite Hc, Hn. eexists; reflexivity.
Qed.

Lemma sources_loop_zero_norm cfg tl spc spsc tabs dom hits s dx dy dz rho r :
  compute_t_indep_exp cfg = true ->
  geometry cfg dom s = Some (dx, dy, dz, rho, r) ->
  fgt (t_indep_table_norm tabs (r_bin_index cfg r)) (Fin 0) = false ->
  forall sources acc, In s sources ->
  exists e, sources_loop cfg tl spc spsc tabs dom hits sources acc = Err e.
Proof.
  intros Hc Hg Hn sources. induction sources as [|s' ss IH]; intros acc Hin; [contradiction|].
  simpl. destruct Hin as [->|Hin].
  - destruct (source_step_zero_norm cfg tl spc spsc tabs dom hits s acc dx dy dz rho r Hc Hg Hn)
      as [e He].
    rewrite He. eexists; reflexivity.
  - destruct (source_step cfg tl spc spsc tabs dom hits s' acc) as [acc'|x];
      [apply IH; exact Hin|eexists; reflexivity].
Qed.

(** Claim C5 (as amended): with [compute_t_indep_exp] on, an operational
    DOM and a source within the radial binning whose time-independent
    normalisation [t_indep_table_norm[r_bin_idx]] is not [> 0] (NaN
    included), the evaluation raises; and a returned log-likelihood sum is
    never +inf or -inf.  A NaN sum is not caught (see the counterexample). *)
Theorem pexp_5d_hard_failures :
  (forall cfg tl spc spsc sources hits dom time_window tabs s dx dy dz rho r,
     compute_t_indep_exp cfg = true -> operational dom = true -> In s sources ->
     geometry cfg dom s = Some (dx, dy, dz, rho, r) ->
     fgt (t_indep_table_norm tabs (r_bin_index cfg r)) (Fin 0) = false ->
     exists e, pexp_5d cfg tl spc spsc sources hits dom time_window tabs = Err e)
  /\ (forall cfg tl spc spsc sources hits dom time_window tabs all sl,
     pexp_5d cfg tl spc spsc sources hits dom time_window tabs = Ok (all, sl) ->
     isinf sl = false).
Proof.
  split.
  - intros cfg tl spc spsc sources hits dom tw tabs s dx dy dz rho r Hc Ho Hin Hg Hn.
    unfold pexp_5d. rewrite Ho. simpl.
    destruct (sources_loop_zero_norm cfg tl spc spsc tabs dom hits s dx dy dz rho r Hc Hg Hn
                sources (Fin 0, repeat (Fin 0) (List.length hits)) Hin) as [e He].
    rewrite He. eexists; reflexivity.
  - intros cfg tl spc spsc sources hits dom tw tabs all sl. unfold pexp_5d.
    destruct (negb (operational dom)); [intros H; injection H as _ <-; reflexivity|].
    destruct (sources_loop _ _ _ _ _ _ _ _ _) as [[a hs]|x]; [|discriminate].
    destruct (isinf (sum_log dom hs hits)) eqn:E; [discriminate|].
    intros H; injection H as _ <-. exact E.
Qed.

Lemma pexp_5d_hard_failures_witness :
  compute_t_indep_exp small_cfg_t_indep = true
  /\ geometry small_cfg_t_indep dom_at_origin source_above = Some (0, 0, -1, 0, 1)
  /\ fgt (t_indep_table_norm zero_norm_tables (r_bin_index small_cfg_t_indep 1)) (Fin 0) = false
  /\ exists e, pexp_5d small_cfg_t_indep no_templates no_cone no_smeared_cone
                 [source_above] [(Fin 5, Fin 1)] dom_at_origin 1 zero_norm_tables = Err e.
Proof.
  assert (Hg : geometry small_cfg_t_indep dom_at_origin source_above = Some (0, 0, -1, 0, 1))
    by exact (small_cfg_geometry true).
  assert (Hn : fgt (t_indep_table_norm zero_norm_tables (r_bin_index small_cfg_t_indep 1))
                   (Fin 0) = false).
  { simpl. apply Rltb_false; lra. }
  split; [reflexivity|]. split; [exact Hg|]. split; [exact Hn|].
  exact (proj1 pexp_5d_hard_failures small_cfg_t_indep no_templates no_cone no_smeared_cone
           [source_above] [(Fin 5, Fin 1)] dom_at_origin 1 zero_norm_tables source_above
           0 0 (-1) 0 1 eq_refl eq_refl (or_introl eq_refl) Hg Hn).
Defined.

(** Claim C5, counterexample: an operational DOM with no noise and no
    source sees a hit of multiplicity 0 at t = 5; its term of the sum is
    [0 * log(0) = 0 * -inf = NaN] (numba's [math.log] returns -inf at 0),
    so the aggregated log-likelihood sum is NaN, which [np.isinf] does not
    flag: the non-finite sum is returned instead of raising. *)
Lemma pexp_5d_nan_sum_cex :
  exists all, pexp_5d small_cfg no_templates no_cone no_smeared_cone
                [] [(Fin 5, Fin 0)] dom_at_origin 1 ones_tables = Ok (all, NaN).
Proof.
  eexists. unfold pexp_5d, sum_log; simpl.
  rewrite (Rltb_false 0 (1 * 0 + 0)) by lra.
  rewrite (Reqb_true (1 * 0 + 0) 0) by ring.
  unfold inf_times. rewrite (Rltb_false 0 0) by lra.
  reflexivity.
Qed.

End Pexp5dProofs.

Module HypoFastExtra.
Import HypoFast HypoFastSpec HypoFastExtraSpec HypoFastProofs.

Lemma hypo_track_fields p c0 c :
  let tr := hypo_track p c0 c in
  sintheta tr = sin (tp_zenith p) /\ costheta tr = cos (tp_zenith p) /\
  sinphi tr = sin (tp_azimuth p) /\ cosphi tr = cos (tp_azimuth p) /\
  length tr = tp_energy p * TRACK_M_PER_GEV /\
  dt tr = tp_energy p * TRACK_M_PER_GEV / SPEED_OF_LIGHT_M_PER_NS /\
  t0 tr = tp_t p - c_t c /\ x0 tr = tp_x p - c_x c /\
  y0 tr = tp_y p - c_y c /\ z0 tr = tp_z p - c_z c.
Proof. cbn. repeat split. Qed.

Lemma hypo_track_unit p c0 c :
  let tr := hypo_track p c0 c in
  cosphi tr * cosphi tr + sinphi tr * sinphi tr = 1 /\
  (sintheta tr * cosphi tr) * (sintheta tr * cosphi tr)
  + (sintheta tr * sinphi tr) * (sintheta tr * sinphi tr)
  + costheta tr * costheta tr = 1.
Proof.
  cbn. pose proof (sin2_cos2 (tp_zenith p)) as Hz. pose proof (sin2_cos2 (tp_azimuth p)) as Ha.
  unfold Rsqr in *. split; [lra|].
  replace (sin (tp_zenith p) * cos (tp_azimuth p) * (sin (tp_zenith p) * cos (tp_azimuth p)) +
           sin (tp_zenith p) * sin (tp_azimuth p) * (sin (tp_zenith p) * sin (tp_azimuth p)) +
           cos (tp_zenith p) * cos (tp_zenith p))
    with (sin (tp_zenith p) * sin (tp_zenith p) *
          (sin (tp_azimuth p) * sin (tp_azimuth p) + cos (tp_azimuth p) * cos (tp_azimuth p))
          + cos (tp_zenith p) * cos (tp_zenith p)) by ring.
  rewrite Ha. lra.
Qed.

(** Squared distance from the DOM of the point at parameter [rho]. *)
Lemma at_rho_norm2 tr rho :
  let '(x, y, z) := at_rho tr rho in
  x * x + y * y + z * z =
  (x0 tr * x0 tr + y0 tr * y0 tr + z0 tr * z0 tr)
  + 2 * rho * (x0 tr * sintheta tr * cosphi tr + y0 tr * sinphi tr * sintheta tr + z0 tr * costheta tr)
  + rho * rho * ((sintheta tr * cosphi tr) * (sintheta tr * cosphi tr)
                 + (sintheta tr * sinphi tr) * (sintheta tr * sinphi tr)
                 + costheta tr * costheta tr).
Proof. unfold at_rho. ring. Qed.

Lemma point_some tr t x y z :
  point tr t = Some (x, y, z) ->
  t0 tr <= t <= t0 tr + dt tr /\
  (x, y, z) = at_rho tr (SPEED_OF_LIGHT_M_PER_NS * (t - t0 tr)).
Proof.
  unfold point, at_rho. destruct (Rleb (t0 tr) t) eqn:E1; [|discriminate].
  destruct (Rleb t (t0 tr + dt tr)) eqn:E2; [|discriminate].
  apply Rleb_iff in E1, E2. simpl. intros H; injection H as <- <- <-. split; [lra|reflexivity].
Qed.

(** Extra X1: For a track built by Track.__init__ and set_origin, whenever
    point(t) returns a position, rho_of_t(t) lies in [0, length] and equals
    the distance of that position from the track start. *)
Theorem rho_of_t_distance (p : TrackParams) (c0 c : TimeSpaceCoord) (t x y z : R)
  (Hp : point (hypo_track p c0 c) t = Some (x, y, z)) :
  let tr := hypo_track p c0 c in
  0 <= rho_of_t tr t <= length tr /\
  (x - x0 tr) * (x - x0 tr) + (y - y0 tr) * (y - y0 tr) + (z - z0 tr) * (z - z0 tr)
  = rho_of_t tr t * rho_of_t tr t.
Proof.
  intros tr. fold tr in Hp.
  pose proof (proj2 (hypo_track_unit p c0 c)) as Hu. fold tr in Hu.
  destruct (hypo_track_fields p c0 c) as (_ & _ & _ & _ & Hl & Hd & _). fold tr in Hl, Hd.
  assert (Hc : 0 < SPEED_OF_LIGHT_M_PER_NS) by (unfold SPEED_OF_LIGHT_M_PER_NS; lra).
  clearbody tr.
  apply point_some in Hp as [[H1 H2] Hxyz]. unfold at_rho in Hxyz. injection Hxyz as -> -> ->.
  unfold rho_of_t. rewrite (Rltb_false t (t0 tr)), (Rltb_false (t0 tr + dt tr) t) by lra.
  cbn [orb]. split.
  - split; [apply Rmult_le_pos; lra|].
    rewrite Hl. rewrite Hd in H2.
    apply (Rmult_le_reg_r (/ SPEED_OF_LIGHT_M_PER_NS)); [apply Rinv_0_lt_compat; lra|].
    replace ((t - t0 tr) * SPEED_OF_LIGHT_M_PER_NS * / SPEED_OF_LIGHT_M_PER_NS) with (t - t0 tr)
      by (field; lra).
    unfold Rdiv in H2. lra.
  - set (d := SPEED_OF_LIGHT_M_PER_NS * (t - t0 tr)).
    replace ((t - t0 tr) * SPEED_OF_LIGHT_M_PER_NS) with d by (unfold d; ring).
    transitivity (d * d * ((sintheta tr * cosphi tr) * (sintheta tr * cosphi tr)
                 + (sintheta tr * sinphi tr) * (sintheta tr * sinphi tr)
                 + costheta tr * costheta tr)); [ring|]. rewrite Hu. ring.
Qed.

(** Extra X2: When extent(t_low, t_high) returns (a, b) for a window with
    t_low <= t_high and dt >= 0, then a <= b, point is defined at both ends,
    and 0 <= rho_of_t(a) <= rho_of_t(b) <= dt * c. *)
Theorem extent_rho_extent (tr : Track) (t_low t_high a b : R)
  (Hdt : 0 <= dt tr) (Hw : t_low <= t_high)
  (He : extent tr t_low t_high = Some (a, b)) :
  a <= b /\ point tr a <> None /\ point tr b <> None /\
  0 <= rho_of_t tr a <= rho_of_t tr b /\ rho_of_t tr b <= dt tr * SPEED_OF_LIGHT_M_PER_NS.
Proof.
  assert (Hc : 0 < SPEED_OF_LIGHT_M_PER_NS) by (unfold SPEED_OF_LIGHT_M_PER_NS; lra).
  unfold extent in He.
  destruct (Rleb t_low (t0 tr + dt tr)) eqn:E1; [|discriminate].
  destruct (Rleb (t0 tr) t_high) eqn:E2; [|discriminate].
  apply Rleb_iff in E1, E2. injection He as <- <-.
  pose proof (Rmax_l t_low (t0 tr)). pose proof (Rmax_r t_low (t0 tr)).
  pose proof (Rmin_l t_high (t0 tr + dt tr)). pose proof (Rmin_r t_high (t0 tr + dt tr)).
  assert (Hab : Rmax t_low (t0 tr) <= Rmin t_high (t0 tr + dt tr)).
  { apply Rmax_lub; apply Rmin_glb; lra. }
  assert (Ha2 : Rmax t_low (t0 tr) <= t0 tr + dt tr) by (apply Rmax_lub; lra).
  assert (Hb1 : t0 tr <= Rmin t_high (t0 tr + dt tr)) by (apply Rmin_glb; lra).
  set (a := Rmax t_low (t0 tr)) in *. set (b := Rmin t_high (t0 tr + dt tr)) in *.
  unfold point, rho_of_t.
  rewrite (Rleb_true (t0 tr) a), (Rleb_true a (t0 tr + dt tr)), (Rleb_true (t0 tr) b),
    (Rleb_true b (t0 tr + dt tr)) by lra.
  rewrite (Rltb_false a (t0 tr)), (Rltb_false (t0 tr + dt tr) a), (Rltb_false b (t0 tr)),
    (Rltb_false (t0 tr + dt tr) b) by lra.
  cbn [andb orb]. split; [exact Hab|]. split; [discriminate|]. split; [discriminate|].
  split; [split|].
  - apply Rmult_le_pos; lra.
  - apply Rmult_le_compat_r; lra.
  - apply Rmult_le_compat_r; lra.
Qed.

(** Extra X3: Moving a track's origin to a coordinate c shifts it in space
    and time: point(t) of the shifted track is point(t + c.t) of the track
    with origin 0, minus (c.x, c.y, c.z), and both are undefined at the same
    times. *)
Theorem set_origin_translates (tr : Track) (c : TimeSpaceCoord) (t : R) :
  point (set_origin tr c) t =
  option_map (fun q => let '(x, y, z) := q in (x - c_x c, y - c_y c, z - c_z c))
             (point (set_origin tr origin0) (t + c_t c)).
Proof.
  unfold point, set_origin, origin0; cbn [t0 x0 y0 z0 dt sintheta costheta sinphi cosphi c_t c_x c_y c_z].
  destruct (Rle_dec (tp_t (params tr) - c_t c) t) as [H1|H1].
  - rewrite (Rleb_true _ t), (Rleb_true (tp_t (params tr) - 0) (t + c_t c)) by lra.
    destruct (Rle_dec t (tp_t (params tr) - c_t c + dt tr)) as [H2|H2].
    + rewrite (Rleb_true t), (Rleb_true (t + c_t c)) by lra. cbn [andb option_map].
      f_equal. f_equal; [f_equal|]; ring.
    + rewrite (Rleb_false t), (Rleb_false (t + c_t c)) by lra. reflexivity.
  - rewrite (Rleb_false _ t), (Rleb_false (tp_t (params tr) - 0) (t + c_t c)) by lra. reflexivity.
Qed.

Lemma if_sqrt_ext (S S' : R) : S = S' ->
  (if Rltb S 0 then 0 else sqrt S) = (if Rltb S' 0 then 0 else sqrt S').
Proof. intros ->; reflexivity. Qed.

Lemma get_A_eq tr Rr :
  get_A tr Rr =
  (let S := Rr * Rr - (x0 tr * x0 tr + y0 tr * y0 tr + z0 tr * z0 tr) + proj0 tr * proj0 tr in
   if Rltb S 0 then 0 else sqrt S).
Proof. unfold get_A, proj0. cbv zeta. apply if_sqrt_ext. ring. Qed.

Lemma sum_sq_nonneg (a b c : R) : 0 <= a * a + b * b + c * c.
Proof. nra. Qed.

Lemma norm_at_rho p c0 c rho :
  let tr := hypo_track p c0 c in
  let '(x, y, z) := at_rho tr rho in
  x * x + y * y + z * z =
  x0 tr * x0 tr + y0 tr * y0 tr + z0 tr * z0 tr + 2 * rho * proj0 tr + rho * rho.
Proof.
  intros tr. pose proof (proj2 (hypo_track_unit p c0 c)) as Hu. fold tr in Hu. clearbody tr.
  unfold at_rho, proj0.
  transitivity ((x0 tr * x0 tr + y0 tr * y0 tr + z0 tr * z0 tr)
    + 2 * rho * (x0 tr * sintheta tr * cosphi tr + y0 tr * sinphi tr * sintheta tr + z0 tr * costheta tr)
    + rho * rho * ((sintheta tr * cosphi tr) * (sintheta tr * cosphi tr)
                 + (sintheta tr * sinphi tr) * (sintheta tr * sinphi tr)
                 + costheta tr * costheta tr)); [ring|]. rewrite Hu. ring.
Qed.

Lemma cr_at_rho p c0 c rho :
  let tr := hypo_track p c0 c in
  cr (at_rho tr rho) =
  sqrt (x0 tr * x0 tr + y0 tr * y0 tr + z0 tr * z0 tr + 2 * rho * proj0 tr + rho * rho)
  /\ 0 <= x0 tr * x0 tr + y0 tr * y0 tr + z0 tr * z0 tr + 2 * rho * proj0 tr + rho * rho.
Proof.
  intros tr. pose proof (norm_at_rho p c0 c rho) as H. cbv zeta in H. fold tr in H. clearbody tr.
  unfold cr, at_rho in *. cbv beta iota in H |- *. rewrite <- H.
  split; [reflexivity|apply sum_sq_nonneg].
Qed.

Lemma rho_of_r_pos_eq tr Rr : rho_of_r_pos tr Rr = get_A tr Rr - proj0 tr.
Proof. unfold rho_of_r_pos, proj0. ring. Qed.

Lemma rho_of_r_neg_eq tr Rr : rho_of_r_neg tr Rr = - get_A tr Rr - proj0 tr.
Proof. unfold rho_of_r_neg, proj0. ring. Qed.

(** Extra X4: If the line of a track meets the sphere of radius R around the
    DOM, then the points at track parameters rho_of_r_pos(R) and
    rho_of_r_neg(R) both lie on that sphere, with rho_of_r_neg(R) <=
    rho_of_r_pos(R). *)
Theorem rho_of_r_on_sphere p c0 c (Rr rho0 : R)
  (Hmeet : cr (at_rho (hypo_track p c0 c) rho0) = Rr) :
  let tr := hypo_track p c0 c in
  cr (at_rho tr (rho_of_r_pos tr Rr)) = Rr /\
  cr (at_rho tr (rho_of_r_neg tr Rr)) = Rr /\
  rho_of_r_neg tr Rr <= rho_of_r_pos tr Rr.
Proof.
  intros tr. fold tr in Hmeet.
  destruct (cr_at_rho p c0 c rho0) as [E0 N0]. fold tr in E0, N0.
  destruct (cr_at_rho p c0 c (rho_of_r_pos tr Rr)) as [Ep _]. fold tr in Ep. rewrite Ep.
  destruct (cr_at_rho p c0 c (rho_of_r_neg tr Rr)) as [En _]. fold tr in En. rewrite En.
  rewrite rho_of_r_pos_eq, rho_of_r_neg_eq, get_A_eq. cbv zeta.
  rewrite E0 in Hmeet. clearbody tr. set (u := proj0 tr) in *.
  set (P := x0 tr * x0 tr + y0 tr * y0 tr + z0 tr * z0 tr) in *.
  assert (HR : 0 <= Rr) by (rewrite <- Hmeet; apply sqrt_pos).
  assert (HN : P + 2 * rho0 * u + rho0 * rho0 = Rr * Rr).
  { rewrite <- Hmeet. rewrite sqrt_sqrt; [reflexivity|exact N0]. }
  clearbody P u.
  assert (HS : Rr * Rr - P + u * u = (rho0 + u) * (rho0 + u)).
  { replace P with (Rr * Rr - 2 * rho0 * u - rho0 * rho0) by lra. ring. }
  assert (Hsq : 0 <= (rho0 + u) * (rho0 + u)) by apply Rle_0_sqr.
  rewrite HS, (Rltb_false _ _ Hsq).
  pose proof (sqrt_Rsqr_abs (rho0 + u)) as HA. unfold Rsqr in HA. rewrite HA.
  pose proof (Rabs_pos (rho0 + u)) as HA0.
  assert (HAA : Rabs (rho0 + u) * Rabs (rho0 + u) = (rho0 + u) * (rho0 + u)).
  { rewrite <- Rabs_mult. apply Rabs_right. nra. }
  set (A := Rabs (rho0 + u)) in *.
  replace (P + 2 * (A - u) * u + (A - u) * (A - u)) with (Rr * Rr) by nra.
  replace (P + 2 * (- A - u) * u + (- A - u) * (- A - u)) with (Rr * Rr) by nra.
  rewrite sqrt_square by exact HR. split; [reflexivity|]. split; [reflexivity|lra].
Qed.

Lemma quad_root (d b c M rho0 rho : R) :
  d <> 0 -> c + 2 * rho0 * b - d * rho0 * rho0 = 0 ->
  M * M = (b - d * rho0) * (b - d * rho0) ->
  rho * d = b + M \/ rho * d = b - M ->
  c + 2 * rho * b - d * rho * rho = 0.
Proof.
  intros Hd H0 HM Hr.
  apply (Rmult_eq_reg_l d); [|exact Hd]. rewrite Rmult_0_r.
  replace (d * (c + 2 * rho * b - d * rho * rho))
    with (d * c + 2 * b * (rho * d) - (rho * d) * (rho * d)) by ring.
  replace c with (d * rho0 * rho0 - 2 * rho0 * b) by lra.
  destruct Hr as [-> | ->].
  - transitivity ((b - d * rho0) * (b - d * rho0) - M * M); [ring|]. rewrite HM. ring.
  - transitivity ((b - d * rho0) * (b - d * rho0) - M * M); [ring|]. rewrite HM. ring.
Qed.

Lemma cone_poly tr T rho :
  cosphi tr * cosphi tr + sinphi tr * sinphi tr = 1 ->
  ((let '(x, y, z) := at_rho tr rho in x * x + y * y = tan T ^ 2 * (z * z)) <->
   (x0 tr * x0 tr + y0 tr * y0 tr - tan T ^ 2 * (z0 tr * z0 tr))
   + 2 * rho * (x0 tr * sintheta tr * cosphi tr + y0 tr * sinphi tr * sintheta tr
                - z0 tr * costheta tr * tan T ^ 2)
   - (- sintheta tr * sintheta tr + costheta tr * costheta tr * tan T ^ 2) * rho * rho = 0).
Proof.
  intros HU. unfold at_rho. cbv beta iota.
  set (t2 := tan T ^ 2).
  match goal with |- (?L = ?R) <-> (?Q = 0) => assert (EQ : Q = L - R) end.
  { transitivity ((x0 tr * x0 tr + y0 tr * y0 tr - t2 * (z0 tr * z0 tr))
      + 2 * rho * (x0 tr * sintheta tr * cosphi tr + y0 tr * sinphi tr * sintheta tr
                   - z0 tr * costheta tr * t2)
      - (- sintheta tr * sintheta tr + costheta tr * costheta tr * t2) * rho * rho
      + rho * rho * sintheta tr * sintheta tr * (cosphi tr * cosphi tr + sinphi tr * sinphi tr - 1)).
    - rewrite HU. ring.
    - ring. }
  rewrite EQ. split; intros; lra.
Qed.

(** Extra X5: If the line of a track meets the cone x^2 + y^2 = tan(T)^2
    z^2, then every finite value returned by rho_of_theta_pos(T) or
    rho_of_theta_neg(T) is a track parameter whose point lies on that cone.
    *)
Theorem rho_of_theta_on_cone p c0 c (T rho0 rho : R)
  (Hmeet : let '(x, y, z) := at_rho (hypo_track p c0 c) rho0 in
           x * x + y * y = tan T ^ 2 * (z * z))
  (Hsol : rho_of_theta_pos (hypo_track p c0 c) T = Fin rho \/
          rho_of_theta_neg (hypo_track p c0 c) T = Fin rho) :
  let '(x, y, z) := at_rho (hypo_track p c0 c) rho in
  x * x + y * y = tan T ^ 2 * (z * z).
Proof.
  pose proof (proj1 (hypo_track_unit p c0 c)) as HU.
  set (tr := hypo_track p c0 c) in *. clearbody tr.
  apply (cone_poly tr T rho HU). apply (cone_poly tr T rho0 HU) in Hmeet.
  unfold rho_of_theta_pos, rho_of_theta_neg, get_M in Hsol. cbv zeta in Hsol.
  set (t2 := tan T ^ 2) in *.
  set (d := - sintheta tr * sintheta tr + costheta tr * costheta tr * t2) in *.
  set (b := x0 tr * sintheta tr * cosphi tr + y0 tr * sinphi tr * sintheta tr
            - z0 tr * costheta tr * t2) in *.
  set (cc := x0 tr * x0 tr + y0 tr * y0 tr - t2 * (z0 tr * z0 tr)) in *.
  destruct (Reqb d 0) eqn:Ed.
  { destruct Hsol; discriminate. }
  assert (Hd : d <> 0) by (unfold Reqb in Ed; destruct (Req_dec_T d 0); [discriminate|assumption]).
  assert (HS : forall S, S = b * b + d * cc
                 - sintheta tr * sintheta tr * (x0 tr * x0 tr + y0 tr * y0 tr)
                   * (cosphi tr * cosphi tr + sinphi tr * sinphi tr - 1) ->
            S = (b - d * rho0) * (b - d * rho0)).
  { intros S ->. rewrite HU. replace cc with (d * rho0 * rho0 - 2 * rho0 * b) by lra. ring. }
  erewrite (if_sqrt_ext _ ((b - d * rho0) * (b - d * rho0))) in Hsol.
  2: { apply HS. unfold b, d, cc. ring. }
  assert (Hsq : 0 <= (b - d * rho0) * (b - d * rho0)) by apply Rle_0_sqr.
  rewrite (Rltb_false _ _ Hsq) in Hsol.
  pose proof (sqrt_sqrt _ Hsq) as HM.
  set (M := sqrt ((b - d * rho0) * (b - d * rho0))) in *.
  apply (quad_root d b cc M rho0 rho Hd Hmeet HM).
  destruct Hsol as [H | H]; injection H as <-.
  - right. field. exact Hd.
  - left. field. exact Hd.
Qed.


(** ** Track.rho_of_phi *)

(** Extra X6: Whenever rho_of_phi(phi) returns a finite value rho, its
    denominator is nonzero and the point at track parameter rho lies on the
    vertical plane of azimuth phi: sin(phi) x = cos(phi) y. *)
Theorem rho_of_phi_on_plane (tr : Track) (phi rho : R)
  (H : rho_of_phi tr phi = Fin rho) :
  cos phi * sinphi tr * sintheta tr - sin phi * cosphi tr * sintheta tr <> 0 /\
  let '(x, y, _) := at_rho tr rho in sin phi * x = cos phi * y.
Proof.
  unfold rho_of_phi, fdiv in H. cbv zeta in H.
  destruct (Reqb (cos phi * sinphi tr * sintheta tr - sin phi * cosphi tr * sintheta tr) 0) eqn:E.
  { destruct (Rltb 0 _); [discriminate|]. destruct (Rltb _ 0); discriminate. }
  assert (Hd : cos phi * sinphi tr * sintheta tr - sin phi * cosphi tr * sintheta tr <> 0).
  { unfold Reqb in E. destruct (Req_dec_T _ 0); [discriminate | assumption]. }
  injection H as <-. split; [exact Hd|]. unfold at_rho. field. exact Hd.
Qed.

Lemma rho_of_phi_on_plane_witness :
  rho_of_phi axis_crossing_track (PI / 2) = Fin 1 /\
  (cos (PI / 2) * sinphi axis_crossing_track * sintheta axis_crossing_track
   - sin (PI / 2) * cosphi axis_crossing_track * sintheta axis_crossing_track <> 0 /\
   let '(x, y, _) := at_rho axis_crossing_track 1 in sin (PI / 2) * x = cos (PI / 2) * y).
Proof.
  assert (E : rho_of_phi axis_crossing_track (PI / 2) = Fin 1).
  { unfold rho_of_phi, axis_crossing_track, axis_crossing_params, mk_track, set_origin, PI_BY_TWO.
    cbn. rewrite sin_PI2, cos_PI2, sin_0, cos_0.
    rewrite Reqb_false by lra. f_equal. field. }
  split; [exact E|]. apply (rho_of_phi_on_plane axis_crossing_track (PI / 2) 1 E).
Defined.

(** ** Spherical coordinates [Hypo.cr], [Hypo.ctheta], [Hypo.cphi] *)

Lemma atan_sign (u : R) : (u <= 0 -> atan u <= 0) /\ (0 <= u -> 0 <= atan u).
Proof.
  pose proof atan_0 as A0.
  split; intros Hu; (destruct (Req_dec u 0) as [->|Hn]; [lra|]).
  - pose proof (atan_increasing u 0 ltac:(lra)); lra.
  - pose proof (atan_increasing 0 u ltac:(lra)); lra.
Qed.

Lemma arctan2_range (y x : R) : - PI < arctan2 y x <= PI.
Proof.
  pose proof PI_RGT_0. pose proof (atan_bound (y / x)).
  unfold arctan2.
  destruct (Rltb 0 x) eqn:E1; [lra|]. apply Rltb_false_inv in E1.
  destruct (Rltb x 0) eqn:E2.
  - apply Rltb_iff in E2. pose proof (Rinv_lt_0_compat x E2).
    destruct (Rleb 0 y) eqn:E3.
    + apply Rleb_iff in E3.
      assert (y / x <= 0) by (unfold Rdiv; nra).
      pose proof (proj1 (atan_sign (y / x)) ltac:(lra)); lra.
    + apply Rleb_false_inv in E3.
      assert (0 < y / x) by (unfold Rdiv; nra).
      pose proof (atan_increasing 0 (y / x) ltac:(lra)). rewrite atan_0 in *. lra.
  - destruct (Rltb 0 y); [lra|]. destruct (Rltb y 0); lra.
Qed.

Lemma cos_sin_add_2PI (v : R) : cos (v + TWO_PI) = cos v /\ sin (v + TWO_PI) = sin v.
Proof.
  unfold TWO_PI. rewrite cos_plus, sin_plus, cos_2PI, sin_2PI. split; ring.
Qed.

Lemma cphi_cos_sin (x y z : R) :
  cos (cphi (x, y, z)) = cos (arctan2 y x) /\ sin (cphi (x, y, z)) = sin (arctan2 y x).
Proof.
  unfold cphi. destruct (Rltb (arctan2 y x) 0); [apply cos_sin_add_2PI | split; reflexivity].
Qed.

Lemma sqrt_scale (a u : R) :
  0 <= a -> sqrt (a * a + a * u * (a * u)) = a * sqrt (1 + u²) /\ 0 < sqrt (1 + u²).
Proof.
  intros Ha. split.
  - replace (a * a + a * u * (a * u)) with ((a * a) * (1 + u²)) by (unfold Rsqr; ring).
    rewrite sqrt_mult by (try apply Rle_0_sqr; pose proof (Rle_0_sqr u); lra).
    rewrite sqrt_square by exact Ha. reflexivity.
  - apply sqrt_lt_R0. pose proof (Rle_0_sqr u); lra.
Qed.

Lemma arctan2_polar (y x : R) :
  sqrt (x * x + y * y) * cos (arctan2 y x) = x /\
  sqrt (x * x + y * y) * sin (arctan2 y x) = y.
Proof.
  unfold arctan2.
  destruct (Rltb 0 x) eqn:E1.
  - apply Rltb_iff in E1. set (u := y / x).
    assert (Hy : y = x * u) by (unfold u; field; lra). rewrite Hy.
    destruct (sqrt_scale x u ltac:(lra)) as [Hs Hk]. rewrite Hs.
    rewrite cos_atan, sin_atan. split; field; lra.
  - apply Rltb_false_inv in E1. destruct (Rltb x 0) eqn:E2.
    + apply Rltb_iff in E2. set (u := y / x).
      assert (Hy : y = x * u) by (unfold u; field; lra).
      destruct (sqrt_scale (- x) u ltac:(lra)) as [Hs Hk].
      replace (x * x + y * y) with (- x * - x + - x * u * (- x * u)) by (rewrite Hy; ring).
      rewrite Hs.
      destruct (Rleb 0 y).
      * rewrite neg_cos, neg_sin, cos_atan, sin_atan. rewrite Hy. split; field; lra.
      * rewrite cos_minus, sin_minus, cos_PI, sin_PI, cos_atan, sin_atan. rewrite Hy.
        split; field; lra.
    + apply Rltb_false_inv in E2. assert (x = 0) by lra. subst x.
      replace (0 * 0 + y * y) with (y * y) by ring.
      destruct (Rltb 0 y) eqn:E3.
      * apply Rltb_iff in E3. rewrite sqrt_square by lra. rewrite cos_PI2, sin_PI2. split; ring.
      * apply Rltb_false_inv in E3. destruct (Rltb y 0) eqn:E4.
        -- apply Rltb_iff in E4. replace (y * y) with (- y * - y) by ring.
           rewrite sqrt_square by lra. rewrite cos_neg, sin_neg, cos_PI2, sin_PI2. split; ring.
        -- apply Rltb_false_inv in E4. assert (y = 0) by lra. subst y.
           replace (0 * 0) with 0 by ring. rewrite sqrt_0. split; ring.
Qed.

(** Extra X7: For every point, cr is nonnegative, ctheta lies in [0, pi] and
    cphi lies in [0, 2 pi). *)
Theorem spherical_ranges (x y z : R) :
  0 <= cr (x, y, z) /\ 0 <= ctheta (x, y, z) <= PI /\ 0 <= cphi (x, y, z) < TWO_PI.
Proof.
  split; [apply sqrt_pos|]. split.
  - unfold ctheta. destruct (Reqb x 0 && Reqb y 0 && Reqb z 0).
    + pose proof PI_RGT_0; lra.
    + apply acos_bound.
  - pose proof (arctan2_range y x). unfold cphi, TWO_PI.
    destruct (Rltb (arctan2 y x) 0) eqn:E.
    + apply Rltb_iff in E. lra.
    + apply Rltb_false_inv in E. lra.
Qed.

(** Extra X8: The spherical coordinates cr, ctheta and cphi of a point give
    the point back: x = r sin(theta) cos(phi), y = r sin(theta) sin(phi) and
    z = r cos(theta), also at the origin and on the z axis. *)
Theorem spherical_round_trip (x y z : R) :
  cr (x, y, z) * sin (ctheta (x, y, z)) * cos (cphi (x, y, z)) = x /\
  cr (x, y, z) * sin (ctheta (x, y, z)) * sin (cphi (x, y, z)) = y /\
  cr (x, y, z) * cos (ctheta (x, y, z)) = z.
Proof.
  destruct (cphi_cos_sin x y z) as [-> ->].
  destruct (arctan2_polar y x) as [Px Py].
  unfold cr, ctheta.
  destruct (Reqb x 0 && Reqb y 0 && Reqb z 0) eqn:E0.
  { apply andb_true_iff in E0 as [E0 E3]. apply andb_true_iff in E0 as [E1 E2].
    unfold Reqb in E1, E2, E3.
    destruct (Req_dec_T x 0); [|discriminate]. destruct (Req_dec_T y 0); [|discriminate].
    destruct (Req_dec_T z 0); [|discriminate]. subst.
    replace (0 * 0 + 0 * 0 + 0 * 0) with 0 by ring. rewrite sqrt_0. repeat split; ring. }
  set (S := x * x + y * y + z * z).
  assert (HS : 0 < S).
  { destruct (Req_dec S 0) as [HS0|HS0].
    - exfalso. assert (x = 0 /\ y = 0 /\ z = 0) as (-> & -> & ->) by (unfold S in HS0; nra).
      rewrite !Reqb_true in E0 by reflexivity. discriminate.
    - unfold S in *. pose proof (sum_sq_nonneg x y z). lra. }
  pose proof (sqrt_lt_R0 S HS) as Hr. pose proof (sqrt_sqrt S ltac:(lra)) as Hrr.
  set (r := sqrt S) in *.
  assert (Hu : -1 <= z / r <= 1).
  { assert (z * z <= r * r) by (rewrite Hrr; unfold S; nra).
    split; [apply (Rmult_le_reg_r r); [lra|] | apply (Rmult_le_reg_r r); [lra|]];
      unfold Rdiv; rewrite Rmult_assoc, Rinv_l by lra; nra. }
  rewrite cos_acos, sin_acos by exact Hu.
  assert (Hxy : r * sqrt (1 - (z / r)²) = sqrt (x * x + y * y)).
  { assert (H1 : 0 <= 1 - (z / r)²).
    { destruct Hu. unfold Rsqr. nra. }
    rewrite <- (sqrt_square r) at 1 by lra.
    rewrite <- sqrt_mult by (try apply Rle_0_sqr; try lra; nra).
    f_equal. unfold Rsqr. transitivity (r * r - z * z); [field; lra|].
    rewrite Hrr. unfold S. ring. }
  rewrite Hxy. repeat split; [exact Px | exact Py | field; lra].
Qed.


(** ** Bin centres and correlators *)

Lemma nth_pairs (l : list R) (i : nat) :
  (S i < List.length l)%nat -> nth i (pairs l) (0, 0) = (nth i l 0, nth (S i) l 0).
Proof.
  revert i; induction l as [|a l IH]; intros i Hi; simpl in Hi; [lia|].
  destruct l as [|b l]; simpl in Hi; [lia|].
  destruct i as [|i]; [reflexivity|].
  change (pairs (a :: b :: l)) with ((a, b) :: pairs (b :: l)). cbn [nth].
  apply IH. simpl; lia.
Qed.

Lemma increasing_step (l : list R) (i : nat) :
  increasing l -> (S i < List.length l)%nat -> nth i l 0 < nth (S i) l 0.
Proof.
  revert i; induction l as [|a l IH]; intros i Hinc Hi; simpl in Hi; [lia|].
  destruct l as [|b l]; simpl in Hi; [lia|].
  destruct Hinc as [Hab Hinc]. destruct i as [|i]; [exact Hab|].
  cbn [nth]. apply IH; [exact Hinc | simpl; lia].
Qed.

Lemma bin_centers_nth (edges : list R) (i : nat) :
  (S i < List.length edges)%nat ->
  nth i (bin_centers edges) 0 = (nth i edges 0 + nth (S i) edges 0) / 2.
Proof.
  intros Hi. unfold bin_centers.
  set (f := fun b : R * R => (fst b + snd b) / 2).
  rewrite (nth_indep _ 0 (f (0, 0))) by (rewrite length_map, pairs_length; lia).
  rewrite (map_nth f (pairs edges) (0, 0) i), nth_pairs by exact Hi. reflexivity.
Qed.

(** Extra X9: For strictly increasing bin edges, the i-th bin center
    computed by set_binning exists for every bin i and get_bin maps it back
    to bin i. *)
Theorem bin_centers_in_bins (edges : list R) (i : nat)
  (Hinc : increasing edges) (Hi : (S i < List.length edges)%nat) :
  (i < List.length (bin_centers edges))%nat /\
  get_bin (nth i (bin_centers edges) 0) edges = Some i.
Proof.
  split.
  - unfold bin_centers. rewrite length_map, pairs_length. lia.
  - rewrite bin_centers_nth by exact Hi. pose proof (increasing_step edges i Hinc Hi).
    unfold get_bin. apply get_bin_from_some; [exact Hinc|].
    rewrite Nat.sub_0_r. repeat split; [lia | exact Hi | lra | lra].
Qed.

Lemma bin_centers_in_bins_witness :
  increasing [0; 1; 3] /\ (2 < List.length [0%R; 1%R; 3%R])%nat /\
  ((1 < List.length (bin_centers [0%R; 1%R; 3%R]))%nat /\
   get_bin (nth 1 (bin_centers [0; 1; 3]) 0) [0; 1; 3] = Some 1%nat).
Proof.
  assert (Hinc : increasing [0; 1; 3]) by (simpl; repeat split; lra).
  assert (Hi : (2 < List.length [0%R; 1%R; 3%R])%nat) by (simpl; lia).
  split; [exact Hinc|]. split; [exact Hi|].
  apply (bin_centers_in_bins [0; 1; 3] 1 Hinc Hi).
Defined.

Lemma sorted2F_fin (a b : R) :
  exists a' b', sorted2F (Fin a, Fin b) = (Fin a', Fin b') /\ a' <= b' /\
                ((a' = a /\ b' = b) \/ (a' = b /\ b' = a)).
Proof.
  unfold sorted2F, flt. destruct (Rltb b a) eqn:E.
  - apply Rltb_iff in E. exists b, a. split; [reflexivity|]. split; [lra | right; auto].
  - apply Rltb_false_inv in E. exists a, b. split; [reflexivity|]. split; [lra | left; auto].
Qed.

(** Extra X10: correlate_r returns one interval per radius bin, and each is
    either the sentinel (-1, -1) or a finite interval (a, b) with a <= b; no
    NaN or infinite bound occurs. *)
Theorem correlate_r_intervals (tr : Track) (edges : list R) (t : R * R) (pos : bool) :
  List.length (correlate_r tr edges t pos) = (List.length edges - 1)%nat /\
  Forall (fun iv => iv = sentinel \/ exists a b, iv = (Fin a, Fin b) /\ a <= b)
    (correlate_r tr edges t pos).
Proof.
  unfold correlate_r. destruct t as [ta tz]. split.
  - rewrite length_map. apply pairs_length.
  - apply Forall_forall. intros iv Hin. apply in_map_iff in Hin as [[b0 b1] [<- _]].
    destruct (Rleb b0 tz && Rleb ta b1); [|left; reflexivity]. right.
    destruct (_ || _);
      match goal with |- exists a b, sorted2F (Fin ?x, Fin ?y) = _ /\ _ =>
        destruct (sorted2F_fin x y) as (a' & b' & -> & Hle & _); exists a', b'; auto end.
Qed.

Lemma rho_of_theta_not_nan_pos tr T : rho_of_theta_pos tr T = PInf \/ exists a, rho_of_theta_pos tr T = Fin a.
Proof. unfold rho_of_theta_pos. destruct (Reqb _ 0); [left | right; eexists]; reflexivity. Qed.

Lemma rho_of_theta_not_nan_neg tr T : rho_of_theta_neg tr T = PInf \/ exists a, rho_of_theta_neg tr T = Fin a.
Proof. unfold rho_of_theta_neg. destruct (Reqb _ 0); [left | right; eexists]; reflexivity. Qed.

Lemma sorted2F_ordered (x y : F) :
  (x = PInf \/ exists a, x = Fin a) -> (y = PInf \/ exists a, y = Fin a) ->
  fle (fst (sorted2F (x, y))) (snd (sorted2F (x, y))) = true.
Proof.
  intros [->|[a ->]] [->|[b ->]]; unfold sorted2F; simpl; try reflexivity.
  unfold flt. destruct (Rltb b a) eqn:E; simpl.
  - apply Rltb_iff in E. apply Rleb_true. lra.
  - apply Rltb_false_inv in E. apply Rleb_true. lra.
Qed.

(** Extra X11: correlate_theta returns one interval per theta bin, and each
    is the sentinel (-1, -1), the whole rho_extent, or an interval whose
    bounds are not NaN and are ordered. *)
Theorem correlate_theta_intervals (tr : Track) (edges : list R) (t : option (R * R))
  (rho_extent : R * R) :
  List.length (correlate_theta tr edges t rho_extent) = (List.length edges - 1)%nat /\
  Forall (fun iv => iv = sentinel \/ iv = liftR rho_extent \/ fle (fst iv) (snd iv) = true)
    (correlate_theta tr edges t rho_extent).
Proof.
  unfold correlate_theta. split.
  - rewrite length_map. apply pairs_length.
  - apply Forall_forall. intros iv Hin. apply in_map_iff in Hin as [[b0 b1] [<- _]].
    destruct t as [[ta tz]|]; [|left; reflexivity].
    repeat match goal with |- context [if ?c then _ else _] => destruct c end;
      try (left; reflexivity); try (right; left; reflexivity);
      right; right; apply sorted2F_ordered;
      first [apply rho_of_theta_not_nan_pos | apply rho_of_theta_not_nan_neg].
Qed.



(** ** Populated cells of [compute_matrices] *)

Lemma fold_left_inv {A B : Type} (f : B -> A -> B) (Q : B -> Prop) (l : list A) (z : B) :
  Q z -> (forall a y, In a l -> Q y -> Q (f y a)) -> Q (fold_left f l z).
Proof.
  revert z; induction l as [|a l IH]; intros z Hz Hf; simpl; [exact Hz|].
  apply IH; [apply Hf; [left; reflexivity | exact Hz] | intros; apply Hf; [right|]; auto].
Qed.

Lemma sparse_set_shape b z kk v :
  cells_in_shape b z -> in_shape b kk -> cells_in_shape b (sparse_set z kk v).
Proof.
  unfold cells_in_shape. induction z as [|[k' v'] z IH]; intros Hz Hk; simpl.
  - constructor; [exact Hk | constructor].
  - inversion Hz; subst. destruct (key_eqb k' kk); constructor; auto.
Qed.

Lemma sparse_add_shape b z kk v :
  cells_in_shape b z -> in_shape b kk -> cells_in_shape b (sparse_add z kk v).
Proof. apply sparse_set_shape. Qed.

Lemma enum_from_bound {A : Type} (n j : nat) (x : A) (l : list A) :
  In (j, x) (enum_from n l) -> (n <= j < n + List.length l)%nat.
Proof.
  revert n; induction l as [|a l IH]; intros n H; simpl in H; [contradiction|].
  destruct H as [H|H]; [injection H as <- _; simpl; lia|].
  apply IH in H. simpl; lia.
Qed.

Lemma combos_keys k phis thn thp rn rp kk r th ph :
  In (kk, r, th, ph) (combos k phis thn thp rn rp) ->
  let '(k', j, m, i) := kk in
  k' = k /\ (i < List.length phis)%nat /\
  ((m < List.length thn)%nat \/ (m < List.length thp)%nat) /\
  ((j < List.length rn)%nat \/ (j < List.length rp)%nat).
Proof.
  unfold combos. intros Hc.
  apply in_flat_map in Hc as [[i ph'] [Hi Hc]]. apply enum_from_bound in Hi. simpl in Hc.
  destruct (no_overlap ph'); [contradiction|].
  assert (Hr : forall m th' (rl : list interval),
    In (kk, r, th, ph) (flat_map (fun jr : nat * interval =>
      if no_overlap (snd jr) then [] else [((k, fst jr, m, i), snd jr, th', ph')])
      (enum_from 0 rl)) ->
    exists j, kk = (k, j, m, i) /\ (j < List.length rl)%nat).
  { intros m th' rl Hin. apply in_flat_map in Hin as [[j r'] [Hj Hin]].
    apply enum_from_bound in Hj. simpl in Hin.
    destruct (no_overlap r'); [contradiction|]. destruct Hin as [Hin|[]].
    injection Hin as <- _ _ _. exists j. split; [reflexivity | lia]. }
  assert (Hth : forall thl, In (kk, r, th, ph) (flat_map (fun mt : nat * interval =>
      if no_overlap (snd mt) then []
      else flat_map (fun jr : nat * interval =>
             if no_overlap (snd jr) then [] else [((k, fst jr, fst mt, i), snd jr, snd mt, ph')])
             (enum_from 0 rn)
           ++ flat_map (fun jr : nat * interval =>
             if no_overlap (snd jr) then [] else [((k, fst jr, fst mt, i), snd jr, snd mt, ph')])
             (enum_from 0 rp)) (enum_from 0 thl)) ->
    exists j m, kk = (k, j, m, i) /\ (m < List.length thl)%nat /\
      ((j < List.length rn)%nat \/ (j < List.length rp)%nat)).
  { intros thl Hin. apply in_flat_map in Hin as [[m th'] [Hm Hin]].
    apply enum_from_bound in Hm. simpl in Hin.
    destruct (no_overlap th'); [contradiction|].
    apply in_app_or in Hin as [Hin|Hin]; apply Hr in Hin as (j & -> & Hj);
      (exists j, m; split; [reflexivity|]; split; [lia | auto]). }
  apply in_app_or in Hc as [Hc|Hc]; apply Hth in Hc as (j & m & -> & Hm & Hj);
    cbn beta iota; (split; [reflexivity|]); (split; [lia|]); split; auto.
Qed.

Lemma correlate_lengths tr edges t te pos (rho_extent : R * R) (tt : R * R) :
  List.length (correlate_theta tr edges t rho_extent) = (List.length edges - 1)%nat /\
  List.length (correlate_phi tr edges tt rho_extent) = (List.length edges - 1)%nat /\
  List.length (correlate_r tr edges te pos) = (List.length edges - 1)%nat.
Proof.
  unfold correlate_theta, correlate_phi, correlate_r.
  destruct tt, te. rewrite !length_map, !pairs_length. auto.
Qed.

Section TrackLoopInvariant.
(** A property of sparse matrices kept by every store into a cell within
    the binning. *)
Variable b : Binning.
Variable Q : Sparse -> Prop.
Hypothesis HQ : forall z kk v, Q z -> in_shape b kk -> Q (sparse_set z kk v).

Lemma deposit_inv z kk r th ph ppm :
  Q z -> in_shape b kk -> Q (deposit z kk r th ph ppm).
Proof.
  intros Hz Hk. unfold deposit. destruct (fle _ _); [apply HQ|]; assumption.
Qed.

Lemma inner_loop_inv z k phis thn thp rn rp ppm :
  Q z ->
  (S k < List.length (b_t b))%nat ->
  List.length phis = (List.length (b_phi b) - 1)%nat ->
  List.length thn = (List.length (b_theta b) - 1)%nat ->
  List.length thp = (List.length (b_theta b) - 1)%nat ->
  List.length rn = (List.length (b_r b) - 1)%nat ->
  List.length rp = (List.length (b_r b) - 1)%nat ->
  Q (inner_loop z k phis thn thp rn rp ppm).
Proof.
  intros Hz Hk H1 H2 H3 H4 H5. rewrite inner_loop_combos.
  apply fold_left_inv; [exact Hz|].
  intros [[[kk r] th] ph] y Hin Hy. apply combos_keys in Hin.
  apply deposit_inv; [exact Hy|].
  destruct kk as [[[k' j] m] i]. destruct Hin as (-> & Hi & Hm & Hj).
  unfold in_shape. repeat split; lia.
Qed.

Lemma time_step_inv h tr tbv r_infl tsv theta_infl k tbin z z' :
  Q z -> (S k < List.length (b_t b))%nat ->
  time_step h b tr tbv r_infl tsv theta_infl k tbin z = Some z' ->
  Q z'.
Proof.
  intros Hz Hk H. unfold time_step in H. cbv zeta in H.
  repeat match type of H with context [match ?x with _ => _ end] => destruct x end;
    try discriminate; injection H as <-; try exact Hz;
    apply inner_loop_inv; try exact Hz; try exact Hk;
    unfold correlate_theta, correlate_phi, correlate_r;
    repeat match goal with |- context [let (_, _) := ?x in _] => destruct x end;
    rewrite length_map, pairs_length; reflexivity.
Qed.

Lemma track_loop_inv h c z :
  Q [] -> track_loop h b c = Some z -> Q z.
Proof.
  intros H0. unfold track_loop. cbv zeta. rewrite fold_idx_enum.
  set (tr := set_origin (track h) c).
  match goal with |- fold_left ?f _ _ = _ -> _ =>
    set (g := f) end.
  intros H.
  assert (Hinv : forall o, fold_left g (enum_from 0 (pairs (b_t b))) (Some []) = o ->
                 match o with Some z => Q z | None => True end).
  { intros o <-. apply fold_left_inv; [exact H0|].
    intros [k tbin] [y|] Hin Hy; unfold g; cbn beta iota zeta; [|exact I].
    apply enum_from_bound in Hin. rewrite pairs_length in Hin.
    destruct (time_step _ _ _ _ _ _ _ _ _ _) as [y'|] eqn:E; [|exact I].
    eapply time_step_inv; [exact Hy | | exact E]. simpl. lia. }
  apply (Hinv _ H).
Qed.

End TrackLoopInvariant.

Lemma track_loop_shape h b c z :
  track_loop h b c = Some z -> cells_in_shape b z.
Proof.
  apply (track_loop_inv b (cells_in_shape b)); [apply sparse_set_shape | constructor].
Qed.

Lemma get_bin_from_bound (k0 k : nat) (v : R) (l : list R) :
  get_bin_from k0 v l = Some k -> (k0 <= k)%nat /\ (S (k - k0) < List.length l)%nat.
Proof.
  revert k0; induction l as [|a l IH]; intros k0 H; [discriminate|].
  destruct l as [|b' l]; [discriminate|].
  cbn [get_bin_from] in H. destruct (Rleb a v && Rltb v b').
  - injection H as <-. rewrite Nat.sub_diag. simpl; lia.
  - apply IH in H. simpl in *; lia.
Qed.

Lemma cascade_bins_shape tr b cell : cascade_bins tr b = Some cell -> in_shape b cell.
Proof.
  unfold cascade_bins, get_bin.
  destruct (get_bin_from 0 (t0 tr) (b_t b)) as [it|] eqn:E1; [|discriminate].
  destruct (get_bin_from 0 _ (b_r b)) as [ir|] eqn:E2; [|discriminate].
  destruct (get_bin_from 0 _ (b_theta b)) as [ith|] eqn:E3; [|discriminate].
  destruct (get_bin_from 0 _ (b_phi b)) as [iph|] eqn:E4; [|discriminate].
  intros H; injection H as <-.
  apply get_bin_from_bound in E1, E2, E3, E4. rewrite !Nat.sub_0_r in *.
  unfold in_shape. tauto.
Qed.

Lemma add_angles_shape h b counts :
  cells_in_shape b counts ->
  let '(ct, cp, cl) := add_angles h b counts in
  cells_in_shape b ct /\ cells_in_shape b cp /\ cells_in_shape b cl.
Proof.
  intros Hc. unfold add_angles.
  apply fold_left_inv.
  - repeat split; constructor.
  - intros e [[ct cp] cl] Hin (H1 & H2 & H3).
    destruct e as [[[[a b1] c1] d1] v]. cbn beta iota.
    assert (Hk : in_shape b (a, b1, c1, d1)).
    { apply (proj1 (Forall_forall _ _) Hc _ Hin). }
    repeat split; apply sparse_set_shape; assumption.
Qed.

(** Extra X12: Every cell populated in any of the four matrices returned by
    compute_matrices has its four indices within the binning's shape (number
    of edges minus 1 on each axis). *)
Theorem compute_matrices_cells_in_shape (h : Hypo) (b : Binning) (c : TimeSpaceCoord)
  (M : Matrices) (HM : compute_matrices h b c = Some M) :
  cells_in_shape b (photon_counts M) /\ cells_in_shape b (photon_corr_theta M) /\
  cells_in_shape b (photon_corr_phi M) /\ cells_in_shape b (photon_corr_len M).
Proof.
  unfold compute_matrices in HM.
  destruct (track_loop h b c) as [counts|] eqn:Et; [|discriminate].
  apply track_loop_shape in Et.
  pose proof (add_angles_shape h b counts Et) as Ha.
  destruct (add_angles h b counts) as [[ct cp] cl]. destruct Ha as (Hct & Hcp & Hcl).
  unfold add_cascade in HM.
  destruct (cascade_bins (set_origin (track h) c) b) as [cell|] eqn:Ec.
  - apply cascade_bins_shape in Ec.
    destruct (match fadd _ _ with Fin s => Reqb s 0 | _ => false end); [discriminate|].
    injection HM as <-. cbn. repeat split; try assumption.
    + apply sparse_add_shape; assumption.
    + apply sparse_set_shape; assumption.
  - injection HM as <-. cbn. repeat split; assumption.
Qed.

Lemma compute_matrices_cells_in_shape_witness :
  exists M, compute_matrices upgoing_hypo single_bins origin0 = Some M /\
    (cells_in_shape single_bins (photon_counts M) /\ cells_in_shape single_bins (photon_corr_theta M) /\
     cells_in_shape single_bins (photon_corr_phi M) /\ cells_in_shape single_bins (photon_corr_len M)).
Proof.
  destruct upgoing_compute_matrices as [M [HM _]].
  exists M. split; [exact HM|].
  exact (compute_matrices_cells_in_shape upgoing_hypo single_bins origin0 M HM).
Defined.


(** ** Keys and values of the sparse matrices *)

Lemma key_eqb_eq (a b : key) : key_eqb a b = true <-> a = b.
Proof.
  destruct a as [[[a1 a2] a3] a4], b as [[[b1 b2] b3] b4]. unfold key_eqb.
  rewrite !andb_true_iff, !Nat.eqb_eq. split.
  - intros (((-> & ->) & ->) & ->). reflexivity.
  - intros H. injection H as -> -> -> ->. tauto.
Qed.

Lemma sparse_set_forall (P : key * F -> Prop) z k v :
  Forall P z -> P (k, v) -> Forall P (sparse_set z k v).
Proof.
  induction z as [|[k' v'] z IH]; intros Hz Hk; simpl.
  - constructor; [exact Hk | constructor].
  - inversion Hz; subst. destruct (key_eqb k' k) eqn:E.
    + apply key_eqb_eq in E. subst. constructor; assumption.
    + constructor; auto.
Qed.

Lemma sparse_set_keys_new z k v :
  ~ In k (map fst z) -> map fst (sparse_set z k v) = map fst z ++ [k].
Proof.
  induction z as [|[k' v'] z IH]; intros Hn; simpl; [reflexivity|].
  destruct (key_eqb k' k) eqn:E.
  - apply key_eqb_eq in E. subst. exfalso. apply Hn. left. reflexivity.
  - simpl. rewrite IH; [reflexivity|]. intros H. apply Hn. right. exact H.
Qed.

Lemma sparse_set_keys_old z k v :
  In k (map fst z) -> map fst (sparse_set z k v) = map fst z.
Proof.
  induction z as [|[k' v'] z IH]; intros Hin; simpl; [contradiction|].
  destruct (key_eqb k' k) eqn:E; simpl; [reflexivity|].
  f_equal. apply IH. destruct Hin as [H|H]; [|exact H]. simpl in H. subst.
  rewrite (proj2 (key_eqb_eq k k) eq_refl) in E. discriminate.
Qed.

Lemma NoDup_snoc {A : Type} (l : list A) (x : A) :
  NoDup l -> ~ In x l -> NoDup (l ++ [x]).
Proof.
  induction l as [|a l IH]; intros Hl Hx; simpl.
  - constructor; [intros []|constructor].
  - inversion Hl; subst. constructor.
    + intros H. apply in_app_or in H as [H|[H|[]]]; [contradiction|]. subst.
      apply Hx. left. reflexivity.
    + apply IH; [assumption|]. intros H. apply Hx. right. exact H.
Qed.

Lemma key_eq_dec (a b : key) : {a = b} + {a <> b}.
Proof. repeat decide equality. Defined.

Lemma sparse_set_nodup z k v : NoDup (map fst z) -> NoDup (map fst (sparse_set z k v)).
Proof.
  intros Hz. destruct (in_dec key_eq_dec k (map fst z)) as [H|H].
  - rewrite sparse_set_keys_old by exact H. exact Hz.
  - rewrite sparse_set_keys_new by exact H. apply NoDup_snoc; assumption.
Qed.

Lemma track_loop_nodup h b c z :
  track_loop h b c = Some z -> NoDup (map fst z).
Proof.
  apply (track_loop_inv b (fun z => NoDup (map fst z))); [|constructor].
  intros; apply sparse_set_nodup; assumption.
Qed.

Lemma add_angles_keys h b counts :
  NoDup (map fst counts) ->
  let '(ct, cp, cl) := add_angles h b counts in
  map fst ct = map fst counts /\ map fst cp = map fst counts /\ map fst cl = map fst counts.
Proof.
  unfold add_angles.
  match goal with |- context [fold_left ?f counts _] => set (g := f) end.
  assert (Gen : forall rest ct cp cl : Sparse,
    NoDup (map fst ct ++ map fst rest) -> map fst cp = map fst ct -> map fst cl = map fst ct ->
    let '(ct', cp', cl') := fold_left g rest (ct, cp, cl) in
    map fst ct' = map fst ct ++ map fst rest /\ map fst cp' = map fst ct ++ map fst rest /\
    map fst cl' = map fst ct ++ map fst rest).
  { induction rest as [|e rest IH]; intros ct cp cl Hnd Hp Hl; simpl.
    - rewrite app_nil_r. auto.
    - destruct e as [[[[a b1] c1] d1] v]. cbn [fst] in *.
      assert (Hn : ~ In (a, b1, c1, d1) (map fst ct)).
      { intros Hin. apply NoDup_remove_2 in Hnd. apply Hnd. apply in_or_app. left. exact Hin. }
      unfold g at 1. cbn beta iota.
      set (ct1 := sparse_set ct (a, b1, c1, d1) (Fin (tp_zenith (params (track h))))).
      set (cp1 := sparse_set cp (a, b1, c1, d1) _).
      set (cl1 := sparse_set cl (a, b1, c1, d1) (Fin 1)).
      assert (E1 : map fst ct1 = map fst ct ++ [(a, b1, c1, d1)])
        by (apply sparse_set_keys_new; exact Hn).
      assert (E2 : map fst cp1 = map fst ct ++ [(a, b1, c1, d1)])
        by (unfold cp1; rewrite sparse_set_keys_new by (rewrite Hp; exact Hn); rewrite Hp; reflexivity).
      assert (E3 : map fst cl1 = map fst ct ++ [(a, b1, c1, d1)])
        by (unfold cl1; rewrite sparse_set_keys_new by (rewrite Hl; exact Hn); rewrite Hl; reflexivity).
      specialize (IH ct1 cp1 cl1).
      rewrite E1, <- app_assoc in IH. simpl in IH.
      specialize (IH Hnd E2 E3).
      fold g. destruct (fold_left g rest (ct1, cp1, cl1)) as [[ct' cp'] cl'].
      exact IH. }
  intros Hnd. specialize (Gen counts [] [] [] Hnd eq_refl eq_refl).
  simpl app in Gen. exact Gen.
Qed.


Lemma pairs_forall (P : R -> Prop) l :
  Forall P l -> Forall (fun p => P (fst p) /\ P (snd p)) (pairs l).
Proof.
  induction l as [|a l IH]; intros H; simpl; [constructor|].
  destruct l as [|b l]; [constructor|].
  inversion H as [|? ? Ha Hl]; subst. inversion Hl as [|? ? Hb _]; subst.
  constructor; [split; assumption | apply IH; exact Hl].
Qed.

Lemma bin_centers_range lo hi edges :
  Forall (fun e => lo <= e <= hi) edges -> Forall (fun e => lo <= e <= hi) (bin_centers edges).
Proof.
  intros H. unfold bin_centers. apply Forall_map.
  eapply Forall_impl; [|apply pairs_forall; exact H].
  intros [a b] [Ha Hb]; simpl in *. lra.
Qed.

Lemma nth_forall {A} (P : A -> Prop) l i d : Forall P l -> P d -> P (nth i l d).
Proof.
  intros H Hd. revert i; induction H as [|x l Hx Hl IH]; intros [|i]; simpl; auto.
Qed.

Lemma delta_phi_range phi az :
  0 <= phi <= TWO_PI -> 0 <= az <= TWO_PI ->
  0 <= (if Rleb (Rabs (phi - az)) PI then Rabs (phi - az) else TWO_PI - Rabs (phi - az)) <= PI.
Proof.
  intros Hp Ha. pose proof PI_RGT_0. unfold TWO_PI in *.
  destruct (Rleb (Rabs (phi - az)) PI) eqn:E.
  - apply Rleb_iff in E. split; [apply Rabs_pos | exact E].
  - apply Rleb_false_inv in E.
    assert (Rabs (phi - az) <= 2 * PI) by (apply Rabs_le; lra). lra.
Qed.

Lemma add_angles_values h b counts :
  0 <= tp_azimuth (params (track h)) <= TWO_PI ->
  Forall (fun e => 0 <= e <= TWO_PI) (b_phi b) ->
  let '(ct, cp, cl) := add_angles h b counts in
  Forall (fun e => snd e = Fin (tp_zenith (params (track h)))) ct /\
  Forall (fun e => exists d, snd e = Fin d /\ 0 <= d <= PI) cp /\
  Forall (fun e => snd e = Fin 1) cl.
Proof.
  intros Haz Hphi. unfold add_angles.
  apply (fold_left_inv _ (fun acc => let '(ct, cp, cl) := acc in
    Forall (fun e => snd e = Fin (tp_zenith (params (track h)))) ct /\
    Forall (fun e => exists d, snd e = Fin d /\ 0 <= d <= PI) cp /\
    Forall (fun e => snd e = Fin 1) cl)).
  - repeat split; constructor.
  - intros [[[[a b1] c1] d1] v] [[ct cp] cl] _ (H1 & H2 & H3). cbn beta iota.
    repeat split; apply sparse_set_forall; auto.
    eexists; split; [reflexivity|]. apply delta_phi_range; [|exact Haz].
    apply nth_forall; [apply bin_centers_range; exact Hphi|].
    pose proof PI_RGT_0. unfold TWO_PI. lra.
Qed.

(** Extra X13: After compute_matrices, every photon_corr_theta entry is the
    track zenith, every photon_corr_phi entry is a finite angle in [0, pi]
    (when the azimuth and the phi edges lie in [0, 2 pi]), and every
    photon_corr_len entry is 1 except possibly the cascade's cell. *)
Theorem compute_matrices_directions h b c M
  (HM : compute_matrices h b c = Some M)
  (Haz : 0 <= tp_azimuth (params (track h)) <= TWO_PI)
  (Hphi : Forall (fun e => 0 <= e <= TWO_PI) (b_phi b)) :
  Forall (fun e => snd e = Fin (tp_zenith (params (track h)))) (photon_corr_theta M) /\
  Forall (fun e => exists d, snd e = Fin d /\ 0 <= d <= PI) (photon_corr_phi M) /\
  Forall (fun e => snd e = Fin 1 \/ cascade_bins (set_origin (track h) c) b = Some (fst e))
    (photon_corr_len M).
Proof.
  unfold compute_matrices in HM.
  destruct (track_loop h b c) as [counts|]; [|discriminate].
  pose proof (add_angles_values h b counts Haz Hphi) as HV.
  destruct (add_angles h b counts) as [[ct cp] cl].
  destruct HV as (H1 & H2 & H3).
  unfold add_cascade in HM.
  destruct (cascade_bins (set_origin (track h) c) b) as [cell|] eqn:Ec.
  - destruct (match fadd (sparse_get counts cell) (Fin (cascade_photons h)) with
              | Fin s => Reqb s 0 | _ => false end); [discriminate|].
    injection HM as <-. simpl. repeat split; auto.
    apply sparse_set_forall; [|right; reflexivity].
    eapply Forall_impl; [|exact H3]. intros e He; left; exact He.
  - injection HM as <-. simpl. repeat split; auto.
    eapply Forall_impl; [|exact H3]. intros e He; left; exact He.
Qed.

Lemma compute_matrices_directions_witness :
  exists M, compute_matrices upgoing_hypo single_bins origin0 = Some M /\
  Forall (fun e => snd e = Fin (tp_zenith (params (track upgoing_hypo)))) (photon_corr_theta M) /\
  Forall (fun e => exists d, snd e = Fin d /\ 0 <= d <= PI) (photon_corr_phi M) /\
  Forall (fun e => snd e = Fin 1 \/
    cascade_bins (set_origin (track upgoing_hypo) origin0) single_bins = Some (fst e))
    (photon_corr_len M).
Proof.
  destruct upgoing_compute_matrices as [M [HM _]].
  exists M. split; [exact HM|].
  apply (compute_matrices_directions upgoing_hypo single_bins origin0 M HM).
  - simpl. unfold TWO_PI. pose proof PI_RGT_0. lra.
  - simpl. unfold TWO_PI. pose proof PI_RGT_0. repeat constructor; lra.
Defined.

(** Extra X14: compute_matrices populates each cell at most once in
    photon_counts; photon_corr_theta and photon_corr_phi have exactly the
    cells of the track deposits, photon_corr_len has the cells of
    photon_counts, and the cascade adds at most one new cell, its own, at
    the end. *)
Theorem compute_matrices_populated h b c counts M
  (Ht : track_loop h b c = Some counts)
  (HM : compute_matrices h b c = Some M) :
  NoDup (map fst (photon_counts M)) /\
  map fst (photon_corr_theta M) = map fst counts /\
  map fst (photon_corr_phi M) = map fst counts /\
  map fst (photon_corr_len M) = map fst (photon_counts M) /\
  (map fst (photon_counts M) = map fst counts \/
   exists cell, cascade_bins (set_origin (track h) c) b = Some cell /\
     ~ In cell (map fst counts) /\ map fst (photon_counts M) = map fst counts ++ [cell]).
Proof.
  pose proof (track_loop_nodup h b c counts Ht) as Hnd.
  unfold compute_matrices in HM. rewrite Ht in HM.
  pose proof (add_angles_keys h b counts Hnd) as HK.
  destruct (add_angles h b counts) as [[ct cp] cl].
  destruct HK as (K1 & K2 & K3).
  unfold add_cascade in HM.
  destruct (cascade_bins (set_origin (track h) c) b) as [cell|] eqn:Ec.
  - destruct (match fadd (sparse_get counts cell) (Fin (cascade_photons h)) with
              | Fin s => Reqb s 0 | _ => false end); [discriminate|].
    injection HM as <-. simpl. unfold sparse_add.
    destruct (in_dec key_eq_dec cell (map fst counts)) as [Hin|Hin].
    + rewrite !sparse_set_keys_old by (try rewrite K3; exact Hin).
      repeat split; auto.
    + rewrite !sparse_set_keys_new by (try rewrite K3; exact Hin).
      rewrite K3. repeat split; auto.
      * apply NoDup_snoc; assumption.
      * right. exists cell. auto.
  - injection HM as <-. simpl. repeat split; auto.
Qed.

Lemma compute_matrices_populated_witness :
  exists M, compute_matrices upgoing_hypo single_bins origin0 = Some M /\
  NoDup (map fst (photon_counts M)) /\
  map fst (photon_corr_theta M) = [(0, 0, 0, 0)%nat] /\
  map fst (photon_corr_phi M) = [(0, 0, 0, 0)%nat] /\
  map fst (photon_corr_len M) = map fst (photon_counts M) /\
  (map fst (photon_counts M) = [(0, 0, 0, 0)%nat] \/
   exists cell, cascade_bins (set_origin (track upgoing_hypo) origin0) single_bins = Some cell /\
     ~ In cell [(0, 0, 0, 0)%nat] /\ map fst (photon_counts M) = [(0, 0, 0, 0)%nat] ++ [cell]).
Proof.
  destruct upgoing_compute_matrices as [M [HM _]].
  exists M. split; [exact HM|].
  exact (compute_matrices_populated upgoing_hypo single_bins origin0 _ M upgoing_track_loop HM).
Defined.

Lemma upgoing_hypo_track :
  hypo_track (hypo_to_track_params upgoing_params) origin0 origin0 = upgoing_track.
Proof. exact upgoing_track_eq. Qed.

Lemma rho_of_t_distance_witness :
  point (hypo_track (hypo_to_track_params upgoing_params) origin0 origin0) 2
    = Some (0, 0, SPEED_OF_LIGHT_M_PER_NS * (2 - 1)) /\
  let tr := hypo_track (hypo_to_track_params upgoing_params) origin0 origin0 in
  0 <= rho_of_t tr 2 <= length tr /\
  (0 - x0 tr) * (0 - x0 tr) + (0 - y0 tr) * (0 - y0 tr)
    + (SPEED_OF_LIGHT_M_PER_NS * (2 - 1) - z0 tr) * (SPEED_OF_LIGHT_M_PER_NS * (2 - 1) - z0 tr)
  = rho_of_t tr 2 * rho_of_t tr 2.
Proof.
  assert (Hp : point (hypo_track (hypo_to_track_params upgoing_params) origin0 origin0) 2
               = Some (0, 0, SPEED_OF_LIGHT_M_PER_NS * (2 - 1))).
  { rewrite upgoing_hypo_track. apply upgoing_point. pose proof c_bounds.
    split; [lra|]. assert (1 < 1 / SPEED_OF_LIGHT_M_PER_NS); [|lra].
    apply (Rmult_lt_reg_r SPEED_OF_LIGHT_M_PER_NS); [lra|]. field_simplify; lra. }
  split; [exact Hp|].
  exact (rho_of_t_distance _ _ _ 2 0 0 _ Hp).
Defined.

Lemma extent_rho_extent_witness :
  0 <= dt upgoing_track /\ 0 <= 10 /\
  extent upgoing_track 0 10 = Some (1, 1 + 1 / SPEED_OF_LIGHT_M_PER_NS) /\
  1 <= 1 + 1 / SPEED_OF_LIGHT_M_PER_NS /\
  point upgoing_track 1 <> None /\ point upgoing_track (1 + 1 / SPEED_OF_LIGHT_M_PER_NS) <> None /\
  0 <= rho_of_t upgoing_track 1 <= rho_of_t upgoing_track (1 + 1 / SPEED_OF_LIGHT_M_PER_NS) /\
  rho_of_t upgoing_track (1 + 1 / SPEED_OF_LIGHT_M_PER_NS)
    <= dt upgoing_track * SPEED_OF_LIGHT_M_PER_NS.
Proof.
  assert (Hdt : 0 <= dt upgoing_track).
  { simpl. pose proof c_bounds. apply Rlt_le, Rdiv_lt_0_compat; lra. }
  assert (Hw : 0 <= 10) by lra.
  split; [exact Hdt|]. split; [exact Hw|]. split; [exact upgoing_extent|].
  exact (extent_rho_extent upgoing_track 0 10 _ _ Hdt Hw upgoing_extent).
Defined.

Lemma rho_of_r_on_sphere_witness :
  let tr := hypo_track (hypo_to_track_params upgoing_params) origin0 origin0 in
  cr (at_rho tr 1) = 1 /\
  cr (at_rho tr (rho_of_r_pos tr 1)) = 1 /\
  cr (at_rho tr (rho_of_r_neg tr 1)) = 1 /\
  rho_of_r_neg tr 1 <= rho_of_r_pos tr 1.
Proof.
  cbv zeta.
  assert (Hm : cr (at_rho (hypo_track (hypo_to_track_params upgoing_params) origin0 origin0) 1) = 1).
  { rewrite upgoing_hypo_track. unfold at_rho; simpl.
    replace (0 + 1 * 0 * 1) with 0 by ring. replace (0 + 1 * 0 * 0) with 0 by ring.
    replace (0 + 1 * 1) with 1 by ring. apply cr_up; lra. }
  split; [exact Hm|].
  exact (rho_of_r_on_sphere _ _ _ 1 1 Hm).
Defined.

Lemma rho_of_theta_on_cone_witness :
  let tr := hypo_track (hypo_to_track_params upgoing_params) origin0 origin0 in
  (let '(x, y, z) := at_rho tr 0 in x * x + y * y = tan (PI / 4) ^ 2 * (z * z)) /\
  rho_of_theta_pos tr (PI / 4) = Fin 0 /\
  (let '(x, y, z) := at_rho tr 0 in x * x + y * y = tan (PI / 4) ^ 2 * (z * z)).
Proof.
  cbv zeta.
  assert (H1 : let '(x, y, z) := at_rho (hypo_track (hypo_to_track_params upgoing_params)
                                           origin0 origin0) 0 in
               x * x + y * y = tan (PI / 4) ^ 2 * (z * z)).
  { rewrite upgoing_hypo_track. unfold at_rho; simpl. ring. }
  assert (H2 : rho_of_theta_pos (hypo_track (hypo_to_track_params upgoing_params) origin0 origin0)
                 (PI / 4) = Fin 0).
  { rewrite upgoing_hypo_track. unfold rho_of_theta_pos, get_M; simpl. rewrite tan_PI4.
    match goal with |- context [Reqb ?d 0] => rewrite (Reqb_false d 0) by (simpl; lra) end.
    match goal with |- context [Rltb ?s 0] => replace s with 0 by ring end.
    rewrite (Rltb_false 0 0) by lra. rewrite sqrt_0. f_equal. field. }
  split; [exact H1|]. split; [exact H2|].
  exact (rho_of_theta_on_cone _ _ _ (PI / 4) 0 0 H1 (or_introl H2)).
Defined.


End HypoFastExtra.

Module Pexp5dExtra.
Import Pexp5d Pexp5dSpec Pexp5dExtraSpec Pexp5dProofs.

Lemma pyint_range (x : R) (n : Z) : 0 <= x -> x < IZR n -> (0 <= pyint x <= n - 1)%Z.
Proof.
  intros H0 Hn. split; [apply pyint_nonneg; exact H0|].
  unfold pyint. destruct (Rle_dec 0 x) as [_|H]; [|contradiction].
  destruct (base_Int_part x) as [H1 _].
  assert (Hlt : IZR (Int_part x) < IZR n) by lra. apply lt_IZR in Hlt. lia.
Qed.

Lemma geometry_some cfg dom s dx dy dz rho2 r :
  geometry cfg dom s = Some (dx, dy, dz, rho2, r) ->
  dx = d_x dom - s_x s /\ dy = d_y dom - s_y s /\ dz = d_z dom - s_z s /\
  rho2 = dx * dx + dy * dy /\ 0 <= r /\ r * r = rho2 + dz * dz /\
  rho2 + dz * dz < rsquared_max cfg.
Proof.
  unfold geometry. destruct (Rleb _ _) eqn:E; [discriminate|].
  apply Rleb_false_inv in E. intros H. injection H as <- <- <- <- <-.
  assert (0 <= (d_x dom - s_x s) * (d_x dom - s_x s) + (d_y dom - s_y s) * (d_y dom - s_y s)
               + (d_z dom - s_z s) * (d_z dom - s_z s))
    by (repeat apply Rplus_le_le_0_compat; apply Rle_0_sqr).
  repeat split; auto.
  - apply sqrt_pos.
  - apply sqrt_sqrt; assumption.
Qed.

Lemma r_bin_index_range kind tbl cti nphi sigma (r : R) :
  0 < tb_r_max tbl -> 0 < tb_r_power tbl -> (1 <= tb_n_r_bins tbl)%Z -> 0 <= r < tb_r_max tbl ->
  (0 <= r_bin_index (generate_config kind tbl cti nphi sigma) r <= tb_n_r_bins tbl - 1)%Z.
Proof.
  intros Hm Hp Hn [Hr0 Hr]. unfold r_bin_index; simpl. unfold rpow.
  set (inv := 1 / tb_r_power tbl).
  assert (Hinv : 0 < inv) by (unfold inv; apply Rdiv_lt_0_compat; lra).
  rewrite (Reqb_false (tb_r_max tbl - 0) 0) by lra.
  replace (tb_r_max tbl - 0) with (tb_r_max tbl) by ring.
  assert (HN : 1 <= IZR (tb_n_r_bins tbl)) by (apply IZR_le; lia).
  assert (HB : 0 < Rpower (tb_r_max tbl) inv) by (unfold Rpower; apply exp_pos).
  apply pyint_range.
  - destruct (Req_dec r 0) as [E|E].
    + rewrite (Reqb_true r 0) by exact E. unfold Rdiv. rewrite Rmult_0_l. lra.
    + rewrite (Reqb_false r 0) by exact E.
      assert (0 < Rpower r inv) by (unfold Rpower; apply exp_pos).
      apply Rlt_le, Rdiv_lt_0_compat; [assumption|]. apply Rdiv_lt_0_compat; lra.
  - destruct (Req_dec r 0) as [E|E].
    + rewrite (Reqb_true r 0) by exact E. unfold Rdiv. rewrite Rmult_0_l. lra.
    + rewrite (Reqb_false r 0) by exact E.
      assert (HA : 0 < Rpower r inv) by (unfold Rpower; apply exp_pos).
      assert (HAB : Rpower r inv < Rpower (tb_r_max tbl) inv) by (apply Rlt_Rpower_l; lra).
      replace (Rpower r inv / (Rpower (tb_r_max tbl) inv / IZR (tb_n_r_bins tbl)))
        with (IZR (tb_n_r_bins tbl) * (Rpower r inv / Rpower (tb_r_max tbl) inv)) by (field; lra).
      assert (Rpower r inv / Rpower (tb_r_max tbl) inv < 1).
      { apply (Rmult_lt_reg_r (Rpower (tb_r_max tbl) inv)); [lra|].
        unfold Rdiv. rewrite Rmult_assoc, Rinv_l by lra. lra. }
      nra.
Qed.


(** Extra X15: For a source passing the radial test at nonzero distance, the
    polar bin index int((1 - dz/r) / table_dcostheta) lies in [0,
    n_costheta_bins], and it equals n_costheta_bins (one past the last bin)
    exactly when the source is straight above the DOM (dx = dy = 0, dz < 0).
    *)
Theorem costheta_bin_index_bounds kind tbl cti nphi sigma dom s (dx dy dz rho2 r : R)
  (Hn : (1 <= tb_n_costheta_bins tbl)%Z)
  (Hg : geometry (generate_config kind tbl cti nphi sigma) dom s = Some (dx, dy, dz, rho2, r))
  (Hr : r <> 0) :
  let cfg := generate_config kind tbl cti nphi sigma in
  (0 <= costheta_bin_index cfg dz r <= n_costheta_bins cfg)%Z /\
  (costheta_bin_index cfg dz r = n_costheta_bins cfg <-> dx = 0 /\ dy = 0 /\ dz < 0).
Proof.
  cbv zeta. apply geometry_some in Hg as (_ & _ & _ & E & Hr0 & Hrr & _). subst rho2.
  unfold costheta_bin_index; simpl.
  set (N := tb_n_costheta_bins tbl) in *.
  assert (HN : 1 <= IZR N) by (apply IZR_le; lia).
  assert (Hpos : 0 < r) by lra.
  assert (Hq : -1 <= dz / r <= 1).
  { split.
    - apply (Rmult_le_reg_r r); [lra|]. unfold Rdiv. rewrite Rmult_assoc, Rinv_l by lra. nra.
    - apply (Rmult_le_reg_r r); [lra|]. unfold Rdiv. rewrite Rmult_assoc, Rinv_l by lra. nra. }
  replace ((1 - dz / r) / (2 / IZR N)) with (IZR N * (1 - dz / r) / 2) by (field; lra).
  assert (Hx : 0 <= IZR N * (1 - dz / r) / 2 <= IZR N) by (split; nra).
  assert (Hiff : IZR N * (1 - dz / r) / 2 = IZR N <-> dx = 0 /\ dy = 0 /\ dz < 0).
  { split.
    - intros Heq. assert (Hd : dz / r = -1) by nra.
      assert (Hdz : dz = - r) by (unfold Rdiv in Hd; apply (Rmult_eq_compat_r r) in Hd;
        rewrite Rmult_assoc, Rinv_l, Rmult_1_r in Hd by lra; lra).
      subst dz. assert (dx * dx + dy * dy = 0) by nra.
      assert (dx * dx = 0) by nra. assert (dy * dy = 0) by nra.
      repeat split; [nra | nra | lra].
    - intros (-> & -> & Hdz). assert (r = - dz) by nra.
      subst r. replace (dz / - dz) with (-1) by (field; lra). field. }
  destruct (Req_dec (IZR N * (1 - dz / r) / 2) (IZR N)) as [Heq|Hne].
  - rewrite Heq, pyint_IZR by lia. split; [lia|]. split; [intros _; apply Hiff; exact Heq | reflexivity].
  - pose proof (pyint_range (IZR N * (1 - dz / r) / 2) N ltac:(lra) ltac:(lra)) as Hb.
    split; [lia|]. split; [intros; lia | intros H; apply Hiff in H; contradiction].
Qed.

Lemma costheta_bin_index_bounds_witness :
  (1 <= tb_n_costheta_bins small_binning)%Z /\
  geometry (generate_config ckv_uncompr small_binning false 1 0) dom_at_origin source_above
    = Some (0, 0, -1, 0, 1) /\ 1 <> 0 /\
  let cfg := generate_config ckv_uncompr small_binning false 1 0 in
  (0 <= costheta_bin_index cfg (-1) 1 <= n_costheta_bins cfg)%Z /\
  (costheta_bin_index cfg (-1) 1 = n_costheta_bins cfg <-> 0 = 0 /\ 0 = 0 /\ -1 < 0).
Proof.
  assert (Hn : (1 <= tb_n_costheta_bins small_binning)%Z) by (simpl; lia).
  assert (Hr : (1 : R) <> 0) by lra.
  split; [exact Hn|]. split; [exact (small_cfg_geometry false)|]. split; [exact Hr|].
  exact (costheta_bin_index_bounds _ _ _ _ _ _ _ 0 0 (-1) 0 1 Hn (small_cfg_geometry false) Hr).
Defined.

Lemma t_bin_index_range kind tbl cti nphi sigma (s : Source) (hit : F * F) :
  sane_binning tbl ->
  fle (Fin (s_t s)) (fst hit) = true ->
  fge (fsub (fst hit) (Fin (s_t s))) (Fin (t_max (generate_config kind tbl cti nphi sigma))) = false ->
  (0 <= pyintF (fdiv (fsub (fst hit) (Fin (s_t s)))
                     (Fin (table_dt (generate_config kind tbl cti nphi sigma))))
     <= tb_n_t_bins tbl - 1)%Z.
Proof.
  intros (_ & _ & _ & Ht & Hnt) H1 H2.
  destruct hit as [[h| | |] m]; simpl in H1, H2 |- *; try discriminate.
  apply Rleb_iff in H1. apply Rleb_false_inv in H2.
  assert (HN : 1 <= IZR (tb_n_t_bins tbl)) by (apply IZR_le; lia).
  rewrite (Reqb_false ((tb_t_max tbl - 0) / IZR (tb_n_t_bins tbl)) 0)
    by (apply Rgt_not_eq, Rdiv_lt_0_compat; lra).
  simpl. apply pyint_range.
  - apply Rmult_le_pos; [lra|]. apply Rlt_le, Rinv_0_lt_compat, Rdiv_lt_0_compat; lra.
  - replace ((h + - s_t s) / ((tb_t_max tbl - 0) / IZR (tb_n_t_bins tbl)))
      with (IZR (tb_n_t_bins tbl) * ((h + - s_t s) / tb_t_max tbl)) by (field; lra).
    assert ((h + - s_t s) / tb_t_max tbl < 1).
    { apply (Rmult_lt_reg_r (tb_t_max tbl)); [lra|].
      unfold Rdiv. rewrite Rmult_assoc, Rinv_l by lra. lra. }
    nra.
Qed.


Section NormsAgree.
Variables (kind : TableKind) (tbl : TableBinning) (cti : bool) (nphi : Z) (sigma : R).
Variables (tl : Z -> Z -> Z -> F)
  (spc : R -> R -> Z -> R -> R -> R -> R -> (Z -> Z -> F) -> Z -> Z -> F)
  (spsc : R -> Z -> R -> R -> R -> R -> (Z -> Z -> F) -> Z -> Z -> F).
Variables tabs tabs' : TableData.
Hypothesis Hsane : sane_binning tbl.
Hypothesis Hagree : norms_agree_in_range tbl tabs tabs'.

Local Abbreviation cfg := (generate_config kind tbl cti nphi sigma).

Lemma hit_step_agree s rb cb db hit e :
  (0 <= rb <= tb_n_r_bins tbl - 1)%Z ->
  hit_step cfg tl tabs s rb cb db hit e = hit_step cfg tl tabs' s rb cb db hit e.
Proof.
  intros Hrb. destruct Hagree as (Et & _ & _ & En).
  unfold hit_step.
  destruct (fle (Fin (s_t s)) (fst hit)) eqn:H1; [|reflexivity].
  destruct (fge (fsub (fst hit) (Fin (s_t s))) (Fin (t_max cfg))) eqn:H2; [reflexivity|].
  simpl negb. cbv iota.
  rewrite En by (exact Hrb || exact (t_bin_index_range kind tbl cti nphi sigma s hit Hsane H1 H2)).
  rewrite Et. reflexivity.
Qed.

Lemma hits_loop_agree s rb cb db hits acc :
  (0 <= rb <= tb_n_r_bins tbl - 1)%Z ->
  hits_loop cfg tl tabs s rb cb db hits acc = hits_loop cfg tl tabs' s rb cb db hits acc.
Proof.
  intros Hrb. revert acc; induction hits as [|h hs IH]; intros [|e es]; simpl; try reflexivity.
  rewrite hit_step_agree by exact Hrb. rewrite IH. reflexivity.
Qed.

Lemma source_step_agree dom hits s acc :
  source_step cfg tl spc spsc tabs dom hits s acc = source_step cfg tl spc spsc tabs' dom hits s acc.
Proof.
  destruct Hagree as (Et & Eti & Etn & _). destruct Hsane as (Hm & Hp & Hnr & _).
  unfold source_step. destruct acc as [all hs]. cbv zeta.
  destruct (geometry cfg dom s) as [[[[[dx dy] dz] rho2] r]|] eqn:Hg; [|reflexivity].
  apply geometry_some in Hg as (_ & _ & _ & _ & Hr0 & Hrr & Hlt).
  assert (Hrb : (0 <= r_bin_index cfg r <= tb_n_r_bins tbl - 1)%Z).
  { apply r_bin_index_range; try assumption. split; [exact Hr0|].
    unfold cfg in Hlt; simpl in Hlt. nra. }
  destruct (Reqb r 0); [reflexivity|].
  rewrite (Etn (r_bin_index cfg r) Hrb).
  match goal with |- context [kind_branch ?c ?a ?b tabs ?s1 ?x ?y ?z ?u ?v] =>
    replace (kind_branch c a b tabs s1 x y z u v) with (kind_branch c a b tabs' s1 x y z u v)
      by (unfold kind_branch; rewrite Eti; reflexivity);
    destruct (kind_branch c a b tabs' s1 x y z u v) as [[p db]|x']; [|reflexivity]
  end.
  rewrite hits_loop_agree by exact Hrb. reflexivity.
Qed.

Lemma sources_loop_agree dom hits sources acc :
  sources_loop cfg tl spc spsc tabs dom hits sources acc
  = sources_loop cfg tl spc spsc tabs' dom hits sources acc.
Proof.
  revert acc; induction sources as [|s ss IH]; intros acc; simpl; [reflexivity|].
  rewrite source_step_agree. destruct (source_step _ _ _ _ _ _ _ _ _); [apply IH | reflexivity].
Qed.

End NormsAgree.


(** Extra X16: With positive table extents and at least one radius and one
    time bin, pexp_5d reads table_norm only at indices in [0, n_r_bins - 1]
    x [0, n_t_bins - 1] and t_indep_table_norm only in [0, n_r_bins - 1]:
    changing them elsewhere does not change its result. *)
Theorem pexp_5d_norms_in_range kind tbl cti nphi sigma tl spc spsc sources hits dom tw
  (tabs tabs' : TableData)
  (Hsane : sane_binning tbl) (Hagree : norms_agree_in_range tbl tabs tabs') :
  pexp_5d (generate_config kind tbl cti nphi sigma) tl spc spsc sources hits dom tw tabs
  = pexp_5d (generate_config kind tbl cti nphi sigma) tl spc spsc sources hits dom tw tabs'.
Proof.
  unfold pexp_5d.
  rewrite (sources_loop_agree kind tbl cti nphi sigma tl spc spsc tabs tabs' Hsane Hagree).
  reflexivity.
Qed.

Lemma pexp_5d_norms_in_range_witness :
  sane_binning small_binning /\
  norms_agree_in_range small_binning ones_tables ones_tables_nan_outside /\
  pexp_5d small_cfg no_templates no_cone no_smeared_cone [source_above] [(Fin 1, Fin 1)]
    dom_at_origin 1 ones_tables
  = pexp_5d small_cfg no_templates no_cone no_smeared_cone [source_above] [(Fin 1, Fin 1)]
    dom_at_origin 1 ones_tables_nan_outside.
Proof.
  assert (Hs : sane_binning small_binning) by (unfold sane_binning; simpl; repeat split; lra || lia).
  assert (Ha : norms_agree_in_range small_binning ones_tables ones_tables_nan_outside).
  { unfold norms_agree_in_range; simpl. split; [reflexivity|]. split; [reflexivity|]. split.
    - intros i Hi. replace ((0 <=? i)%Z && (i <=? 9)%Z) with true; [reflexivity|].
      symmetry. apply andb_true_iff. split; apply Z.leb_le; lia.
    - intros i j Hi Hj.
      replace ((0 <=? i)%Z && (i <=? 9)%Z && (0 <=? j)%Z && (j <=? 9)%Z) with true; [reflexivity|].
      symmetry. repeat rewrite andb_true_iff. repeat split; apply Z.leb_le; lia. }
  split; [exact Hs|]. split; [exact Ha|].
  exact (pexp_5d_norms_in_range _ _ _ _ _ _ _ _ _ _ _ _ _ _ Hs Ha).
Defined.

Lemma sources_loop_filter cfg tl spc spsc tabs dom hits sources acc :
  sources_loop cfg tl spc spsc tabs dom hits sources acc
  = sources_loop cfg tl spc spsc tabs dom hits (filter (in_radial_range cfg dom) sources) acc.
Proof.
  revert acc; induction sources as [|s ss IH]; intros acc; simpl; [reflexivity|].
  unfold in_radial_range at 1.
  destruct (geometry cfg dom s) eqn:Hg.
  - simpl. destruct (source_step cfg tl spc spsc tabs dom hits s acc); [apply IH | reflexivity].
  - unfold source_step at 1. destruct acc as [a hs]. rewrite Hg. apply IH.
Qed.

(** Extra X17: Sources outside the table's radial range (rsquared >=
    rsquared_max) are ignored: pexp_5d gives the same result, errors
    included, on the list of sources with those removed. *)
Theorem pexp_5d_ignores_out_of_range cfg tl spc spsc sources hits dom tw tabs :
  pexp_5d cfg tl spc spsc sources hits dom tw tabs
  = pexp_5d cfg tl spc spsc (filter (in_radial_range cfg dom) sources) hits dom tw tabs.
Proof. unfold pexp_5d. rewrite sources_loop_filter. reflexivity. Qed.

Lemma sources_loop_app cfg tl spc spsc tabs dom hits l1 l2 acc :
  sources_loop cfg tl spc spsc tabs dom hits (l1 ++ l2) acc
  = match sources_loop cfg tl spc spsc tabs dom hits l1 acc with
    | Ok acc' => sources_loop cfg tl spc spsc tabs dom hits l2 acc'
    | Err x => Err x
    end.
Proof.
  revert acc; induction l1 as [|s l1 IH]; intros acc; simpl; [reflexivity|].
  destruct (source_step cfg tl spc spsc tabs dom hits s acc); [apply IH | reflexivity].
Qed.

(** Extra X18: On an operational DOM, once the earlier sources are processed
    without error, an in-range source at the DOM's position makes pexp_5d
    raise ZeroDivisionError, and one at nonzero distance of an unknown kind,
    or omnidirectional with compute_t_indep_exp off, makes it raise
    NotImplementedError. *)
Theorem pexp_5d_source_errors cfg tl spc spsc ss1 s ss2 hits dom tw tabs acc
  (dx dy dz rho2 r : R)
  (Hop : operational dom = true)
  (Hpre : sources_loop cfg tl spc spsc tabs dom hits ss1
            (Fin 0, repeat (Fin 0) (List.length hits)) = Ok acc)
  (Hg : geometry cfg dom s = Some (dx, dy, dz, rho2, r)) :
  (r = 0 ->
   pexp_5d cfg tl spc spsc (ss1 ++ s :: ss2) hits dom tw tabs = Err ZeroDivisionError) /\
  (r <> 0 ->
   (exists c, s_kind s = SRC_OTHER c) \/ (s_kind s = SRC_OMNI /\ compute_t_indep_exp cfg = false) ->
   pexp_5d cfg tl spc spsc (ss1 ++ s :: ss2) hits dom tw tabs = Err NotImplementedError).
Proof.
  unfold pexp_5d. rewrite Hop. simpl negb. cbv iota.
  rewrite sources_loop_app, Hpre. simpl. unfold source_step. destruct acc as [a hs].
  rewrite Hg. split.
  - intros ->. rewrite (Reqb_true 0 0) by reflexivity. reflexivity.
  - intros Hr Hk. rewrite (Reqb_false r 0) by exact Hr. cbv zeta. unfold kind_branch.
    destruct Hk as [[c ->] | [-> ->]]; reflexivity.
Qed.

Lemma pexp_5d_source_errors_witness :
  operational dom_at_origin = true /\
  sources_loop small_cfg no_templates no_cone no_smeared_cone ones_tables dom_at_origin
    [(Fin 1, Fin 1)] [] (Fin 0, repeat (Fin 0) (List.length [(Fin 1, Fin 1)]))
    = Ok (Fin 0, [Fin 0]) /\
  geometry small_cfg dom_at_origin other_source_above = Some (0, 0, -1, 0, 1) /\
  (1 = 0 -> pexp_5d small_cfg no_templates no_cone no_smeared_cone ([] ++ other_source_above :: [])
     [(Fin 1, Fin 1)] dom_at_origin 1 ones_tables = Err ZeroDivisionError) /\
  (1 <> 0 ->
   (exists c, s_kind other_source_above = SRC_OTHER c) \/
     (s_kind other_source_above = SRC_OMNI /\ compute_t_indep_exp small_cfg = false) ->
   pexp_5d small_cfg no_templates no_cone no_smeared_cone ([] ++ other_source_above :: [])
     [(Fin 1, Fin 1)] dom_at_origin 1 ones_tables = Err NotImplementedError).
Proof.
  assert (Hop : operational dom_at_origin = true) by reflexivity.
  assert (Hpre : sources_loop small_cfg no_templates no_cone no_smeared_cone ones_tables
                   dom_at_origin [(Fin 1, Fin 1)] []
                   (Fin 0, repeat (Fin 0) (List.length [(Fin 1, Fin 1)])) = Ok (Fin 0, [Fin 0]))
    by reflexivity.
  assert (Hg : geometry small_cfg dom_at_origin other_source_above = Some (0, 0, -1, 0, 1)).
  { unfold geometry; simpl. rewrite Rleb_false by lra.
    replace ((0 - 0) * (0 - 0) + (0 - 0) * (0 - 0) + (0 - 1) * (0 - 1)) with 1 by ring.
    rewrite sqrt_1. repeat f_equal; ring. }
  split; [exact Hop|]. split; [exact Hpre|]. split; [exact Hg|].
  exact (pexp_5d_source_errors _ _ _ _ [] other_source_above [] _ _ 1 _ _ 0 0 (-1) 0 1 Hop Hpre Hg).
Defined.


Lemma sources_loop_out_of_range cfg tl spc spsc tabs dom hits sources acc :
  Forall (fun s => geometry cfg dom s = None) sources ->
  sources_loop cfg tl spc spsc tabs dom hits sources acc = Ok acc.
Proof.
  intros H. revert acc; induction H as [|s ss Hs _ IH]; intros acc; simpl; [reflexivity|].
  unfold source_step at 1. destruct acc as [a hs]. rewrite Hs. apply IH.
Qed.

Lemma sum_log_noise_only dom times ms (a : R) :
  0 < noise_rate_per_ns dom -> List.length times = List.length ms ->
  fold_left (fun (acc : F) (p : F * (F * F)) =>
    let '(ep_at_ht, hit) := p in
    fadd acc (fmul (snd hit)
                   (flog (fadd (fmul (Fin (quantum_efficiency dom)) ep_at_ht)
                               (Fin (noise_rate_per_ns dom))))))
    (combine (repeat (Fin 0) (List.length (combine times (map Fin ms))))
             (combine times (map Fin ms))) (Fin a)
  = Fin (a + ln (noise_rate_per_ns dom) * fold_right Rplus 0 ms).
Proof.
  intros Hn. revert ms a; induction times as [|t ts IH]; intros [|m ms] a Hl;
    simpl in Hl |- *; try discriminate.
  - f_equal. ring.
  - replace (quantum_efficiency dom * 0 + noise_rate_per_ns dom) with (noise_rate_per_ns dom)
      by ring.
    unfold flog. rewrite (Rltb_true 0 (noise_rate_per_ns dom)) by exact Hn.
    cbn [fadd fmul]. rewrite IH by lia. f_equal. ring.
Qed.

(** Extra X19: On an operational DOM with a positive noise rate and no
    source in range, pexp_5d returns (noise_rate * time_window,
    ln(noise_rate) * sum of the hit multiplicities) for finite
    multiplicities. *)
Theorem pexp_5d_noise_only cfg tl spc spsc sources dom tw tabs (times : list F) (ms : list R)
  (Hop : operational dom = true) (Hnoise : 0 < noise_rate_per_ns dom)
  (Hout : Forall (fun s => geometry cfg dom s = None) sources)
  (Hlen : List.length times = List.length ms) :
  pexp_5d cfg tl spc spsc sources (combine times (map Fin ms)) dom tw tabs
  = Ok (Fin (noise_rate_per_ns dom * tw),
        Fin (ln (noise_rate_per_ns dom) * fold_right Rplus 0 ms)).
Proof.
  unfold pexp_5d. rewrite Hop. simpl negb. cbv iota.
  rewrite sources_loop_out_of_range by exact Hout.
  unfold sum_log. rewrite sum_log_noise_only by assumption.
  cbn [isinf fadd fmul]. f_equal. f_equal; f_equal; ring.
Qed.

Lemma pexp_5d_noise_only_witness :
  operational noisy_dom = true /\ 0 < noise_rate_per_ns noisy_dom /\
  Forall (fun s => geometry small_cfg noisy_dom s = None) [far_source] /\
  List.length [Fin 1] = List.length [2] /\
  pexp_5d small_cfg no_templates no_cone no_smeared_cone [far_source]
    (combine [Fin 1] (map Fin [2])) noisy_dom 10 ones_tables
  = Ok (Fin (noise_rate_per_ns noisy_dom * 10),
        Fin (ln (noise_rate_per_ns noisy_dom) * fold_right Rplus 0 [2])).
Proof.
  assert (Hop : operational noisy_dom = true) by reflexivity.
  assert (Hn : 0 < noise_rate_per_ns noisy_dom) by (simpl; lra).
  assert (Hout : Forall (fun s => geometry small_cfg noisy_dom s = None) [far_source]).
  { constructor; [|constructor]. unfold geometry; simpl. rewrite Rleb_true by lra. reflexivity. }
  assert (Hl : List.length [Fin 1] = List.length [2]) by reflexivity.
  split; [exact Hop|]. split; [exact Hn|]. split; [exact Hout|]. split; [exact Hl|].
  exact (pexp_5d_noise_only _ _ _ _ _ _ 10 _ _ _ Hop Hn Hout Hl).
Defined.


Lemma fold_fadd_fin {A : Type} (l : list A) (f : A -> F) (g : A -> R) (a : R) :
  (forall j, f j = Fin (g j)) ->
  fold_left (fun acc j => fadd acc (f j)) l (Fin a) = Fin (fold_left (fun acc j => acc + g j) l a).
Proof.
  intros Hf. revert a; induction l as [|j l IH]; intros a; simpl; [reflexivity|].
  rewrite Hf. apply IH.
Qed.

Lemma fold2_fadd_fin (l1 l2 : list Z) (f : Z -> Z -> F) (g : Z -> Z -> R) (a : R) :
  (forall i j, f i j = Fin (g i j)) ->
  fold_left (fun acc i => fold_left (fun acc j => fadd acc (f i j)) l2 acc) l1 (Fin a)
  = Fin (fold_left (fun acc i => fold_left (fun acc j => acc + g i j) l2 acc) l1 a).
Proof.
  intros Hf. revert a; induction l1 as [|i l1 IH]; intros a; simpl; [reflexivity|].
  rewrite (fold_fadd_fin l2 (f i) (g i)) by auto. apply IH.
Qed.

Lemma fold_scale {A : Type} (l : list A) (g : A -> R) (w a : R) :
  fold_left (fun acc j => acc + w * g j) l (w * a) = w * fold_left (fun acc j => acc + g j) l a.
Proof.
  revert a; induction l as [|j l IH]; intros a; simpl; [reflexivity|].
  replace (w * a + w * g j) with (w * (a + g j)) by ring. apply IH.
Qed.

Lemma fold2_scale (l1 l2 : list Z) (g : Z -> Z -> R) (w a : R) :
  fold_left (fun acc i => fold_left (fun acc j => acc + w * g i j) l2 acc) l1 (w * a)
  = w * fold_left (fun acc i => fold_left (fun acc j => acc + g i j) l2 acc) l1 a.
Proof.
  revert a; induction l1 as [|i l1 IH]; intros a; simpl; [reflexivity|].
  rewrite (fold_scale l2 (g i)). apply IH.
Qed.

(** Extra X20: For a template-compressed cell with finite weight whose
    template has finite entries summing to 1 (mean 1 / size),
    table_lookup_mean (weight / size) equals the mean of table_lookup over
    all direction bins. *)
Theorem table_lookup_mean_templ cfg tl cells (r c t idx : Z) (w : R) (g : Z -> Z -> R)
  (Hc : cells r c t = (idx, Fin w))
  (Hn : (1 <= n_costhetadir_bins cfg)%Z /\ (1 <= n_deltaphidir_bins cfg)%Z)
  (Hfin : forall i j, tl idx i j = Fin (g i j))
  (Hsum : mean2 (n_costhetadir_bins cfg) (n_deltaphidir_bins cfg) (tl idx)
          = Fin (1 / IZR (n_costhetadir_bins cfg * n_deltaphidir_bins cfg))) :
  table_lookup_mean cfg (TemplCompr cells) r c t
  = mean2 (n_costhetadir_bins cfg) (n_deltaphidir_bins cfg)
          (table_lookup tl (TemplCompr cells) r c t).
Proof.
  unfold table_lookup_mean, table_lookup, mean2 in *. rewrite Hc.
  set (n1 := n_costhetadir_bins cfg) in *. set (n2 := n_deltaphidir_bins cfg) in *.
  assert (HN : 1 <= IZR (n1 * n2)) by (apply IZR_le; nia).
  rewrite (fold2_fadd_fin _ _ (tl idx) g) in Hsum by exact Hfin.
  rewrite (fold2_fadd_fin _ _ (fun i j => fmul (Fin w) (tl idx i j)) (fun i j => w * g i j))
    by (intros i j; rewrite Hfin; reflexivity).
  cbn [fdiv] in Hsum |- *. rewrite (Reqb_false (IZR (n1 * n2)) 0) in Hsum |- * by lra.
  injection Hsum as Hsum.
  assert (E : fold_left (fun acc i => fold_left (fun acc j => acc + w * g i j) (zrange n2) acc)
                (zrange n1) 0
              = w * fold_left (fun acc i => fold_left (fun acc j => acc + g i j) (zrange n2) acc)
                      (zrange n1) 0)
    by (rewrite <- fold2_scale, Rmult_0_r; reflexivity).
  rewrite E.
  set (S := fold_left _ (zrange n1) 0) in *.
  assert (HS : S = 1).
  { apply (Rmult_eq_reg_r (/ IZR (n1 * n2))); [|apply Rinv_neq_0_compat; lra].
    unfold Rdiv in Hsum. lra. }
  rewrite HS. f_equal. field. lra.
Qed.

Lemma table_lookup_mean_templ_witness :
  weight3_cells 0 0 0 = (0%Z, Fin 3) /\
  ((1 <= n_costhetadir_bins small_cfg)%Z /\ (1 <= n_deltaphidir_bins small_cfg)%Z) /\
  (forall i j, uniform_templates 0 i j = Fin ((fun _ _ => 1 / 4) i j)) /\
  mean2 (n_costhetadir_bins small_cfg) (n_deltaphidir_bins small_cfg) (uniform_templates 0)
    = Fin (1 / IZR (n_costhetadir_bins small_cfg * n_deltaphidir_bins small_cfg)) /\
  table_lookup_mean small_cfg (TemplCompr weight3_cells) 0 0 0
  = mean2 (n_costhetadir_bins small_cfg) (n_deltaphidir_bins small_cfg)
          (table_lookup uniform_templates (TemplCompr weight3_cells) 0 0 0).
Proof.
  assert (Hc : weight3_cells 0 0 0 = (0%Z, Fin 3)) by reflexivity.
  assert (Hn : (1 <= n_costhetadir_bins small_cfg)%Z /\ (1 <= n_deltaphidir_bins small_cfg)%Z)
    by (simpl; lia).
  assert (Hf : forall i j, uniform_templates 0 i j = Fin ((fun _ _ => 1 / 4) i j))
    by reflexivity.
  assert (Hs : mean2 (n_costhetadir_bins small_cfg) (n_deltaphidir_bins small_cfg)
                 (uniform_templates 0)
               = Fin (1 / IZR (n_costhetadir_bins small_cfg * n_deltaphidir_bins small_cfg))).
  { unfold mean2, zrange; simpl.
    rewrite (Reqb_false 4 0) by lra. f_equal. field. }
  split; [exact Hc|]. split; [exact Hn|]. split; [exact Hf|]. split; [exact Hs|].
  exact (table_lookup_mean_templ small_cfg uniform_templates weight3_cells 0 0 0 0 3 _ Hc Hn Hf Hs).
Defined.


(** Extra X21: With at least one bin on each direction axis, the
    Cherenkov-table direction bin indices are always within range: the
    cos(theta_dir) index lies in [0, last] for pdir_costheta >= -1, and the
    delta-phi index lies in [0, last] for every input. *)
Theorem direction_bins_in_range kind tbl cti nphi sigma (pdir_costheta pdir_cosdeltaphi : R)
  (Hn : (1 <= tb_n_costhetadir_bins tbl)%Z /\ (1 <= tb_n_deltaphidir_bins tbl)%Z)
  (Hp : -1 <= pdir_costheta) :
  let cfg := generate_config kind tbl cti nphi sigma in
  (0 <= costhetadir_bin_index cfg pdir_costheta <= last_costhetadir_bin_idx cfg)%Z /\
  (0 <= deltaphidir_bin_index cfg pdir_cosdeltaphi <= last_deltaphidir_bin_idx cfg)%Z.
Proof.
  destruct Hn as [Hn1 Hn2]. cbv zeta.
  unfold costhetadir_bin_index, deltaphidir_bin_index; simpl.
  assert (H1 : 1 <= IZR (tb_n_costhetadir_bins tbl)) by (apply IZR_le; lia).
  assert (H2 : 1 <= IZR (tb_n_deltaphidir_bins tbl)) by (apply IZR_le; lia).
  pose proof PI_RGT_0.
  assert (Hc : (0 <= pyint ((pdir_costheta + 1) / (2 / IZR (tb_n_costhetadir_bins tbl))))%Z).
  { apply pyint_nonneg. apply Rmult_le_pos; [lra|].
    apply Rlt_le, Rinv_0_lt_compat, Rdiv_lt_0_compat; lra. }
  assert (Hd : (0 <= pyint (Rabs (acos pdir_cosdeltaphi) / (PI / IZR (tb_n_deltaphidir_bins tbl))))%Z).
  { apply pyint_nonneg. apply Rmult_le_pos; [apply Rabs_pos|].
    apply Rlt_le, Rinv_0_lt_compat, Rdiv_lt_0_compat; lra. }
  split.
  - destruct (_ <? _)%Z eqn:E; [lia|]. apply Z.ltb_ge in E. lia.
  - destruct (_ <? _)%Z eqn:E; [lia|]. apply Z.ltb_ge in E. lia.
Qed.

Lemma direction_bins_in_range_witness :
  ((1 <= tb_n_costhetadir_bins small_binning)%Z /\ (1 <= tb_n_deltaphidir_bins small_binning)%Z) /\
  -1 <= -1 /\
  (0 <= costhetadir_bin_index small_cfg (-1) <= last_costhetadir_bin_idx small_cfg)%Z /\
  (0 <= deltaphidir_bin_index small_cfg (-1) <= last_deltaphidir_bin_idx small_cfg)%Z.
Proof.
  assert (Hn : (1 <= tb_n_costhetadir_bins small_binning)%Z /\
               (1 <= tb_n_deltaphidir_bins small_binning)%Z) by (simpl; lia).
  assert (Hp : -1 <= -1) by lra.
  split; [exact Hn|]. split; [exact Hp|].
  exact (direction_bins_in_range ckv_uncompr small_binning false 1 0 (-1) (-1) Hn Hp).
Defined.


End Pexp5dExtra.
